(** * Streaming object transport (send side): completion pipeline, Read state
    machine, idle tick, termination and the LZ4 adapter.

    Shallow embedding of [transport.Stream] and [transport.lz4Stream]
    (package transport, file with [Stream.terminate] ... [lz4Stream.Read]).

    Conventions of the embedding:
    - Go's [int64]/[int] counters are [Z] with the wrap-around written out
      ([add64]);
    - a channel is its FIFO buffer plus the closed flag; sending on a closed
      channel panics, receiving from an empty open channel blocks; the buffer
      capacity is not fixed by the modelled file, so a send that would wait
      for a free slot is taken at the moment it completes;
    - callbacks, [Close], [FreeSend], [runtime.Gosched], [zw.Flush] and
      [sgl.Read] are calls out of the modelled file: each is recorded in the
      [log] of the [World], in program order, and so is each call of
      [Stream.Read] that [lz4Stream.Read] makes;
    - an [io.Reader] is a script of the results its successive [Read] calls
      give; a [select] with several ready cases takes its decision from the
      schedule [sched] of the [World];
    - mutexes and wait groups only order concurrent threads and have no
      sequential effect: they are left out. *)

From Stdlib Require Import ZArith Lia Bool List.
From stdpp Require Import base option list gmap strings.
From Stdlib.Strings Require Import Byte.

Local Open Scope Z_scope.

(** ** Machine integers *)

Definition int64_wrap (z : Z) : Z := (z + 2 ^ 63) mod 2 ^ 64 - 2 ^ 63.
Definition add64 (a b : Z) : Z := int64_wrap (a + b).
Definition int64_range (z : Z) : Prop := - 2 ^ 63 <= z < 2 ^ 63.

(** ** Errors *)

Inductive error : Type :=
| EOF                              (* io.EOF *)
| ErrClosedPriorToStopping         (* Read: "%s closed prior to stopping" *)
| ErrShortRead (off size : Z)      (* sendData: "read (%d) shorter than size (%d)" *)
| ErrOffsetNotSize (off : Z)       (* eoObj: "offset %d != size" *)
| ErrExternal (code : nat).        (* raised outside this file: reader, transport, term.err *)

Definition is_EOF (e : option error) : bool :=
  match e with Some EOF => true | _ => false end.

(** ** Obj and ObjHdr *)

Record ObjectAttrs : Type := {
  Size : Z; Atime : Z; CksumType : string; CksumValue : string; Version : string }.

Record ObjHdr : Type := {
  Bck : string; ObjName : string; Opaque : list byte; ObjAttrs : ObjectAttrs }.

(** [Reader], [Callback], [CmplPtr] and [prc] are Go references: [None] is
    nil, [Some i] names the reader, the callback function, the opaque
    pointer, and the shared atomic counter. *)
Record Obj : Type := {
  Hdr : ObjHdr; Reader : option nat; Callback : option nat;
  CmplPtr : option nat; prc : option nat }.

Definition ObjectAttrs0 : ObjectAttrs :=
  {| Size := 0; Atime := 0; CksumType := ""; CksumValue := ""; Version := "" |}.
Definition ObjHdr0 : ObjHdr :=
  {| Bck := ""; ObjName := ""; Opaque := []; ObjAttrs := ObjectAttrs0 |}.
(** The zero value [Obj{}]. *)
Definition Obj0 : Obj :=
  {| Hdr := ObjHdr0; Reader := None; Callback := None; CmplPtr := None; prc := None |}.
(** [Obj{Hdr: ObjHdr{ObjAttrs: ObjectAttrs{Size: sz}}}] *)
Definition ObjOfSize (sz : Z) : Obj :=
  {| Hdr := {| Bck := ""; ObjName := ""; Opaque := [];
               ObjAttrs := {| Size := sz; Atime := 0; CksumType := "";
                              CksumValue := ""; Version := "" |} |};
     Reader := None; Callback := None; CmplPtr := None; prc := None |}.

Record sendoff : Type := { so_obj : Obj; so_off : Z; so_ins : Z }.

Record cmpl : Type := { c_obj : Obj; c_err : option error }.

(** ** Channels *)

Record chan (A : Type) : Type := { buf : list A; closed : bool }.
Arguments buf {A} _.
Arguments closed {A} _.
Arguments Build_chan {A} _ _.

Definition chan_send {A} (x : A) (c : chan A) : option (chan A) :=
  if closed c then None else Some {| buf := buf c ++ [x]; closed := false |}.

Definition chan_with_buf {A} (l : list A) (c : chan A) : chan A :=
  {| buf := l; closed := closed c |}.

(** [close(ch)] *)
Definition chan_close {A} (c : chan A) : option (chan A) :=
  if closed c then None else Some {| buf := buf c; closed := true |}.

(** ** Calls that are logged *)

Inductive cbkind : Type := PerObject | StreamLevel.

Inductive event : Type :=
| EvSent (k : cbkind) (cb : nat) (hdr : ObjHdr) (rd : option nat)
         (ptr : option nat) (err : option error)
| EvClose (rd : nat)               (* cmn.Close(obj.Reader) *)
| EvFreeSend (o : Obj)             (* FreeSend(obj) *)
| EvFlush                          (* lz4s.zw.Flush() *)
| EvSglRead (n : nat)              (* lz4s.sgl.Read(b) returned n *)
| EvGosched                        (* runtime.Gosched() *)
| EvStreamRead.                    (* lz4s.s.Read(b), as lz4Stream.Read calls it *)

(** The buffers [closeAndFree] returns to the memory manager [s.mm]. *)
Inductive slab : Type := MaxHeader | PduBuf.

(** One result of [Reader.Read(b)]: the bytes it delivers (cut to [len(b)])
    and its error. *)
Definition rstep : Type := list byte * option error.

(** ** What the file uses and does not declare

    The constants, the header serializer, the PDU buffer (type [pdu] with
    its methods), the LZ4 writer and the build mode of [debug.Assert] are
    declared elsewhere in the package or in other packages: they are the
    fields of an [Env], over which everything below is parametric. *)
Record Env : Type := {
  lastMarker : Z; tickMarker : Z; SizeUnknown : Z;
  inHdr : Z; inPDU : Z; inData : Z; inEOB : Z;
  active : Z; inactive : Z;
  (* insObjHeader(s.maxheader, &obj.Hdr, s.usePDU()): the serialized header *)
  insObjHeader : ObjHdr -> bool -> list byte;
  PDU : Type;
  pdu_done : PDU -> bool;
  pdu_last : PDU -> bool;
  pdu_rlength : PDU -> Z;
  pdu_slength : PDU -> Z;
  pdu_readFrom : PDU -> sendoff -> gmap nat (list rstep) ->
                 PDU * sendoff * gmap nat (list rstep) * option error;
  pdu_insHeader : PDU -> PDU;
  pdu_read : PDU -> nat -> PDU * list byte;
  pdu_reset : PDU -> PDU;
  (* lz4.Writer over the SGL: the new writer state and the bytes it emits *)
  ZW : Type;
  zw_Write : ZW -> list byte -> ZW * list byte;
  zw_Flush : ZW -> ZW * list byte;
  zw_Reset : ZW -> ZW;
  (* true in a build where debug.Assert is compiled in *)
  debug_on : bool }.

Section Model.
Context (E : Env).

Record lz4Stream : Type := {
  lz_s : bool;                     (* lz4s.s == s, set by initCompression *)
  lz_zw : option (ZW E);           (* nil until the first doRequest *)
  lz_sgl : list byte;              (* bytes written and not yet read *)
  lz_sgl_freed : nat }.            (* number of sgl.Free() calls *)

Record Stats : Type := {
  stats_Num : Z; stats_Size : Z; stats_Offset : Z; stats_CompressedSize : Z }.

Record Stream : Type := {
  workCh : chan Obj;               (* SQ *)
  cmplCh : chan cmpl;              (* SCQ *)
  callback : option nat;
  s_sendoff : sendoff;
  lz4s : lz4Stream;
  (* streamBase *)
  terminated : bool;               (* term.terminated *)
  term_err : option error;         (* term.err *)
  stats : Stats;
  Numcur : Z;
  Sizecur : Z;
  time_inSend : bool;
  pdu : option (PDU E);
  header : list byte;
  stopCh : bool;                   (* closed? *)
  lastCh : bool;                   (* closed? *)
  sessST : Z;
  registered : bool }.             (* registered with the collector gc *)

Definition set_workCh (v : chan Obj) (s : Stream) : Stream :=
  {| workCh := v; cmplCh := cmplCh s; callback := callback s; s_sendoff := s_sendoff s; lz4s :=
     lz4s s; terminated := terminated s; term_err := term_err s; stats := stats s; Numcur :=
     Numcur s; Sizecur := Sizecur s; time_inSend := time_inSend s; pdu := pdu s; header :=
     header s; stopCh := stopCh s; lastCh := lastCh s; sessST := sessST s; registered :=
     registered s |}.

Definition set_cmplCh (v : chan cmpl) (s : Stream) : Stream :=
  {| workCh := workCh s; cmplCh := v; callback := callback s; s_sendoff := s_sendoff s; lz4s :=
     lz4s s; terminated := terminated s; term_err := term_err s; stats := stats s; Numcur :=
     Numcur s; Sizecur := Sizecur s; time_inSend := time_inSend s; pdu := pdu s; header :=
     header s; stopCh := stopCh s; lastCh := lastCh s; sessST := sessST s; registered :=
     registered s |}.

Definition set_s_sendoff (v : sendoff) (s : Stream) : Stream :=
  {| workCh := workCh s; cmplCh := cmplCh s; callback := callback s; s_sendoff := v; lz4s :=
     lz4s s; terminated := terminated s; term_err := term_err s; stats := stats s; Numcur :=
     Numcur s; Sizecur := Sizecur s; time_inSend := time_inSend s; pdu := pdu s; header :=
     header s; stopCh := stopCh s; lastCh := lastCh s; sessST := sessST s; registered :=
     registered s |}.

Definition set_lz4s (v : lz4Stream) (s : Stream) : Stream :=
  {| workCh := workCh s; cmplCh := cmplCh s; callback := callback s; s_sendoff := s_sendoff s;
     lz4s := v; terminated := terminated s; term_err := term_err s; stats := stats s; Numcur :=
     Numcur s; Sizecur := Sizecur s; time_inSend := time_inSend s; pdu := pdu s; header :=
     header s; stopCh := stopCh s; lastCh := lastCh s; sessST := sessST s; registered :=
     registered s |}.

Definition set_terminated (v : bool) (s : Stream) : Stream :=
  {| workCh := workCh s; cmplCh := cmplCh s; callback := callback s; s_sendoff := s_sendoff s;
     lz4s := lz4s s; terminated := v; term_err := term_err s; stats := stats s; Numcur := Numcur
     s; Sizecur := Sizecur s; time_inSend := time_inSend s; pdu := pdu s; header := header s;
     stopCh := stopCh s; lastCh := lastCh s; sessST := sessST s; registered := registered s |}.

Definition set_stats (v : Stats) (s : Stream) : Stream :=
  {| workCh := workCh s; cmplCh := cmplCh s; callback := callback s; s_sendoff := s_sendoff s;
     lz4s := lz4s s; terminated := terminated s; term_err := term_err s; stats := v; Numcur :=
     Numcur s; Sizecur := Sizecur s; time_inSend := time_inSend s; pdu := pdu s; header :=
     header s; stopCh := stopCh s; lastCh := lastCh s; sessST := sessST s; registered :=
     registered s |}.

Definition set_Numcur (v : Z) (s : Stream) : Stream :=
  {| workCh := workCh s; cmplCh := cmplCh s; callback := callback s; s_sendoff := s_sendoff s;
     lz4s := lz4s s; terminated := terminated s; term_err := term_err s; stats := stats s;
     Numcur := v; Sizecur := Sizecur s; time_inSend := time_inSend s; pdu := pdu s; header :=
     header s; stopCh := stopCh s; lastCh := lastCh s; sessST := sessST s; registered :=
     registered s |}.

Definition set_Sizecur (v : Z) (s : Stream) : Stream :=
  {| workCh := workCh s; cmplCh := cmplCh s; callback := callback s; s_sendoff := s_sendoff s;
     lz4s := lz4s s; terminated := terminated s; term_err := term_err s; stats := stats s;
     Numcur := Numcur s; Sizecur := v; time_inSend := time_inSend s; pdu := pdu s; header :=
     header s; stopCh := stopCh s; lastCh := lastCh s; sessST := sessST s; registered :=
     registered s |}.

Definition set_time_inSend (v : bool) (s : Stream) : Stream :=
  {| workCh := workCh s; cmplCh := cmplCh s; callback := callback s; s_sendoff := s_sendoff s;
     lz4s := lz4s s; terminated := terminated s; term_err := term_err s; stats := stats s;
     Numcur := Numcur s; Sizecur := Sizecur s; time_inSend := v; pdu := pdu s; header := header
     s; stopCh := stopCh s; lastCh := lastCh s; sessST := sessST s; registered := registered s
     |}.

Definition set_pdu (v : option (PDU E)) (s : Stream) : Stream :=
  {| workCh := workCh s; cmplCh := cmplCh s; callback := callback s; s_sendoff := s_sendoff s;
     lz4s := lz4s s; terminated := terminated s; term_err := term_err s; stats := stats s;
     Numcur := Numcur s; Sizecur := Sizecur s; time_inSend := time_inSend s; pdu := v; header :=
     header s; stopCh := stopCh s; lastCh := lastCh s; sessST := sessST s; registered :=
     registered s |}.

Definition set_header (v : list byte) (s : Stream) : Stream :=
  {| workCh := workCh s; cmplCh := cmplCh s; callback := callback s; s_sendoff := s_sendoff s;
     lz4s := lz4s s; terminated := terminated s; term_err := term_err s; stats := stats s;
     Numcur := Numcur s; Sizecur := Sizecur s; time_inSend := time_inSend s; pdu := pdu s;
     header := v; stopCh := stopCh s; lastCh := lastCh s; sessST := sessST s; registered :=
     registered s |}.

Definition set_stopCh (v : bool) (s : Stream) : Stream :=
  {| workCh := workCh s; cmplCh := cmplCh s; callback := callback s; s_sendoff := s_sendoff s;
     lz4s := lz4s s; terminated := terminated s; term_err := term_err s; stats := stats s;
     Numcur := Numcur s; Sizecur := Sizecur s; time_inSend := time_inSend s; pdu := pdu s;
     header := header s; stopCh := v; lastCh := lastCh s; sessST := sessST s; registered :=
     registered s |}.

Definition set_lastCh (v : bool) (s : Stream) : Stream :=
  {| workCh := workCh s; cmplCh := cmplCh s; callback := callback s; s_sendoff := s_sendoff s;
     lz4s := lz4s s; terminated := terminated s; term_err := term_err s; stats := stats s;
     Numcur := Numcur s; Sizecur := Sizecur s; time_inSend := time_inSend s; pdu := pdu s;
     header := header s; stopCh := stopCh s; lastCh := v; sessST := sessST s; registered :=
     registered s |}.

Definition set_sessST (v : Z) (s : Stream) : Stream :=
  {| workCh := workCh s; cmplCh := cmplCh s; callback := callback s; s_sendoff := s_sendoff s;
     lz4s := lz4s s; terminated := terminated s; term_err := term_err s; stats := stats s;
     Numcur := Numcur s; Sizecur := Sizecur s; time_inSend := time_inSend s; pdu := pdu s;
     header := header s; stopCh := stopCh s; lastCh := lastCh s; sessST := v; registered :=
     registered s |}.

Definition set_registered (v : bool) (s : Stream) : Stream :=
  {| workCh := workCh s; cmplCh := cmplCh s; callback := callback s; s_sendoff := s_sendoff s;
     lz4s := lz4s s; terminated := terminated s; term_err := term_err s; stats := stats s;
     Numcur := Numcur s; Sizecur := Sizecur s; time_inSend := time_inSend s; pdu := pdu s;
     header := header s; stopCh := stopCh s; lastCh := lastCh s; sessST := sessST s; registered
     := v |}.
(** ** The world: the stream, the shared counters, the readers, the log *)

Record World : Type := {
  strm : Stream;
  heap : gmap nat Z;               (* the atomic.Int64 behind each prc *)
  rdrs : gmap nat (list rstep);    (* what each Reader still has to give *)
  log : list event;                (* calls out of the file, oldest first *)
  sched : list bool }.             (* select decisions: true = the workCh case *)

Definition upd_strm (f : Stream -> Stream) (w : World) : World :=
  {| strm := f (strm w); heap := heap w; rdrs := rdrs w; log := log w; sched := sched w |}.
Definition set_heap (h : gmap nat Z) (w : World) : World :=
  {| strm := strm w; heap := h; rdrs := rdrs w; log := log w; sched := sched w |}.
Definition set_rdrs (r : gmap nat (list rstep)) (w : World) : World :=
  {| strm := strm w; heap := heap w; rdrs := r; log := log w; sched := sched w |}.
Definition set_log (l : list event) (w : World) : World :=
  {| strm := strm w; heap := heap w; rdrs := rdrs w; log := l; sched := sched w |}.
Definition set_sched (l : list bool) (w : World) : World :=
  {| strm := strm w; heap := heap w; rdrs := rdrs w; log := log w; sched := l |}.

(** ** Outcomes and the state monad of the model *)

Inductive result (A : Type) : Type :=
| Ok (a : A) (w : World)           (* returned normally *)
| Blocked (w : World)              (* waits on a channel, in state w *)
| Panic (w : World)                (* run-time panic, in state w *)
| OutOfFuel.                       (* the PDU fill loop did not end within the fuel *)
Arguments Ok {A} _ _.
Arguments Blocked {A} _.
Arguments Panic {A} _.
Arguments OutOfFuel {A}.

Definition M (A : Type) : Type := World -> result A.

Definition ret {A} (a : A) : M A := fun w => Ok a w.
Definition bind {A B} (m : M A) (k : A -> M B) : M B :=
  fun w => match m w with
           | Ok a w' => k a w'
           | Blocked w' => Blocked w'
           | Panic w' => Panic w'
           | OutOfFuel => OutOfFuel
           end.
Definition panic {A} : M A := fun w => Panic w.
Definition block {A} : M A := fun w => Blocked w.
Definition get : M Stream := fun w => Ok (strm w) w.
Definition modify (f : Stream -> Stream) : M unit := fun w => Ok tt (upd_strm f w).
Definition emit (ev : event) : M unit := fun w => Ok tt (set_log (log w ++ [ev]) w).

End Model.

Arguments workCh {E} _.
Arguments cmplCh {E} _.
Arguments callback {E} _.
Arguments s_sendoff {E} _.
Arguments lz4s {E} _.
Arguments terminated {E} _.
Arguments term_err {E} _.
Arguments stats {E} _.
Arguments Numcur {E} _.
Arguments Sizecur {E} _.
Arguments time_inSend {E} _.
Arguments pdu {E} _.
Arguments header {E} _.
Arguments stopCh {E} _.
Arguments lastCh {E} _.
Arguments sessST {E} _.
Arguments registered {E} _.
Arguments lz_s {E} _.
Arguments lz_zw {E} _.
Arguments lz_sgl {E} _.
Arguments lz_sgl_freed {E} _.
Arguments strm {E} _.
Arguments heap {E} _.
Arguments rdrs {E} _.
Arguments log {E} _.
Arguments sched {E} _.
Arguments Ok {E A} _ _.
Arguments Blocked {E A} _.
Arguments Panic {E A} _.
Arguments OutOfFuel {E A}.
Arguments ret {E A} _ _.
Arguments bind {E A B} _ _ _.
Arguments panic {E A} _.
Arguments block {E A} _.
Arguments get {E} _.
Arguments modify {E} _ _.
Arguments emit {E} _ _.
Arguments upd_strm {E} _ _.
Arguments set_heap {E} _ _.
Arguments set_rdrs {E} _ _.
Arguments set_log {E} _ _.
Arguments set_sched {E} _ _.
Arguments set_workCh {E} _ _.
Arguments set_cmplCh {E} _ _.
Arguments set_s_sendoff {E} _ _.
Arguments set_lz4s {E} _ _.
Arguments set_terminated {E} _ _.
Arguments set_stats {E} _ _.
Arguments set_Numcur {E} _ _.
Arguments set_Sizecur {E} _ _.
Arguments set_time_inSend {E} _ _.
Arguments set_pdu {E} _ _.
Arguments set_header {E} _ _.
Arguments set_stopCh {E} _ _.
Arguments set_lastCh {E} _ _.
Arguments set_sessST {E} _ _.
Arguments set_registered {E} _ _.

Notation "x <- c1 ;; c2" := (bind c1 (fun x => c2))
  (at level 100, c1 at next level, right associativity).
Notation "c1 ;; c2" := (bind c1 (fun _ => c2))
  (at level 100, right associativity).

Section Operations.
Context (E : Env).

(** ** Obj and ObjHdr predicates *)

Definition Hdr_IsLast (hdr : ObjHdr) : bool := Size (ObjAttrs hdr) =? lastMarker E.
Definition Hdr_IsUnsized (hdr : ObjHdr) : bool := Size (ObjAttrs hdr) =? SizeUnknown E.

Definition IsLast (o : Obj) : bool := Hdr_IsLast (Hdr o).
Definition IsIdleTick (o : Obj) : bool := Size (ObjAttrs (Hdr o)) =? tickMarker E.
Definition IsHeaderOnly (o : Obj) : bool :=
  (Size (ObjAttrs (Hdr o)) =? 0) || Hdr_IsLast (Hdr o).
Definition IsUnsized (o : Obj) : bool := Hdr_IsUnsized (Hdr o).

Definition compressed (s : Stream E) : bool := lz_s (lz4s s).
Definition usePDU (s : Stream E) : bool :=
  match pdu s with Some _ => true | None => false end.

Definition inSend (s : Stream E) : bool :=
  (inHdr E <=? so_ins (s_sendoff s)) || (so_ins (s_sendoff s) <? inEOB E).

(** ** Primitive steps *)

(** [obj.prc.Dec()]: the new value. *)
Definition prc_Dec (p : nat) : M E Z := fun w =>
  let v := add64 (default 0 (heap w !! p)) (-1) in
  Ok v (set_heap (<[p := v]> (heap w)) w).

(** [debug.Assert]: checked only in a debug build. *)
Definition debug_Assert (c : bool) : M E unit :=
  if debug_on E && negb c then panic else ret tt.

(** [cmn.Assert]: panics when the condition is false. *)
Definition cmn_Assert (c : bool) : M E unit := if c then ret tt else panic.

(** [s.cmplCh <- c] *)
Definition send_cmpl (c : cmpl) : M E unit := fun w =>
  match chan_send c (cmplCh (strm w)) with
  | Some ch => Ok tt (upd_strm (set_cmplCh ch) w)
  | None => Panic w
  end.

(** [s.workCh <- o] *)
Definition send_work (o : Obj) : M E unit := fun w =>
  match chan_send o (workCh (strm w)) with
  | Some ch => Ok tt (upd_strm (set_workCh ch) w)
  | None => Panic w
  end.

Definition set_so_obj (o : Obj) (s : Stream E) : Stream E :=
  set_s_sendoff {| so_obj := o; so_off := so_off (s_sendoff s);
                   so_ins := so_ins (s_sendoff s) |} s.
Definition set_so_off (z : Z) (s : Stream E) : Stream E :=
  set_s_sendoff {| so_obj := so_obj (s_sendoff s); so_off := z;
                   so_ins := so_ins (s_sendoff s) |} s.
Definition set_so_ins (z : Z) (s : Stream E) : Stream E :=
  set_s_sendoff {| so_obj := so_obj (s_sendoff s); so_off := so_off (s_sendoff s);
                   so_ins := z |} s.

Definition stats_Offset_Add (z : Z) (s : Stream E) : Stream E :=
  set_stats {| stats_Num := stats_Num (stats s); stats_Size := stats_Size (stats s);
               stats_Offset := add64 (stats_Offset (stats s)) z;
               stats_CompressedSize := stats_CompressedSize (stats s) |} s.
Definition stats_Size_Add (z : Z) (s : Stream E) : Stream E :=
  set_stats {| stats_Num := stats_Num (stats s);
               stats_Size := add64 (stats_Size (stats s)) z;
               stats_Offset := stats_Offset (stats s);
               stats_CompressedSize := stats_CompressedSize (stats s) |} s.
Definition stats_Num_Inc (s : Stream E) : Stream E :=
  set_stats {| stats_Num := add64 (stats_Num (stats s)) 1;
               stats_Size := stats_Size (stats s);
               stats_Offset := stats_Offset (stats s);
               stats_CompressedSize := stats_CompressedSize (stats s) |} s.
Definition stats_CompressedSize_Add (z : Z) (s : Stream E) : Stream E :=
  set_stats {| stats_Num := stats_Num (stats s); stats_Size := stats_Size (stats s);
               stats_Offset := stats_Offset (stats s);
               stats_CompressedSize := add64 (stats_CompressedSize (stats s)) z |} s.

(** ** Completions *)

(** [Stream.doCmpl] *)
Definition doCmpl (o : Obj) (err : option error) : M E unit :=
  rc <- match prc o with
        | Some p => prc_Dec p
        | None => ret 0
        end ;;
  debug_Assert (0 <=? rc) ;;
  (if rc =? 0 then
     match Callback o with
     | Some cb => emit (EvSent PerObject cb (Hdr o) (Reader o) (CmplPtr o) err)
     | None =>
         s <- get ;;
         match callback s with
         | Some cb => emit (EvSent StreamLevel cb (Hdr o) (Reader o) (CmplPtr o) err)
         | None => ret tt
         end
     end
   else ret tt) ;;
  match Reader o with
  | Some r => emit (EvClose r)
  | None => ret tt
  end ;;
  emit (EvFreeSend o).

(** [Stream.cmplLoop], from the completions [q] the channel holds. *)
Fixpoint cmplLoop_from (q : list cmpl) : M E unit :=
  match q with
  | [] => s <- get ;; if closed (cmplCh s) then ret tt else block
  | c :: q' =>
      modify (fun s => set_cmplCh (chan_with_buf q' (cmplCh s)) s) ;;
      if IsLast (c_obj c) then ret tt
      else doCmpl (c_obj c) (c_err c) ;; cmplLoop_from q'
  end.

Definition cmplLoop : M E unit :=
  s <- get ;; cmplLoop_from (buf (cmplCh s)).

(** [Stream.abortPending]: the loop over SQ, then the loop over SCQ. *)
Fixpoint abortPending_SQ (err : option error) (q : list Obj) : M E unit :=
  match q with
  | [] => s <- get ;; if closed (workCh s) then ret tt else block
  | o :: q' =>
      modify (fun s => set_workCh (chan_with_buf q' (workCh s)) s) ;;
      doCmpl o err ;; abortPending_SQ err q'
  end.

Fixpoint abortPending_SCQ (q : list cmpl) : M E unit :=
  match q with
  | [] => s <- get ;; if closed (cmplCh s) then ret tt else block
  | c :: q' =>
      modify (fun s => set_cmplCh (chan_with_buf q' (cmplCh s)) s) ;;
      (if negb (IsLast (c_obj c)) then doCmpl (c_obj c) (c_err c) else ret tt) ;;
      abortPending_SCQ q'
  end.

Definition abortPending (err : option error) (completions : bool) : M E unit :=
  s <- get ;;
  abortPending_SQ err (buf (workCh s)) ;;
  if completions then s <- get ;; abortPending_SCQ (buf (cmplCh s)) else ret tt.

(** [Stream.drain]: a receive from the closed, empty channel yields nil,
    which [doCmpl] dereferences. *)
Fixpoint drain_from (q : list Obj) : M E unit :=
  match q with
  | [] => s <- get ;; if closed (workCh s) then panic else ret tt
  | o :: q' =>
      modify (fun s => set_workCh (chan_with_buf q' (workCh s)) s) ;;
      s <- get ;;
      doCmpl o (term_err s) ;; drain_from q'
  end.

Definition drain : M E unit := s <- get ;; drain_from (buf (workCh s)).

(** ** Termination *)

(** Modelled from the spec: [streamBase.Stop] is declared outside this
    file; "Stop(): unblocks any in-progress Read with io.EOF by closing
    stopCh; does not drain SQ". *)
Definition Stop : M E unit := modify (set_stopCh true).

(** Modelled from the spec: the collector [gc] is outside this file;
    [gc.remove] "unregister[s] from the collector". *)
Definition gc_remove : M E unit := modify (set_registered false).

(** [Stream.terminate] *)
Definition terminate : M E unit :=
  s <- get ;;
  cmn_Assert (negb (terminated s)) ;;
  modify (set_terminated true) ;;
  Stop ;;
  s <- get ;;
  send_cmpl {| c_obj := ObjOfSize (lastMarker E); c_err := term_err s |} ;;
  gc_remove ;;
  s <- get ;;
  if compressed s then
    modify (fun s => set_lz4s {| lz_s := lz_s (lz4s s);
                                 lz_zw := zw_Reset E <$> lz_zw (lz4s s);
                                 lz_sgl := [];
                                 lz_sgl_freed := S (lz_sgl_freed (lz4s s)) |} s)
  else ret tt.

(** [Stream.closeAndFree]: closes SQ, then SCQ (closing a closed channel
    panics), then frees the header buffer and, with PDUs, the PDU buffer;
    the result is the buffers given to [s.mm.Free], in order. *)
Definition closeAndFree : M E (list slab) := fun w =>
  match chan_close (workCh (strm w)) with
  | None => Panic w
  | Some cw =>
      let w1 := upd_strm (set_workCh cw) w in
      match chan_close (cmplCh (strm w)) with
      | None => Panic w1
      | Some cc =>
          Ok (MaxHeader :: (if usePDU (strm w) then [PduBuf] else []))
             (upd_strm (set_cmplCh cc) w1)
      end
  end.

(** [Obj.SetPrc]: [obj.prc = atomic.NewInt64(int64(n))], a new counter at an
    address the heap does not hold; the result is the object as updated. *)
Definition SetPrc (n : Z) (o : Obj) : M E Obj := fun w =>
  let p := fresh (dom (heap w)) in
  Ok {| Hdr := Hdr o; Reader := Reader o; Callback := Callback o;
        CmplPtr := CmplPtr o; prc := Some p |}
     (set_heap (<[p := int64_wrap n]> (heap w)) w).

(** [Stream.idleTick] *)
Definition idleTick : M E unit :=
  s <- get ;;
  if (length (buf (workCh s)) =? 0)%nat && (sessST s =? active E) then
    modify (set_sessST (inactive E)) ;;
    send_work (ObjOfSize (tickMarker E))
  else ret tt.

(** ** Sending *)

(** [Stream.eoObj] *)
Definition eoObj (err : option error) : M E unit :=
  s <- get ;;
  let o := so_obj (s_sendoff s) in
  let off := so_off (s_sendoff s) in
  let objSize := if IsUnsized o then off else Size (ObjAttrs (Hdr o)) in
  modify (fun s => set_Sizecur (add64 (Sizecur s) off) s) ;;
  modify (stats_Offset_Add off) ;;
  err' <- match err with
          | Some _ => ret err
          | None =>
              if negb (off =? objSize) then ret (Some (ErrOffsetNotSize off))
              else
                modify (stats_Size_Add objSize) ;;
                modify (fun s => set_Numcur (add64 (Numcur s) 1) s) ;;
                modify stats_Num_Inc ;;
                ret None
          end ;;
  s <- get ;;
  send_cmpl {| c_obj := so_obj (s_sendoff s); c_err := err' |} ;;
  modify (set_s_sendoff {| so_obj := Obj0; so_off := 0; so_ins := inEOB E |}).

(** [Stream.errCmpl] *)
Definition errCmpl (err : option error) : M E unit :=
  s <- get ;;
  if inSend s then send_cmpl {| c_obj := so_obj (s_sendoff s); c_err := err |}
  else ret tt.

(** [obj.Reader.Read(b)] with [len(b) = nb]: the next step of the reader's
    script; a reader with nothing left gives [0, io.EOF]. *)
Definition reader_Read (r : nat) (nb : nat) : M E (list byte * option error) := fun w =>
  match rdrs w !! r with
  | Some ((data, e) :: rest) => Ok (take nb data, e) (set_rdrs (<[r := rest]> (rdrs w)) w)
  | _ => Ok ([], Some EOF) w
  end.

(** [Stream.sendData]; the result is the bytes copied into [b] and [err]. *)
Definition sendData (nb : nat) : M E (list byte * option error) :=
  s <- get ;;
  let objSize := Size (ObjAttrs (Hdr (so_obj (s_sendoff s)))) in
  match Reader (so_obj (s_sendoff s)) with
  | None => panic
  | Some r =>
      p <- reader_Read r nb ;;
      modify (fun s => set_so_off (add64 (so_off (s_sendoff s)) (Z.of_nat (length p.1))) s) ;;
      s <- get ;;
      let off := so_off (s_sendoff s) in
      match p.2 with
      | Some e =>
          if is_EOF p.2 then
            if off <? objSize then ret (p.1, Some (ErrShortRead off objSize))
            else eoObj None ;; ret (p.1, None)
          else eoObj p.2 ;; ret (p.1, p.2)
      | None =>
          if objSize <=? off then eoObj None ;; ret (p.1, None)
          else ret (p.1, None)
      end
  end.

(** [Stream.sendHdr]; slicing [s.header[off:]] outside the header panics. *)
Definition sendHdr (nb : nat) : M E (list byte * option error) :=
  s <- get ;;
  let off := so_off (s_sendoff s) in
  let hlen := Z.of_nat (length (header s)) in
  if (off <? 0) || (hlen <? off) then panic
  else
    let out := take nb (drop (Z.to_nat off) (header s)) in
    let off' := add64 off (Z.of_nat (length out)) in
    modify (set_so_off off') ;;
    if off' <? hlen then ret (out, None)
    else
      debug_Assert (off' =? hlen) ;;
      modify (stats_Offset_Add off') ;;
      modify (fun s => set_so_ins
                (if usePDU s && negb (IsHeaderOnly (so_obj (s_sendoff s)))
                 then inPDU E else inData E) s) ;;
      modify (set_so_off 0) ;;
      s <- get ;;
      if IsLast (so_obj (s_sendoff s)) then
        modify (set_lastCh true) ;; ret (out, Some EOF)
      else ret (out, None).

(** The loop [for !s.pdu.done { ... }] of [Read], case [inPDU]; [err] is the
    error so far. The PDU methods are those of the [Env], so the loop is run
    with fuel. *)
Fixpoint pduFill (fuel : nat) (err : option error) : M E (option error) := fun w =>
  match pdu (strm w) with
  | None => Panic w
  | Some p =>
      if pdu_done E p then Ok err w
      else
        match fuel with
        | O => OutOfFuel
        | S fuel' =>
            let '(p', so', rd', e') := pdu_readFrom E p (s_sendoff (strm w)) (rdrs w) in
            let w1 := set_rdrs rd'
                        (upd_strm (fun s => set_pdu (Some p') (set_s_sendoff so' s)) w) in
            if pdu_done E p' then
              Ok e' (upd_strm (set_pdu (Some (pdu_insHeader E p'))) w1)
            else pduFill fuel' e' w1
        end
  end.

(** [Read], case [inPDU], with [sendPDU] inlined as [pdu_read]. *)
Definition Read_inPDU (fuel nb : nat) : M E (list byte * option error) :=
  err <- pduFill fuel None ;;
  s <- get ;;
  match pdu s with
  | None => panic
  | Some p =>
      if 0 <? pdu_rlength E p then
        let '(p', out) := pdu_read E p nb in
        modify (set_pdu (Some p')) ;;
        (if pdu_rlength E p' =? 0 then
           modify (fun s => set_so_off (add64 (so_off (s_sendoff s)) (pdu_slength E p')) s) ;;
           (if pdu_last E p' then eoObj None else ret tt) ;;
           modify (fun s => set_pdu (pdu_reset E <$> pdu s) s)
         else ret tt) ;;
        ret (out, err)
      else ret ([], err)
  end.

(** Modelled from the spec: [streamBase.deactivate] is declared outside
    this file; "call deactivate() which flips sessST to inactive and returns
    0,nil". *)
Definition deactivate : M E (list byte * option error) :=
  modify (set_sessST (inactive E)) ;; ret ([], None).

(** The [select] of [Read]: [true] when the [workCh] case is taken, [false]
    when the [stopCh] case is; with both ready the schedule decides. *)
Definition select_work (work_ready stop_ready : bool) : M E bool := fun w =>
  match work_ready, stop_ready with
  | false, false => Blocked w
  | true, false => Ok true w
  | false, true => Ok false w
  | true, true => Ok (hd true (sched w)) (set_sched (tl (sched w)) w)
  end.

(** [Read] from the label [repeat], [q] being what [workCh] holds. *)
Fixpoint Read_repeat (nb : nat) (q : list Obj) : M E (list byte * option error) :=
  s <- get ;;
  pick <- select_work ((0 <? length q)%nat || closed (workCh s)) (stopCh s) ;;
  if pick : bool then
    match q with
    | [] => ret ([], Some ErrClosedPriorToStopping)
    | o :: q' =>
        modify (fun s => set_workCh (chan_with_buf q' (workCh s)) s) ;;
        modify (set_so_obj o) ;;
        if IsIdleTick o then
          if (0 <? length q')%nat then Read_repeat nb q' else deactivate
        else
          modify (fun s => set_header (insObjHeader E (Hdr o) (usePDU s)) s) ;;
          modify (set_so_ins (inHdr E)) ;;
          sendHdr nb
    end
  else ret ([], Some EOF).

(** [Stream.Read] with [len(b) = nb]. *)
Definition Read (fuel nb : nat) : M E (list byte * option error) :=
  modify (set_time_inSend true) ;;
  s <- get ;;
  let ins := so_ins (s_sendoff s) in
  let o := so_obj (s_sendoff s) in
  let repeat : M E (list byte * option error) :=
    (s <- get ;; Read_repeat nb (buf (workCh s))) in
  if negb (inSend s) then repeat
  else if ins =? inData E then
    if negb (IsHeaderOnly o) then sendData nb
    else if negb (IsLast o) then eoObj None ;; repeat
    else ret ([], Some EOF)
  else if ins =? inPDU E then Read_inPDU fuel nb
  else if ins =? inHdr E then sendHdr nb
  else repeat.

(** ** lz4Stream *)

Definition with_sgl (z : option (ZW E)) (l : list byte) (s : Stream E) : Stream E :=
  set_lz4s {| lz_s := lz_s (lz4s s); lz_zw := z; lz_sgl := l;
              lz_sgl_freed := lz_sgl_freed (lz4s s) |} s.

(** [lz4s.zw.Write(data)]: what the writer emits goes to the SGL. *)
Definition zw_write (data : list byte) : M E unit := fun w =>
  match lz_zw (lz4s (strm w)) with
  | None => Panic w
  | Some z =>
      let (z', out) := zw_Write E z data in
      Ok tt (upd_strm (fun s => with_sgl (Some z') (lz_sgl (lz4s s) ++ out) s) w)
  end.

(** [lz4s.zw.Flush()] *)
Definition zw_flush : M E unit := fun w =>
  match lz_zw (lz4s (strm w)) with
  | None => Panic w
  | Some z =>
      let (z', out) := zw_Flush E z in
      Ok tt (set_log (log w ++ [EvFlush])
               (upd_strm (fun s => with_sgl (Some z') (lz_sgl (lz4s s) ++ out) s) w))
  end.

(** [lz4s.sgl.Read(b)]: an SGL with nothing to read gives [0, io.EOF]. *)
Definition sgl_Read (nb : nat) : M E (list byte * option error) :=
  s <- get ;;
  match lz_sgl (lz4s s) with
  | [] => emit (EvSglRead 0) ;; ret ([], Some EOF)
  | l =>
      modify (fun s => with_sgl (lz_zw (lz4s s)) (drop nb l) s) ;;
      emit (EvSglRead (length (take nb l))) ;;
      ret (take nb l, None)
  end.

(** [lz4Stream.Read] from the label [re], with [retry] retries left. *)
Fixpoint lz4_re (fuel nb : nat) (last : bool) (retry : nat)
  : M E (list byte * option error) :=
  emit EvStreamRead ;;
  r <- Read fuel nb ;;
  zw_write r.1 ;;
  s <- get ;;
  let flush := last || (so_ins (s_sendoff s) =? inEOB E) || bool_decide (r.2 <> None) in
  (if flush then zw_flush else ret tt) ;;
  d <- sgl_Read nb ;;
  if (length d.1 =? 0)%nat then
    match retry with
    | S retry' =>
        if flush then zw_flush ;; d' <- sgl_Read nb ;; ret (d'.1, r.2)
        else emit EvGosched ;; lz4_re fuel nb last retry'
    | O => zw_flush ;; d' <- sgl_Read nb ;; ret (d'.1, r.2)
    end
  else ret (d.1, r.2).

(** [lz4Stream.Read] from the label [ex]. *)
Definition lz4_ex (last : bool) (r : list byte * option error)
  : M E (list byte * option error) :=
  modify (stats_CompressedSize_Add (Z.of_nat (length r.1))) ;;
  s <- get ;;
  (if (length (lz_sgl (lz4s s)) =? 0)%nat
   then modify (fun s => with_sgl (lz_zw (lz4s s)) [] s) else ret tt) ;;
  ret (r.1, if last && bool_decide (r.2 = None) then Some EOF else r.2).

(** [lz4Stream.Read] with [len(b) = nb]. *)
Definition lz4Read (fuel nb : nat) : M E (list byte * option error) :=
  s <- get ;;
  let last := IsLast (so_obj (s_sendoff s)) in
  r <- (if (0 <? length (lz_sgl (lz4s s)))%nat then
          zw_flush ;;
          d <- sgl_Read nb ;;
          ret (d.1, if is_EOF d.2 then None else d.2)
        else lz4_re fuel nb last 64) ;;
  lz4_ex last r.

End Operations.

(** ** Observations on the log *)

(** One invocation of a sent-callback: which callback (the per-object one or
    the stream's), and the four arguments it was given. *)
Definition call : Type :=
  cbkind * nat * ObjHdr * option nat * option nat * option error.

Definition sent_calls (l : list event) : list call :=
  omap (fun ev => match ev with
                  | EvSent k cb hdr rd ptr err => Some (k, cb, hdr, rd, ptr, err)
                  | _ => None
                  end) l.

Definition freed (l : list event) : list Obj :=
  omap (fun ev => match ev with EvFreeSend o => Some o | _ => None end) l.

Definition closed_readers (l : list event) : list nat :=
  omap (fun ev => match ev with EvClose r => Some r | _ => None end) l.

Definition flushes (l : list event) : nat :=
  length (omap (fun ev => match ev with EvFlush => Some tt | _ => None end) l).

Definition yields (l : list event) : nat :=
  length (omap (fun ev => match ev with EvGosched => Some tt | _ => None end) l).

Definition sgl_reads (l : list event) : list nat :=
  omap (fun ev => match ev with EvSglRead n => Some n | _ => None end) l.

(** The calls of [Stream.Read] that [lz4Stream.Read] made. *)
Definition stream_reads (l : list event) : nat :=
  length (omap (fun ev => match ev with EvStreamRead => Some tt | _ => None end) l).

(** The readers of the objects of a list, nil readers left out. *)
Definition readers_of (l : list Obj) : list nat := omap Reader l.

Section Specs.
Context (E : Env).

(** Whether the completion of [o] in world [w] fires the callback: [prc] is
    nil, or this decrement takes the counter to zero. *)
Definition fires (w : World E) (o : Obj) : bool :=
  match prc o with
  | None => true
  | Some p => add64 (default 0 (heap w !! p)) (-1) =? 0
  end.

(** The callback a completion of [o] on the stream invokes, if any. *)
Definition chosen_cb (s : Stream E) (o : Obj) : option (cbkind * nat) :=
  match Callback o with
  | Some cb => Some (PerObject, cb)
  | None => match callback s with
            | Some cb => Some (StreamLevel, cb)
            | None => None
            end
  end.

(** [Once o err w w']: from [w] to [w'] the log grew by the calls of exactly
    one completion of [o] with [err]: one sent-callback invocation when the
    completion fires and a callback is set (none otherwise), one [Close] of
    the reader when there is one, one [FreeSend]. *)
Definition Once (o : Obj) (err : option error) (w w' : World E) : Prop :=
  callback (strm w') = callback (strm w) /\
  heap w' = match prc o with
            | Some p => <[p := add64 (default 0 (heap w !! p)) (-1)]> (heap w)
            | None => heap w
            end /\
  exists evs, log w' = log w ++ evs /\
    sent_calls evs =
      (if fires w o then
         match chosen_cb (strm w) o with
         | Some (k, cb) => [(k, cb, Hdr o, Reader o, CmplPtr o, err)]
         | None => []
         end
       else []) /\
    closed_readers evs = match Reader o with Some r => [r] | None => [] end /\
    freed evs = [o].

(** [Processed P w w']: the completions [P] were each completed once, in
    this order, and nothing else was logged. *)
Inductive Processed : list cmpl -> World E -> World E -> Prop :=
| Processed_nil w w' :
    log w' = log w -> heap w' = heap w -> callback (strm w') = callback (strm w) ->
    Processed [] w w'
| Processed_cons c P w w1 w2 :
    Once (c_obj c) (c_err c) w w1 -> Processed P w1 w2 -> Processed (c :: P) w w2.

(** The world in which a call returned or is waiting. *)
Definition reached {A} (r : result E A) : option (World E) :=
  match r with
  | Ok _ w | Blocked w => Some w
  | _ => None
  end.

Definition not_last (c : cmpl) : bool := negb (IsLast E (c_obj c)).

(** The completions before the first last-marker. *)
Fixpoint before_last (q : list cmpl) : list cmpl :=
  match q with
  | [] => []
  | c :: q' => if IsLast E (c_obj c) then [] else c :: before_last q'
  end.

(** The calls of one completion, as [doCmpl] makes them. *)
Definition doCmpl_events (w : World E) (o : Obj) (err : option error) : list event :=
  (if fires w o then
     match chosen_cb (strm w) o with
     | Some (k, cb) => [EvSent k cb (Hdr o) (Reader o) (CmplPtr o) err]
     | None => []
     end
   else []) ++
  match Reader o with Some r => [EvClose r] | None => [] end ++ [EvFreeSend o].

Definition doCmpl_heap (w : World E) (o : Obj) : gmap nat Z :=
  match prc o with
  | Some p => <[p := add64 (default 0 (heap w !! p)) (-1)]> (heap w)
  | None => heap w
  end.

Definition doCmpl_asserts (w : World E) (o : Obj) : bool :=
  match prc o with
  | Some p => 0 <=? add64 (default 0 (heap w !! p)) (-1)
  | None => true
  end.

(** The ways the completion machinery of a stream gets to an Obj. *)
Inductive drain_path : Type :=
| ByCmplLoop
| ByAbortPending (err : option error) (completions : bool)
| ByDrain.

Definition run_path (p : drain_path) : M E unit :=
  match p with
  | ByCmplLoop => cmplLoop E
  | ByAbortPending err completions => abortPending E err completions
  | ByDrain => drain E
  end.

Definition as_cmpl (err : option error) (o : Obj) : cmpl := {| c_obj := o; c_err := err |}.

(** The completions a path gets to on stream [s], with the error each is
    completed with. From SQ: [abortPending] the objects of SQ with its
    argument, [drain] those with [term.err]. From SCQ: [cmplLoop] the
    completions before the first last-marker, [abortPending] (when SQ is
    closed and [completions] is set) those that are no last-marker. *)
Definition sq_input (p : drain_path) (s : Stream E) : list cmpl :=
  match p with
  | ByCmplLoop => []
  | ByAbortPending err _ => map (as_cmpl err) (buf (workCh s))
  | ByDrain => map (as_cmpl (term_err s)) (buf (workCh s))
  end.

Definition scq_input (p : drain_path) (s : Stream E) : list cmpl :=
  match p with
  | ByCmplLoop => before_last (buf (cmplCh s))
  | ByAbortPending _ completions =>
      if completions && closed (workCh s)
      then List.filter not_last (buf (cmplCh s)) else []
  | ByDrain => []
  end.

Definition path_input (p : drain_path) (s : Stream E) : list cmpl :=
  sq_input p s ++ scq_input p s.



(** ** End of object *)

(** The final size [eoObj] takes for the object in flight: the offset, when
    the object is unsized, the declared size otherwise. *)
Definition final_size (so : sendoff) : Z :=
  if IsUnsized E (so_obj so) then so_off so else Size (ObjAttrs (Hdr (so_obj so))).

(** The error of the completion [eoObj err] posts. *)
Definition eoObj_err (so : sendoff) (err : option error) : option error :=
  match err with
  | Some _ => err
  | None => if so_off so =? final_size so then None else Some (ErrOffsetNotSize (so_off so))
  end.

Definition sent_ok (x : sendoff * option error) : bool :=
  bool_decide (eoObj_err x.1 x.2 = None).

(** Payload bytes of the objects of [l] that were sent successfully. *)
Fixpoint payload_sum (l : list (sendoff * option error)) : Z :=
  match l with
  | [] => 0
  | x :: l' => (if sent_ok x then so_off x.1 else 0) + payload_sum l'
  end.

Fixpoint ok_count (l : list (sendoff * option error)) : Z :=
  match l with
  | [] => 0
  | x :: l' => (if sent_ok x then 1 else 0) + ok_count l'
  end.

(** What one call [eoObj err] makes of world [w]: one completion, of the
    object in flight with the error [eoObj_err], is appended to SCQ;
    [sendoff] is reset to [{ins: inEOB}]; the offset is added to [Sizecur]
    and [stats.Offset] in any case; [stats.Size] grows by the final size and
    [stats.Num], [Numcur] by one exactly when the completion carries no
    error; the rest is as it was. *)
Definition eoObj_post (err : option error) (w w' : World E) : Prop :=
  let so := s_sendoff (strm w) in
  cmplCh (strm w') =
    {| buf := buf (cmplCh (strm w)) ++ [{| c_obj := so_obj so; c_err := eoObj_err so err |}];
       closed := false |} /\
  s_sendoff (strm w') = {| so_obj := Obj0; so_off := 0; so_ins := inEOB E |} /\
  Sizecur (strm w') = add64 (Sizecur (strm w)) (so_off so) /\
  stats_Offset (stats (strm w')) = add64 (stats_Offset (stats (strm w))) (so_off so) /\
  (if bool_decide (eoObj_err so err = None) then
     stats_Size (stats (strm w')) = add64 (stats_Size (stats (strm w))) (final_size so) /\
     stats_Num (stats (strm w')) = add64 (stats_Num (stats (strm w))) 1 /\
     Numcur (strm w') = add64 (Numcur (strm w)) 1
   else
     stats_Size (stats (strm w')) = stats_Size (stats (strm w)) /\
     stats_Num (stats (strm w')) = stats_Num (stats (strm w)) /\
     Numcur (strm w') = Numcur (strm w)) /\
  stats_CompressedSize (stats (strm w')) = stats_CompressedSize (stats (strm w)) /\
  workCh (strm w') = workCh (strm w) /\
  log w' = log w /\ heap w' = heap w /\ rdrs w' = rdrs w.

(** ** Statements that are refuted below *)

(** Short read, as stated: when [sendData] ends in a short-read error, a
    completion of the object in flight carrying that error is in SCQ. *)
Definition short_read_is_completed (nb : nat) (w : World E) : Prop :=
  forall data off size w',
    sendData E nb w = Ok (data, Some (ErrShortRead off size)) w' ->
    {| c_obj := so_obj (s_sendoff (strm w)); c_err := Some (ErrShortRead off size) |}
      ∈ buf (cmplCh (strm w')).


(** Idempotence of [terminate], as stated, in its weakest reading: after a
    first call, a second call is permitted, it returns without failure. *)
Definition terminate_idempotent (w : World E) : Prop :=
  forall w1, terminate E w = Ok tt w1 -> exists w2, terminate E w1 = Ok tt w2.

(** The events of a call of [lz4Stream.Read] that gave up: drains of the SGL
    that all gave 0 bytes, at most 64 of them followed by a yield, the last
    one followed by a final flush and a last drain. *)
Definition drained_dry (evs : list event) : Prop :=
  (exists pre, evs = pre ++ [EvSglRead 0%nat; EvFlush; EvSglRead 0%nat]) /\
  Forall (fun n => n = 0%nat) (sgl_reads evs) /\
  (yields evs <= 64)%nat.

(** Zero bytes from [lz4Stream.Read], as stated: a call that returns 0 bytes
    and no error has drained the SGL dry. *)
Definition zero_bytes_only_when_dry (fuel nb : nat) (w : World E) : Prop :=
  forall w', lz4Read E fuel nb w = Ok ([], None) w' ->
    exists evs, log w' = log w ++ evs /\ drained_dry evs.

(** ** Read between objects *)

(** The stream is between objects: the [switch] of [Read] takes no case and
    control reaches the label [repeat]. *)
Definition between_objects (s : Stream E) : Prop :=
  so_ins (s_sendoff s) <> inData E /\ so_ins (s_sendoff s) <> inPDU E /\
  so_ins (s_sendoff s) <> inHdr E.

(** The world after a [select] that found [workCh] ready: a decision of the
    schedule is used up when [stopCh] was ready too. *)
Definition after_select (w : World E) : World E :=
  if stopCh (strm w) then set_sched (tl (sched w)) w else w.

(** The [select] takes the [workCh] case. *)
Definition takes_work (w : World E) : Prop :=
  stopCh (strm w) = false \/ hd true (sched w) = true.

(** [Read] has received [o] from [workCh], which now holds [q]. *)
Definition received (o : Obj) (q : list Obj) (w : World E) : World E :=
  upd_strm (fun s => set_so_obj E o
                       (set_workCh (chan_with_buf q (workCh s)) (set_time_inSend true s)))
           (after_select w).

(** ** What Read leaves alone *)

Definition CompressedSize_of (w : World E) : Z := stats_CompressedSize (stats (strm w)).

(** [w'] has the log, the LZ4 state and [stats.CompressedSize] of [w]. *)
Definition lz_same (w w' : World E) : Prop :=
  log w' = log w /\ lz4s (strm w') = lz4s (strm w) /\
  CompressedSize_of w' = CompressedSize_of w.

(** [s'] has the LZ4 state, SCQ and the counters [CompressedSize], [Size]
    and [Num] of [s]. *)
Definition keeps (s s' : Stream E) : Prop :=
  lz4s s' = lz4s s /\
  stats_CompressedSize (stats s') = stats_CompressedSize (stats s) /\
  cmplCh s' = cmplCh s /\
  stats_Size (stats s') = stats_Size (stats s) /\
  stats_Num (stats s') = stats_Num (stats s).

(** Wherever [m] ends (returning, waiting or in a panic), the world it ends
    in is related by [R] to the one it started in. *)
Definition framed (R : World E -> World E -> Prop) {A} (m : M E A) : Prop :=
  forall w, match m w with
            | Ok _ w' | Blocked w' | Panic w' => R w w'
            | OutOfFuel => True
            end.

(** ** Objects reaching their end during Read *)

(** The completion [eoObj] posts for an object that reaches its end with
    [sendoff] [x.1] and error [x.2]. *)
Definition cmpl_of (x : sendoff * option error) : cmpl :=
  {| c_obj := so_obj x.1; c_err := eoObj_err x.1 x.2 |}.

(** [stats.Size] and [stats.Num] after the objects of [l] reached their end,
    as [eoObj] counts them. *)
Fixpoint size_after (z : Z) (l : list (sendoff * option error)) : Z :=
  match l with
  | [] => z
  | x :: l' => size_after (if sent_ok x then add64 z (so_off x.1) else z) l'
  end.

Fixpoint num_after (z : Z) (l : list (sendoff * option error)) : Z :=
  match l with
  | [] => z
  | x :: l' => num_after (if sent_ok x then add64 z 1 else z) l'
  end.

(** [Ended l w w']: from [w] to [w'] the objects of [l] reached their end,
    in this order: SCQ holds their completions after those it held, and
    [stats.Size], [stats.Num] count those sent successfully. *)
Definition Ended (l : list (sendoff * option error)) (w w' : World E) : Prop :=
  closed (cmplCh (strm w')) = closed (cmplCh (strm w)) /\
  buf (cmplCh (strm w')) = buf (cmplCh (strm w)) ++ map cmpl_of l /\
  stats_Size (stats (strm w')) = size_after (stats_Size (stats (strm w))) l /\
  stats_Num (stats (strm w')) = num_after (stats_Num (stats (strm w))) l.

(** On a stream whose SCQ is open, some objects reached their end. *)
Definition Ends (w w' : World E) : Prop :=
  closed (cmplCh (strm w)) = false -> exists l, Ended l w w'.

(** [Reads w w']: [w'] is reached from [w] by calls of [Read], each taken
    up where the one before it returned or waited. *)
Inductive Reads : World E -> World E -> Prop :=
| Reads_nil w : Reads w w
| Reads_step fuel nb w w1 w2 :
    reached (Read E fuel nb w) = Some w1 -> Reads w1 w2 -> Reads w w2.


(** ** Calls in sequence *)

(** Successive calls of [sendHdr] with buffers of the sizes [nbs]: the bytes
    they give, one after the other, and the error of the last call. *)
Fixpoint sendHdr_calls (nbs : list nat) : M E (list byte * option error) :=
  match nbs with
  | [] => ret ([], None)
  | nb :: rest =>
      x <- sendHdr E nb ;;
      match rest with
      | [] => ret x
      | _ => y <- sendHdr_calls rest ;; ret (x.1 ++ y.1, y.2)
      end
  end.

Definition sum_nat (l : list nat) : nat := foldr Nat.add 0%nat l.

(** The sendoff state the header of [o] is followed by. *)
Definition ins_after_hdr (s : Stream E) (o : Obj) : Z :=
  if usePDU E s && negb (IsHeaderOnly E o) then inPDU E else inData E.

(** The error of the completion of an object that ends at offset [off]. *)
Definition end_err (o : Obj) (off : Z) : option error :=
  if IsUnsized E o || (off =? Size (ObjAttrs (Hdr o))) then None
  else Some (ErrOffsetNotSize off).

(** [m] returns at most [nb] bytes. *)
Definition bounded (nb : nat) (m : M E (list byte * option error)) : Prop :=
  forall w, match m w with
            | Ok r _ => (length r.1 <= nb)%nat
            | _ => True
            end.

End Specs.

Ltac run := unfold bind, ret, get, modify, emit, panic, block in *; simpl in *.

(** ** An instance, for the examples

    Values for what the [Env] leaves open: the markers and the in-send states
    as distinct integers, a header of two fixed bytes followed by the opaque
    blob, a PDU buffer that is always done, and a writer that keeps what it
    is given until it is flushed. *)
Definition exampleEnv (dbg : bool) : Env :=
  {| lastMarker := 2 ^ 63 - 1; tickMarker := Z.lxor (2 ^ 63 - 1) 0xa5a5a5a5;
     SizeUnknown := -1;
     inHdr := 1; inPDU := 2; inData := 3; inEOB := 4;
     active := 1; inactive := 2;
     insObjHeader := fun hdr _ => [x48; x44] ++ Opaque hdr;
     PDU := unit;
     pdu_done := fun _ => true; pdu_last := fun _ => true;
     pdu_rlength := fun _ => 0; pdu_slength := fun _ => 0;
     pdu_readFrom := fun p so rd => (p, so, rd, None);
     pdu_insHeader := fun p => p;
     pdu_read := fun p _ => (p, []);
     pdu_reset := fun p => p;
     ZW := list byte;
     zw_Write := fun z data => (z ++ data, []);
     zw_Flush := fun z => ([], z);
     zw_Reset := fun _ => [];
     debug_on := dbg |}.

(** An object of the given size with a reader and no callback of its own. *)
Definition exampleObj (sz : Z) (rd : option nat) (cb : option nat) (rc : option nat) : Obj :=
  {| Hdr := {| Bck := "b"; ObjName := "o"; Opaque := [x01];
               ObjAttrs := {| Size := sz; Atime := 0; CksumType := "";
                              CksumValue := ""; Version := "" |} |};
     Reader := rd; Callback := cb; CmplPtr := None; prc := rc |}.

(** A stream between objects: queues [sq] and [scq], open, stream-level
    callback 9, not terminated, active, not compressed. *)
Definition exampleStream (dbg : bool) (sq : list Obj) (scq : list cmpl)
  : Stream (exampleEnv dbg) :=
  {| workCh := {| buf := sq; closed := false |};
     cmplCh := {| buf := scq; closed := false |};
     callback := Some 9%nat;
     s_sendoff := {| so_obj := Obj0; so_off := 0; so_ins := 4 |};
     lz4s := Build_lz4Stream (exampleEnv dbg) false (Some []) [] 0;
     terminated := false; term_err := None;
     stats := {| stats_Num := 0; stats_Size := 0; stats_Offset := 0;
                 stats_CompressedSize := 0 |};
     Numcur := 0; Sizecur := 0; time_inSend := false; pdu := None; header := [];
     stopCh := false; lastCh := false; sessST := 1; registered := true |}.

Definition exampleWorld (dbg : bool) (s : Stream (exampleEnv dbg))
  (rd : gmap nat (list rstep)) : World (exampleEnv dbg) :=
  {| strm := s; heap := ∅; rdrs := rd; log := []; sched := [] |}.

(** The instance without [debug.Assert], and worlds over it. *)
Definition exE : Env := exampleEnv false.

Definition exCmpl1 : cmpl :=
  {| c_obj := exampleObj 3 (Some 1%nat) None None; c_err := None |}.
Definition exCmpl2 : cmpl :=
  {| c_obj := exampleObj 5 (Some 2%nat) (Some 4%nat) None; c_err := Some (ErrExternal 1) |}.
Definition exMarker : cmpl :=
  {| c_obj := ObjOfSize (lastMarker exE); c_err := None |}.

(** An idle stream. *)
Definition exIdle : World exE := exampleWorld false (exampleStream false [] []) ∅.

(** SCQ holds a completion, the last-marker, and a completion after it. *)
Definition exSCQ : World exE :=
  exampleWorld false (exampleStream false [] [exCmpl1; exMarker; exCmpl2]) ∅.

(** The same SCQ, both channels closed, one object left in SQ. *)
Definition exAborted : World exE :=
  exampleWorld false
    (set_workCh {| buf := [exampleObj 7 (Some 3%nat) None None]; closed := true |}
       (set_cmplCh {| buf := [exCmpl1; exMarker; exCmpl2]; closed := true |}
          (exampleStream false [] []))) ∅.

(** In the data of an object of declared size 10 whose reader gives three
    bytes and [io.EOF]. *)
Definition exShort : World exE :=
  exampleWorld false
    (set_s_sendoff {| so_obj := exampleObj 10 (Some 1%nat) None None;
                      so_off := 0; so_ins := 3 |}
       (exampleStream false [] []))
    {[ 1%nat := [([x61; x62; x63], Some EOF)] ]}.

(** At the end of an object of size 3, three bytes sent. *)
Definition exAtEnd : World exE :=
  exampleWorld false
    (set_s_sendoff {| so_obj := exampleObj 3 (Some 1%nat) None None;
                      so_off := 3; so_ins := 3 |}
       (exampleStream false [] [])) ∅.

(** Between objects, SQ holding one tick-marker. *)
Definition exTick : World exE :=
  exampleWorld false (exampleStream false [ObjOfSize (tickMarker exE)] []) ∅.

(** A compressed stream in flight on the last-marker, one byte pending in
    the writer. *)
Definition exLastLz : World exE :=
  exampleWorld false
    (set_lz4s (Build_lz4Stream exE true (Some [x07]) [] 0)
       (set_s_sendoff {| so_obj := ObjOfSize (lastMarker exE); so_off := 0; so_ins := 3 |}
          (exampleStream false [] []))) ∅.

(** A compressed stream between objects, one byte in the SGL. *)
Definition exSglLz : World exE :=
  exampleWorld false
    (set_lz4s (Build_lz4Stream exE true (Some []) [x07] 0)
       (exampleStream false [] [])) ∅.

(** SQ closed and empty, the stream not stopped. *)
Definition exClosedSQ : World exE :=
  exampleWorld false
    (set_workCh {| buf := []; closed := true |} (exampleStream false [] [])) ∅.

(** Between objects, an object of size 3 queued whose reader gives its
    three bytes. *)
Definition exSend : World exE :=
  exampleWorld false (exampleStream false [exampleObj 3 (Some 1%nat) None None] [])
    {[ 1%nat := [([x61; x62; x63], None)] ]}.

(** Two objects that share the counter 5, which stands at 2. *)
Definition exShared : World exE :=
  set_heap {[ 5%nat := 2 ]}
    (exampleWorld false
       (exampleStream false []
          [ {| c_obj := exampleObj 3 (Some 1%nat) None (Some 5%nat); c_err := None |};
            {| c_obj := exampleObj 3 (Some 2%nat) None (Some 5%nat);
               c_err := Some (ErrExternal 7) |};
            exMarker ]) ∅).

(** In the data of an object of declared size [sz], nothing sent yet, whose
    reader gives three bytes and [e]. *)
Definition exData (sz : Z) (e : option error) : World exE :=
  exampleWorld false
    (set_s_sendoff {| so_obj := exampleObj sz (Some 1%nat) None None;
                      so_off := 0; so_ins := 3 |}
       (exampleStream false [] []))
    {[ 1%nat := [([x61; x62; x63], e)] ]}.

(** In the header of an object, its serialized header of three bytes set. *)
Definition exInHdr : World exE :=
  exampleWorld false
    (set_header [x48; x44; x01]
       (set_s_sendoff {| so_obj := exampleObj 3 (Some 1%nat) None None;
                         so_off := 0; so_ins := 1 |}
          (exampleStream false [] []))) ∅.

(** SCQ holds two completions and no last-marker. *)
Definition exPending : World exE :=
  exampleWorld false (exampleStream false [] [exCmpl1; exCmpl2]) ∅.

(** A compressed stream in the data of an object of size 10 whose reader
    gives no bytes, and no error, 65 times. *)
Definition exDryLz : World exE :=
  exampleWorld false
    (set_lz4s (Build_lz4Stream exE true (Some []) [] 0)
       (set_s_sendoff {| so_obj := exampleObj 10 (Some 1%nat) None None;
                         so_off := 0; so_ins := 3 |}
          (exampleStream false [] [])))
    {[ 1%nat := replicate 65 ([], None) ]}.

(** * Properties *)

Section Proofs.
Context (E : Env).

(** ** Machine integers *)

Lemma int64_wrap_range z : int64_range z -> int64_wrap z = z.
Proof.
  unfold int64_range, int64_wrap. intros Hz.
  rewrite Z.mod_small by lia. lia.
Qed.

Lemma int64_wrap_add_l a b : int64_wrap (int64_wrap a + b) = int64_wrap (a + b).
Proof.
  unfold int64_wrap.
  replace ((a + 2 ^ 63) mod 2 ^ 64 - 2 ^ 63 + b + 2 ^ 63)
    with ((a + 2 ^ 63) mod 2 ^ 64 + b) by lia.
  rewrite Zplus_mod_idemp_l. f_equal. f_equal. lia.
Qed.

(** ** Logs *)

Lemma sent_calls_app l1 l2 : sent_calls (l1 ++ l2) = sent_calls l1 ++ sent_calls l2.
Proof. apply omap_app. Qed.

Lemma freed_app l1 l2 : freed (l1 ++ l2) = freed l1 ++ freed l2.
Proof. apply omap_app. Qed.

Lemma closed_readers_app l1 l2 :
  closed_readers (l1 ++ l2) = closed_readers l1 ++ closed_readers l2.
Proof. apply omap_app. Qed.

(** ** doCmpl *)

Lemma doCmpl_eq o err w :
  doCmpl E o err w =
    if debug_on E && negb (doCmpl_asserts E w o) then Panic (set_heap (doCmpl_heap E w o) w)
    else Ok tt (set_log (log w ++ doCmpl_events E w o err) (set_heap (doCmpl_heap E w o) w)).
Proof.
  unfold doCmpl, doCmpl_events, doCmpl_heap, doCmpl_asserts, fires, chosen_cb,
    prc_Dec, debug_Assert.
  run.
  destruct (prc o) as [p|]; simpl.
  - destruct (debug_on E); simpl.
    + destruct (0 <=? add64 (default 0 (heap w !! p)) (-1)); simpl; [|reflexivity].
      destruct (add64 (default 0 (heap w !! p)) (-1) =? 0);
        destruct (Callback o); simpl; try destruct (callback (strm w)); simpl;
        destruct (Reader o); simpl; unfold set_log, set_heap; simpl;
        rewrite <- ?app_assoc; reflexivity.
    + destruct (add64 (default 0 (heap w !! p)) (-1) =? 0);
        destruct (Callback o); simpl; try destruct (callback (strm w)); simpl;
        destruct (Reader o); simpl; unfold set_log, set_heap; simpl;
        rewrite <- ?app_assoc; reflexivity.
  - rewrite andb_false_r. simpl.
    destruct (Callback o); simpl; try destruct (callback (strm w)); simpl;
      destruct (Reader o); simpl; unfold set_log, set_heap; simpl;
      rewrite <- ?app_assoc; reflexivity.
Qed.

Lemma doCmpl_events_obs w o err :
  sent_calls (doCmpl_events E w o err) =
    (if fires E w o then
       match chosen_cb E (strm w) o with
       | Some (k, cb) => [(k, cb, Hdr o, Reader o, CmplPtr o, err)]
       | None => []
       end
     else []) /\
  closed_readers (doCmpl_events E w o err) =
    match Reader o with Some r => [r] | None => [] end /\
  freed (doCmpl_events E w o err) = [o].
Proof.
  unfold doCmpl_events.
  destruct (fires E w o); destruct (chosen_cb E (strm w) o) as [[k cb]|];
    destruct (Reader o); simpl; repeat split; reflexivity.
Qed.

Lemma doCmpl_Once o err w w' :
  doCmpl E o err w = Ok tt w' ->
  Once E o err w w' /\ strm w' = strm w /\ rdrs w' = rdrs w /\ sched w' = sched w.
Proof.
  rewrite doCmpl_eq.
  destruct (debug_on E && negb (doCmpl_asserts E w o)); [discriminate|].
  intros H. injection H as <-. simpl.
  repeat split; try reflexivity.
  exists (doCmpl_events E w o err). split; [reflexivity|].
  apply doCmpl_events_obs.
Qed.

Lemma doCmpl_total o err w :
  (exists w', doCmpl E o err w = Ok tt w') \/
  (exists w', doCmpl E o err w = Panic w' /\ debug_on E = true).
Proof.
  rewrite doCmpl_eq.
  destruct (debug_on E); simpl.
  - destruct (doCmpl_asserts E w o); simpl; [left | right]; eexists; eauto.
  - left. eexists; eauto.
Qed.

(** ** The drain paths *)

Lemma Once_from o err w0 w w' :
  log w0 = log w -> heap w0 = heap w -> callback (strm w0) = callback (strm w) ->
  Once E o err w0 w' -> Once E o err w w'.
Proof.
  unfold Once, fires, chosen_cb. intros Hl Hh Hc. rewrite Hl, Hh, Hc. tauto.
Qed.

Lemma Processed_from P w0 w w' :
  log w0 = log w -> heap w0 = heap w -> callback (strm w0) = callback (strm w) ->
  Processed E P w0 w' -> Processed E P w w'.
Proof.
  intros Hl Hh Hc HP. destruct HP as [w0 w' H1 H2 H3 | c P w0 w1 w2 H1 H2].
  - constructor; congruence.
  - econstructor; [|exact H2]. eapply Once_from; eauto.
Qed.

Lemma Processed_app P1 P2 w w1 w2 :
  Processed E P1 w w1 -> Processed E P2 w1 w2 -> Processed E (P1 ++ P2) w w2.
Proof.
  intros H1. revert P2 w2. induction H1 as [w w1 Hl Hh Hc | c P w wa wb Ho HP IH];
    intros P2 w2 H2; simpl.
  - eapply Processed_from; [| | |exact H2]; assumption.
  - econstructor; [exact Ho|]. apply IH. exact H2.
Qed.

Lemma Processed_one c w w' :
  doCmpl E (c_obj c) (c_err c) w = Ok tt w' -> Processed E [c] w w'.
Proof.
  intros H. apply doCmpl_Once in H as (Ho & _).
  econstructor; [exact Ho|]. constructor; reflexivity.
Qed.

(** What a list of processed completions leaves in the log. *)
Lemma Processed_log P w w' :
  Processed E P w w' ->
  exists evs, log w' = log w ++ evs /\
    freed evs = map c_obj P /\
    closed_readers evs = readers_of (map c_obj P) /\
    (length (sent_calls evs) <= length P)%nat /\
    (forall k cb hdr rd ptr err, (k, cb, hdr, rd, ptr, err) ∈ sent_calls evs ->
       exists c, c ∈ P /\ hdr = Hdr (c_obj c) /\ rd = Reader (c_obj c) /\
                 ptr = CmplPtr (c_obj c) /\ err = c_err c).
Proof.
  induction 1 as [w w' Hl Hh Hc | c P w w1 w2 Ho HP IH].
  - exists []. rewrite app_nil_r. simpl. repeat split; auto.
    intros ? ? ? ? ? ? Hin. inversion Hin.
  - destruct Ho as (_ & _ & evs1 & Hl1 & Hs1 & Hc1 & Hf1).
    destruct IH as (evs2 & Hl2 & Hf2 & Hc2 & Hn2 & Hs2).
    exists (evs1 ++ evs2). rewrite Hl2, Hl1, <- app_assoc.
    split; [reflexivity|].
    rewrite freed_app, closed_readers_app, sent_calls_app, Hf1, Hf2, Hc1, Hc2, Hs1.
    simpl. unfold readers_of. simpl.
    split; [reflexivity|]. split; [destruct (Reader (c_obj c)); reflexivity|].
    split.
    + rewrite length_app.
      destruct (fires E w (c_obj c)); [destruct (chosen_cb E (strm w) (c_obj c)) as [[? ?]|]|];
        simpl; lia.
    + intros k cb hdr rd ptr err Hin. apply elem_of_app in Hin as [Hin|Hin].
      * exists c. split; [left|].
        destruct (fires E w (c_obj c)); [destruct (chosen_cb E (strm w) (c_obj c)) as [[? ?]|]|];
          try (inversion Hin; fail).
        apply list_elem_of_singleton in Hin. injection Hin as -> -> -> -> -> ->.
        repeat split.
      * destruct (Hs2 _ _ _ _ _ _ Hin) as (c' & Hc' & Hrest).
        exists c'. split; [right; exact Hc' | exact Hrest].
Qed.

Ltac step_doCmpl o err w1 w2 Hd :=
  destruct (doCmpl_total o err w1) as [(w2 & Hd) | (w2 & Hd & _)];
  rewrite Hd; simpl; [| discriminate].

Lemma cmplLoop_from_Processed q : forall w w',
  reached E (cmplLoop_from E q w) = Some w' -> Processed E (before_last E q) w w'.
Proof.
  induction q as [|c q IH]; intros w w'; simpl; run.
  - destruct (closed (cmplCh (strm w))); simpl; intros [= <-]; constructor; reflexivity.
  - destruct (IsLast E (c_obj c)); simpl.
    + intros [= <-]. constructor; reflexivity.
    + match goal with |- context [doCmpl E ?o ?e ?w1] => step_doCmpl o e w1 w2 Hd end.
      intros Hr. apply IH in Hr. apply Processed_one in Hd.
      eapply Processed_from; [| | |exact (Processed_app _ _ _ _ _ Hd Hr)]; reflexivity.
Qed.

Lemma abortPending_SQ_Processed err q : forall w w',
  reached E (abortPending_SQ E err q w) = Some w' ->
  Processed E (map (as_cmpl err) q) w w'.
Proof.
  induction q as [|o q IH]; intros w w'; simpl; run.
  - destruct (closed (workCh (strm w))); simpl; intros [= <-]; constructor; reflexivity.
  - match goal with |- context [doCmpl E ?o ?e ?w1] => step_doCmpl o e w1 w2 Hd end.
    intros Hr. apply IH in Hr.
    apply (Processed_one (as_cmpl err o)) in Hd.
    eapply Processed_from; [| | |exact (Processed_app _ _ _ _ _ Hd Hr)]; reflexivity.
Qed.

Lemma abortPending_SCQ_Processed q : forall w w',
  reached E (abortPending_SCQ E q w) = Some w' ->
  Processed E (List.filter (not_last E) q) w w'.
Proof.
  induction q as [|c q IH]; intros w w'; simpl; run.
  - destruct (closed (cmplCh (strm w))); simpl; intros [= <-]; constructor; reflexivity.
  - unfold not_last at 1. destruct (IsLast E (c_obj c)); simpl.
    + intros Hr. apply IH in Hr.
      eapply Processed_from; [| | |exact Hr]; reflexivity.
    + match goal with |- context [doCmpl E ?o ?e ?w1] => step_doCmpl o e w1 w2 Hd end.
      intros Hr. apply IH in Hr. apply Processed_one in Hd.
      eapply Processed_from; [| | |exact (Processed_app _ _ _ _ _ Hd Hr)]; reflexivity.
Qed.

Lemma drain_from_Processed q : forall w w',
  reached E (drain_from E q w) = Some w' ->
  Processed E (map (as_cmpl (term_err (strm w))) q) w w'.
Proof.
  induction q as [|o q IH]; intros w w'; simpl; run.
  - destruct (closed (workCh (strm w))); simpl; [discriminate|].
    intros [= <-]; constructor; reflexivity.
  - match goal with |- context [doCmpl E ?o ?e ?w1] => step_doCmpl o e w1 w2 Hd end.
    intros Hr. apply IH in Hr.
    pose proof (doCmpl_Once _ _ _ _ Hd) as (_ & Hs & _).
    rewrite Hs in Hr. simpl in Hr.
    apply (Processed_one (as_cmpl (term_err (strm w)) o)) in Hd.
    eapply Processed_from; [| | |exact (Processed_app _ _ _ _ _ Hd Hr)]; reflexivity.
Qed.

Lemma abortPending_SQ_strm err q : forall w,
  match abortPending_SQ E err q w with
  | Ok _ w' => closed (workCh (strm w)) = true /\ cmplCh (strm w') = cmplCh (strm w)
  | Blocked w' => closed (workCh (strm w)) = false
  | Panic _ => True
  | OutOfFuel => False
  end.
Proof.
  induction q as [|o q IH]; intros w; simpl; run.
  - destruct (closed (workCh (strm w))); simpl; auto.
  - destruct (doCmpl_total o err
                (upd_strm (fun s => set_workCh (chan_with_buf q (workCh s)) s) w))
      as [(w2 & Hd) | (w2 & Hd & _)]; rewrite Hd; simpl; [|exact I].
    specialize (IH w2). apply doCmpl_Once in Hd as (_ & Hs & _).
    rewrite Hs in IH. simpl in IH.
    destruct (abortPending_SQ E err q w2); auto.
Qed.

Lemma completion_exactly_once_aux (p : drain_path) (w w' : World E) :
  reached E (run_path E p w) = Some w' ->
  Processed E (path_input E p (strm w)) w w'.
Proof.
  intros Hr.
  unfold path_input. destruct p as [|err completions|]; simpl in *.
  - apply cmplLoop_from_Processed. exact Hr.
  - unfold abortPending in Hr. run.
    pose proof (abortPending_SQ_strm err (buf (workCh (strm w))) w) as Hs.
    pose proof (abortPending_SQ_Processed err (buf (workCh (strm w))) w) as HQ.
    destruct (abortPending_SQ E err (buf (workCh (strm w))) w) as [[] w1|w1|w1|];
      simpl in *; try discriminate.
    + destruct Hs as (Hc & Hq). rewrite Hc, andb_true_r.
      specialize (HQ w1 eq_refl).
      destruct completions; simpl in *.
      * rewrite Hq in Hr. apply abortPending_SCQ_Processed in Hr.
        eapply Processed_app; eauto.
      * injection Hr as <-. rewrite app_nil_r. exact HQ.
    + rewrite Hs, andb_false_r, app_nil_r. apply HQ. exact Hr.
  - rewrite app_nil_r. apply drain_from_Processed. exact Hr.
Qed.







(** C9: when a completion fires and both the per-object Callback and the
    stream-level callback are set, [doCmpl] invokes the per-object one, once,
    and nothing else; whenever the stream-level callback is invoked, the
    object's own Callback is nil. *)
Theorem doCmpl_callback_choice (o : Obj) (err : option error) (w w' : World E) :
  doCmpl E o err w = Ok tt w' ->
  exists evs, log w' = log w ++ evs /\
    (forall cbo cbs, Callback o = Some cbo -> callback (strm w) = Some cbs ->
       fires E w o = true ->
       sent_calls evs = [(PerObject, cbo, Hdr o, Reader o, CmplPtr o, err)]) /\
    (forall cb hdr rd ptr e, (StreamLevel, cb, hdr, rd, ptr, e) ∈ sent_calls evs ->
       Callback o = None /\ callback (strm w) = Some cb).
Proof.
  intros H. apply doCmpl_Once in H as ((_ & _ & evs & Hl & Hs & _) & _).
  exists evs. split; [exact Hl|]. rewrite Hs. unfold chosen_cb. split.
  - intros cbo cbs Ho Hc Hf. rewrite Hf, Ho. reflexivity.
  - intros cb hdr rd ptr e Hin.
    destruct (fires E w o); [|inversion Hin].
    destruct (Callback o) as [cbo|].
    + apply list_elem_of_singleton in Hin. discriminate.
    + destruct (callback (strm w)) as [cbs|]; [|inversion Hin].
      apply list_elem_of_singleton in Hin. injection Hin as <- _ _ _ _. auto.
Qed.

Lemma cmplLoop_from_pre pre : forall rest post w,
  Forall (fun c => not_last E c = true) pre ->
  buf (cmplCh (strm w)) = pre ++ rest ->
  (exists m, rest = m :: post /\ IsLast E (c_obj m) = true) \/
  (rest = [] /\ post = [] /\ closed (cmplCh (strm w)) = true) ->
  match cmplLoop_from E (pre ++ rest) w with
  | Ok _ w' => Processed E pre w w' /\ buf (cmplCh (strm w')) = post
  | Panic _ => debug_on E = true
  | _ => False
  end.
Proof.
  induction pre as [|c pre IH]; intros rest post w Hpre Hbuf Hrest; simpl.
  - destruct Hrest as [(m & -> & Hm) | (-> & -> & Hc)]; simpl; run.
    + rewrite Hm. simpl. split; [constructor; reflexivity | reflexivity].
    + rewrite Hc. simpl. split; [constructor; reflexivity | exact Hbuf].
  - run. inversion Hpre as [|? ? Hc Hpre']; subst.
    unfold not_last in Hc. apply negb_true_iff in Hc. rewrite Hc. simpl.
    match goal with |- context [doCmpl E ?o ?e ?w1] =>
      destruct (doCmpl_total o e w1) as [(w2 & Hd) | (w2 & Hd & Hdbg)]; rewrite Hd; simpl
    end; [|exact Hdbg].
    pose proof (doCmpl_Once _ _ _ _ Hd) as (_ & Hs & _).
    specialize (IH rest post w2 Hpre').
    rewrite Hs in IH. simpl in IH. specialize (IH eq_refl).
    assert (Hr' : (exists m, rest = m :: post /\ IsLast E (c_obj m) = true) \/
                  (rest = [] /\ post = [] /\ closed (cmplCh (strm w)) = true))
      by exact Hrest.
    specialize (IH Hr').
    destruct (cmplLoop_from E (pre ++ rest) w2) as [[] w3| | |]; auto.
    destruct IH as (HP & Hb). split; [|exact Hb].
    apply Processed_one in Hd.
    eapply Processed_from; [| | |exact (Processed_app _ _ _ _ _ Hd HP)]; reflexivity.
Qed.

(** C5: [cmplLoop] completes the completions of SCQ in order and ends at the
    first one that carries a last-marker (or, with none, when the channel is
    closed and empty): it returns, having completed exactly those before the
    marker, the marker itself not being completed and what was placed after
    it being left in the channel. Only a failed [debug.Assert] of [doCmpl]
    in a debug build ends it otherwise. *)
Theorem cmplLoop_ends_at_last (pre rest post : list cmpl) (w : World E) :
  Forall (fun c => not_last E c = true) pre ->
  buf (cmplCh (strm w)) = pre ++ rest ->
  (exists m, rest = m :: post /\ IsLast E (c_obj m) = true) \/
  (rest = [] /\ post = [] /\ closed (cmplCh (strm w)) = true) ->
  match cmplLoop E w with
  | Ok _ w' =>
      Processed E pre w w' /\ buf (cmplCh (strm w')) = post /\
      exists evs, log w' = log w ++ evs /\ freed evs = map c_obj pre
  | Panic _ => debug_on E = true
  | _ => False
  end.
Proof.
  intros Hpre Hbuf Hrest. unfold cmplLoop. run. rewrite Hbuf.
  pose proof (cmplLoop_from_pre pre rest post w Hpre Hbuf Hrest) as H.
  destruct (cmplLoop_from E (pre ++ rest) w) as [[] w'| | |]; auto.
  destruct H as (HP & Hb). repeat split; auto.
  destruct (Processed_log _ _ _ HP) as (evs & Hl & Hf & _).
  exists evs. auto.
Qed.

Lemma before_last_spec q c :
  c ∈ before_last E q -> c ∈ q /\ IsLast E (c_obj c) = false.
Proof.
  induction q as [|x q IH]; simpl; [intros H; inversion H|].
  destruct (IsLast E (c_obj x)) eqn:Hx; [intros H; inversion H|].
  intros H. apply elem_of_cons in H as [-> | H].
  - split; [left | exact Hx].
  - destruct (IH H). split; [right|]; assumption.
Qed.

Lemma filter_not_last_spec q c :
  c ∈ List.filter (not_last E) q -> c ∈ q /\ IsLast E (c_obj c) = false.
Proof.
  rewrite !list_elem_of_In, filter_In. unfold not_last.
  intros [H1 H2]. apply negb_true_iff in H2. auto.
Qed.

(** C10: no SCQ drain path passes a completion that carries a last-marker to
    [doCmpl]: what [cmplLoop] and [abortPending] complete from SCQ are
    completions of SCQ whose Obj is not [IsLast], and the log grows by the
    calls of these (and of the objects of SQ) only; the Obj that [terminate]
    posts is [IsLast], so it gets no callback and no Close. *)
Theorem last_marker_never_completed (p : drain_path) (w w' : World E) :
  reached E (run_path E p w) = Some w' ->
  Processed E (sq_input E p (strm w) ++ scq_input E p (strm w)) w w' /\
  (forall c, c ∈ scq_input E p (strm w) ->
     c ∈ buf (cmplCh (strm w)) /\ IsLast E (c_obj c) = false) /\
  IsLast E (ObjOfSize (lastMarker E)) = true.
Proof.
  intros Hr. split; [|split].
  - apply completion_exactly_once_aux. exact Hr.
  - intros c Hc. destruct p as [|err completions|]; simpl in Hc.
    + apply before_last_spec. exact Hc.
    + destruct (completions && closed (workCh (strm w))); [|inversion Hc].
      apply filter_not_last_spec. exact Hc.
    + inversion Hc.
  - unfold IsLast, Hdr_IsLast. simpl. apply Z.eqb_refl.
Qed.

(** ** terminate *)

(** C2 (as amended): [terminate] is not idempotent, it asserts that
    [term.terminated] is not yet set. On a stream that is not terminated
    (SCQ open) it sets [terminated], stops the stream, enqueues one
    last-marker completion carrying [term.err], unregisters from the
    collector and, when compressed, frees the SGL; called with [terminated]
    set, as a second call is, it fails the assertion and changes nothing. *)
Theorem terminate_at_most_once (w : World E) :
  closed (cmplCh (strm w)) = false ->
  if terminated (strm w) then terminate E w = Panic w
  else exists w',
    terminate E w = Ok tt w' /\
    terminated (strm w') = true /\
    stopCh (strm w') = true /\
    cmplCh (strm w') =
      {| buf := buf (cmplCh (strm w)) ++
                [{| c_obj := ObjOfSize (lastMarker E); c_err := term_err (strm w) |}];
         closed := false |} /\
    registered (strm w') = false /\
    lz_sgl_freed (lz4s (strm w')) =
      (if compressed E (strm w) then S (lz_sgl_freed (lz4s (strm w)))
       else lz_sgl_freed (lz4s (strm w))) /\
    workCh (strm w') = workCh (strm w) /\
    log w' = log w /\
    terminate E w' = Panic w'.
Proof.
  intros Hc. unfold terminate, cmn_Assert, Stop, gc_remove, send_cmpl, chan_send, compressed.
  run. destruct (terminated (strm w)) eqn:Ht; simpl; [reflexivity|].
  rewrite Hc. simpl.
  destruct (lz_s (lz4s (strm w))); simpl; eexists; repeat split.
Qed.

(** ** eoObj, sendData, errCmpl *)

Lemma eoObj_Ok (err : option error) (w : World E) :
  closed (cmplCh (strm w)) = false ->
  exists w', eoObj E err w = Ok tt w' /\ eoObj_post E err w w'.
Proof.
  intros Hc. unfold eoObj_post, eoObj, eoObj_err, final_size, send_cmpl, chan_send. run.
  destruct err as [e|]; simpl.
  - rewrite Hc. simpl. eexists. repeat split.
  - destruct (so_off (s_sendoff (strm w)) =?
              (if IsUnsized E (so_obj (s_sendoff (strm w)))
               then so_off (s_sendoff (strm w))
               else Size (ObjAttrs (Hdr (so_obj (s_sendoff (strm w))))))) eqn:Hv;
      simpl; rewrite Hc; simpl; eexists; repeat split.
Qed.

Lemma int64_wrap_in_range z : int64_range (int64_wrap z).
Proof.
  unfold int64_range, int64_wrap.
  pose proof (Z.mod_pos_bound (z + 2 ^ 63) (2 ^ 64) ltac:(lia)). lia.
Qed.

Lemma sent_ok_size x : sent_ok E x = true -> final_size E x.1 = so_off x.1.
Proof.
  unfold sent_ok, eoObj_err. intros H. apply bool_decide_eq_true in H.
  destruct x.2; [discriminate|].
  destruct (so_off x.1 =? final_size E x.1) eqn:Hv; [|discriminate].
  apply Z.eqb_eq in Hv. auto.
Qed.

Lemma reader_Read_strm r nb w p w1 :
  reader_Read E r nb w = Ok p w1 ->
  strm w1 = strm w /\ log w1 = log w /\ heap w1 = heap w /\ sched w1 = sched w.
Proof.
  unfold reader_Read.
  destruct (rdrs w !! r) as [[|[data e] rest]|]; intros [= <- <-]; simpl; auto.
Qed.

(** C3 (as amended): when the Reader returns [io.EOF] while [sendoff.off] is
    still less than the declared size, [sendData] returns the short-read
    error to the caller of [Read], with the bytes read; it posts nothing to
    SCQ and leaves the object in flight, with [sendoff.off] advanced and the
    stats as they were. The completion of the object is posted by [errCmpl],
    when the stream is in send, with the error [errCmpl] is given. *)
Theorem sendData_short_read (nb : nat) (r : nat) (data : list byte) (w w1 : World E) :
  Reader (so_obj (s_sendoff (strm w))) = Some r ->
  reader_Read E r nb w = Ok (data, Some EOF) w1 ->
  add64 (so_off (s_sendoff (strm w))) (Z.of_nat (length data))
    < Size (ObjAttrs (Hdr (so_obj (s_sendoff (strm w))))) ->
  exists w',
    sendData E nb w =
      Ok (data, Some (ErrShortRead
                        (add64 (so_off (s_sendoff (strm w))) (Z.of_nat (length data)))
                        (Size (ObjAttrs (Hdr (so_obj (s_sendoff (strm w)))))))) w' /\
    cmplCh (strm w') = cmplCh (strm w) /\
    s_sendoff (strm w') =
      {| so_obj := so_obj (s_sendoff (strm w));
         so_off := add64 (so_off (s_sendoff (strm w))) (Z.of_nat (length data));
         so_ins := so_ins (s_sendoff (strm w)) |} /\
    stats (strm w') = stats (strm w) /\
    log w' = log w /\
    forall err, inSend E (strm w') = true -> closed (cmplCh (strm w)) = false ->
      exists w'', errCmpl E err w' = Ok tt w'' /\
        cmplCh (strm w'') =
          {| buf := buf (cmplCh (strm w)) ++
                    [{| c_obj := so_obj (s_sendoff (strm w)); c_err := err |}];
             closed := false |}.
Proof.
  intros Hr Hread Hlt.
  pose proof (reader_Read_strm _ _ _ _ _ Hread) as (Hs & Hl & _).
  unfold sendData. run. rewrite Hr, Hread. simpl. rewrite Hs.
  apply Z.ltb_lt in Hlt. rewrite Hlt.
  eexists. split; [reflexivity|]. simpl. rewrite Hs.
  repeat split; try assumption.
  intros err Hin Hc. unfold errCmpl, send_cmpl, chan_send. run.
  rewrite Hs in *. simpl in *.
  rewrite Hin. simpl. rewrite Hs. simpl. rewrite Hc.
  eexists. split; reflexivity.
Qed.

(** ** Read, from the label repeat *)

Lemma Read_between fuel nb w :
  between_objects E (strm w) ->
  Read E fuel nb w =
    Read_repeat E nb (buf (workCh (strm w))) (upd_strm (set_time_inSend true) w).
Proof.
  intros (H1 & H2 & H3). unfold Read. run.
  apply Z.eqb_neq in H1, H2, H3.
  destruct (inSend E (set_time_inSend true (strm w))); simpl; [|reflexivity].
  rewrite H1, H2, H3. reflexivity.
Qed.

(** C8: between objects, with SQ empty, [Read] returns 0 bytes and the error
    "closed prior to stopping", which is not [io.EOF], when [workCh] is
    closed, and 0 bytes and [io.EOF] when [stopCh] is closed; when both are,
    the [select] decides between the two; when neither is, [Read] waits. *)
Theorem Read_closed_or_stopped (fuel nb : nat) (w : World E) :
  between_objects E (strm w) ->
  buf (workCh (strm w)) = [] ->
  Read E fuel nb w =
    (let w1 := upd_strm (set_time_inSend true) w in
     match closed (workCh (strm w)), stopCh (strm w) with
     | true, false => Ok ([], Some ErrClosedPriorToStopping) w1
     | false, true => Ok ([], Some EOF) w1
     | true, true =>
         Ok ([], Some (if hd true (sched w) then ErrClosedPriorToStopping else EOF))
            (set_sched (tl (sched w)) w1)
     | false, false => Blocked w1
     end) /\
  is_EOF (Some ErrClosedPriorToStopping) = false /\ is_EOF (Some EOF) = true.
Proof.
  intros Hb Hq. split; [|split; reflexivity].
  rewrite (Read_between fuel nb w Hb), Hq. simpl. unfold select_work. run.
  destruct (closed (workCh (strm w))), (stopCh (strm w)); simpl; try reflexivity.
  destruct (hd true (sched w)); reflexivity.
Qed.

Lemma Read_repeat_tick nb o q w :
  IsIdleTick E o = true -> takes_work E w ->
  Read_repeat E nb (o :: q) (upd_strm (set_time_inSend true) w) =
    match q with
    | [] => Ok ([], None) (upd_strm (set_sessST (inactive E)) (received E o q w))
    | _ => Read_repeat E nb q (received E o q w)
    end.
Proof.
  intros Ht Hw. simpl. unfold select_work, received, after_select, deactivate. run.
  destruct Hw as [Hs | Hp].
  - rewrite Hs. simpl. rewrite Ht. destruct q; reflexivity.
  - destruct (stopCh (strm w)); simpl; [rewrite Hp|]; simpl; rewrite Ht;
      destruct q; reflexivity.
Qed.

(** C6: [idleTick] (SQ open) enqueues one tick-marker Obj, and flips
    [sessST] to inactive, exactly when SQ is empty and [sessST] is active,
    and changes nothing otherwise; when [Read], between objects, receives a
    tick-marker it puts no byte of it in [b]: with more work in SQ it goes on
    as a [Read] of the stream without the tick, otherwise it deactivates and
    returns 0 bytes and no error. *)
Theorem idleTick_and_tick_in_Read (fuel nb : nat) (o : Obj) (q : list Obj)
  (w wr : World E) :
  closed (workCh (strm w)) = false ->
  between_objects E (strm wr) ->
  buf (workCh (strm wr)) = o :: q ->
  IsIdleTick E o = true ->
  takes_work E wr ->
  idleTick E w =
    Ok tt (if (length (buf (workCh (strm w))) =? 0)%nat && (sessST (strm w) =? active E)
           then upd_strm (fun s => set_workCh
                                     {| buf := buf (workCh s) ++ [ObjOfSize (tickMarker E)];
                                        closed := false |}
                                     (set_sessST (inactive E) s)) w
           else w) /\
  IsIdleTick E (ObjOfSize (tickMarker E)) = true /\
  Read E fuel nb wr =
    match q with
    | [] => Ok ([], None) (upd_strm (set_sessST (inactive E)) (received E o q wr))
    | _ => Read E fuel nb (received E o q wr)
    end.
Proof.
  intros Hc Hb Hq Ht Hw. split; [|split].
  - unfold idleTick, send_work, chan_send. run.
    destruct ((length (buf (workCh (strm w))) =? 0)%nat && (sessST (strm w) =? active E));
      simpl; [rewrite Hc|]; reflexivity.
  - unfold IsIdleTick. simpl. apply Z.eqb_refl.
  - rewrite (Read_between fuel nb wr Hb), Hq, (Read_repeat_tick nb o q wr Ht Hw).
    destruct q as [|o' q']; [reflexivity|].
    rewrite Read_between.
    + unfold received, after_select. destruct (stopCh (strm wr)); reflexivity.
    + unfold received, after_select, between_objects in *.
      destruct (stopCh (strm wr)); simpl; exact Hb.
Qed.

(** ** What Read changes only through eoObj *)

Section Frame.
Variable R : World E -> World E -> Prop.
Hypothesis R_trans : forall w1 w2 w3, R w1 w2 -> R w2 w3 -> R w1 w3.
Hypothesis R_keep : forall w w', log w' = log w -> keeps E (strm w) (strm w') -> R w w'.
Hypothesis R_eoObj : forall err, framed E R (eoObj E err).

Lemma R_refl w : R w w.
Proof. apply R_keep; repeat split. Qed.

Lemma framed_ret {A} (a : A) : framed E R (ret a).
Proof. intros w. apply R_refl. Qed.

Lemma framed_get : framed E R get.
Proof. intros w. apply R_refl. Qed.

Lemma framed_panic {A} : framed E R (@panic E A).
Proof. intros w. apply R_refl. Qed.

Lemma framed_block {A} : framed E R (@block E A).
Proof. intros w. apply R_refl. Qed.

Lemma framed_bind {A B} (m : M E A) (k : A -> M E B) :
  framed E R m -> (forall a, framed E R (k a)) -> framed E R (bind m k).
Proof.
  intros Hm Hk w. unfold bind. specialize (Hm w).
  destruct (m w) as [a w1|w1|w1|]; auto.
  specialize (Hk a w1). destruct (k a w1); auto; eapply R_trans; eauto.
Qed.

Lemma framed_modify (f : Stream E -> Stream E) :
  (forall s, keeps E s (f s)) -> framed E R (modify f).
Proof. intros Hf w. apply R_keep; [reflexivity | apply Hf]. Qed.

Lemma framed_debug_Assert c : framed E R (debug_Assert E c).
Proof.
  unfold debug_Assert. destruct (debug_on E && negb c);
    [apply framed_panic | apply framed_ret].
Qed.

Lemma framed_reader_Read r nb : framed E R (reader_Read E r nb).
Proof.
  intros w. unfold reader_Read.
  destruct (rdrs w !! r) as [[|[data e] rest]|]; apply R_keep; repeat split.
Qed.

Lemma framed_select_work a b : framed E R (select_work E a b).
Proof. intros w. unfold select_work. destruct a, b; apply R_keep; repeat split. Qed.

Ltac frame_step :=
  first
    [ apply R_eoObj
    | apply framed_debug_Assert
    | apply framed_reader_Read
    | apply framed_select_work
    | solve [apply framed_modify; intro; repeat split]
    | apply framed_bind; [|intro]
    | apply framed_ret
    | apply framed_get
    | apply framed_panic
    | apply framed_block
    | match goal with
      | |- framed _ _ (if ?c then _ else _) => destruct c
      | |- framed _ _ (match ?x with _ => _ end) => destruct x
      end ].

Lemma framed_sendData nb : framed E R (sendData E nb).
Proof. unfold sendData. repeat frame_step. Qed.

Lemma framed_sendHdr nb : framed E R (sendHdr E nb).
Proof. unfold sendHdr. repeat frame_step. Qed.

Lemma framed_pduFill fuel : forall err, framed E R (pduFill E fuel err).
Proof.
  induction fuel as [|fuel IH]; intros err w; simpl.
  - destruct (pdu (strm w)) as [p|]; [|apply R_refl].
    destruct (pdu_done E p); [apply R_refl | exact I].
  - destruct (pdu (strm w)) as [p|]; [|apply R_refl].
    destruct (pdu_done E p); [apply R_refl|].
    destruct (pdu_readFrom E p (s_sendoff (strm w)) (rdrs w)) as [[[p' so'] rd'] e'].
    destruct (pdu_done E p'); [apply R_keep; repeat split|].
    match goal with |- context [pduFill E fuel e' ?w1] =>
      specialize (IH e' w1); destruct (pduFill E fuel e' w1); auto;
      (eapply R_trans; [|exact IH]; apply R_keep; repeat split)
    end.
Qed.

Lemma framed_Read_inPDU fuel nb : framed E R (Read_inPDU E fuel nb).
Proof.
  unfold Read_inPDU.
  apply framed_bind; [apply framed_pduFill | intro].
  apply framed_bind; [apply framed_get | intro s].
  destruct (pdu s) as [p|]; [|apply framed_panic].
  destruct (0 <? pdu_rlength E p); [|apply framed_ret].
  destruct (pdu_read E p nb) as [p' out].
  repeat frame_step.
Qed.

Lemma framed_Read_repeat nb q : framed E R (Read_repeat E nb q).
Proof.
  induction q as [|o q IH]; simpl.
  - repeat frame_step.
  - apply framed_bind; [apply framed_get | intro s].
    apply framed_bind; [apply framed_select_work | intro pick].
    destruct pick; [|apply framed_ret].
    apply framed_bind; [apply framed_modify; intro; repeat split | intro].
    apply framed_bind; [apply framed_modify; intro; repeat split | intro].
    destruct (IsIdleTick E o).
    + destruct (0 <? length q)%nat; [exact IH|].
      unfold deactivate. repeat frame_step.
    + repeat first [apply framed_sendHdr | frame_step].
Qed.

Lemma framed_Read fuel nb : framed E R (Read E fuel nb).
Proof.
  unfold Read.
  repeat first [apply framed_Read_repeat | apply framed_sendData
               | apply framed_sendHdr | apply framed_Read_inPDU | frame_step].
Qed.

End Frame.

(** Objects reaching their end during Read *)

Lemma size_after_app z l1 l2 :
  size_after E z (l1 ++ l2) = size_after E (size_after E z l1) l2.
Proof. revert z. induction l1 as [|x l1 IH]; intros z; simpl; [reflexivity | apply IH]. Qed.

Lemma num_after_app z l1 l2 :
  num_after E z (l1 ++ l2) = num_after E (num_after E z l1) l2.
Proof. revert z. induction l1 as [|x l1 IH]; intros z; simpl; [reflexivity | apply IH]. Qed.

Lemma size_after_wrap l : forall z,
  int64_range z -> size_after E z l = int64_wrap (z + payload_sum E l).
Proof.
  induction l as [|x l IH]; intros z Hz; simpl.
  - rewrite Z.add_0_r, int64_wrap_range by exact Hz. reflexivity.
  - destruct (sent_ok E x).
    + rewrite IH by apply int64_wrap_in_range. unfold add64.
      rewrite int64_wrap_add_l, Z.add_assoc. reflexivity.
    + rewrite IH by exact Hz. reflexivity.
Qed.

Lemma num_after_wrap l : forall z,
  int64_range z -> num_after E z l = int64_wrap (z + ok_count E l).
Proof.
  induction l as [|x l IH]; intros z Hz; simpl.
  - rewrite Z.add_0_r, int64_wrap_range by exact Hz. reflexivity.
  - destruct (sent_ok E x).
    + rewrite IH by apply int64_wrap_in_range. unfold add64.
      rewrite int64_wrap_add_l, Z.add_assoc. reflexivity.
    + rewrite IH by exact Hz. reflexivity.
Qed.

Lemma Ended_app l1 l2 w w1 w2 :
  Ended E l1 w w1 -> Ended E l2 w1 w2 -> Ended E (l1 ++ l2) w w2.
Proof.
  unfold Ended. intros (Hc1 & Hb1 & Hs1 & Hn1) (Hc2 & Hb2 & Hs2 & Hn2).
  rewrite Hc2, Hc1, Hb2, Hb1, Hs2, Hs1, Hn2, Hn1.
  rewrite map_app, app_assoc, size_after_app, num_after_app. repeat split.
Qed.

Lemma Ends_trans w1 w2 w3 : Ends E w1 w2 -> Ends E w2 w3 -> Ends E w1 w3.
Proof.
  unfold Ends. intros H1 H2 Hc. destruct (H1 Hc) as (l1 & HE1).
  destruct H2 as (l2 & HE2).
  - destruct HE1 as (Hc1 & _). congruence.
  - exists (l1 ++ l2). eapply Ended_app; eauto.
Qed.

Lemma Ends_keep w w' : log w' = log w -> keeps E (strm w) (strm w') -> Ends E w w'.
Proof.
  unfold keeps, Ends, Ended. intros _ (_ & _ & Hq & Hs & Hn) _.
  exists []. simpl. rewrite Hq, Hs, Hn, app_nil_r. repeat split.
Qed.

Lemma Ends_eoObj err : framed E (Ends E) (eoObj E err).
Proof.
  intros w. destruct (closed (cmplCh (strm w))) eqn:Hc.
  - destruct (eoObj E err w); try exact I; intros Hc'; congruence.
  - destruct (eoObj_Ok err w Hc) as (w' & He & Hq & _ & _ & _ & Hst & _).
    rewrite He. intros _. exists [(s_sendoff (strm w), err)].
    unfold Ended. simpl. rewrite Hq. simpl.
    change (bool_decide (eoObj_err E (s_sendoff (strm w)) err = None))
      with (sent_ok E (s_sendoff (strm w), err)) in Hst.
    pose proof (sent_ok_size (s_sendoff (strm w), err)) as Hsz. simpl in Hsz.
    destruct (sent_ok E (s_sendoff (strm w), err)).
    + destruct Hst as (HS & HN & _). rewrite HS, HN, Hsz by reflexivity. repeat split; auto.
    + destruct Hst as (HS & HN & _). rewrite HS, HN. repeat split; auto.
Qed.

Lemma Reads_Ended w w' :
  Reads E w w' -> closed (cmplCh (strm w)) = false -> exists l, Ended E l w w'.
Proof.
  induction 1 as [w | fuel nb w w1 w2 Hr _ IH]; intros Hc.
  - apply (Ends_keep w w); repeat split. exact Hc.
  - pose proof (framed_Read (Ends E) Ends_trans Ends_keep Ends_eoObj fuel nb w) as HF.
    assert (H1 : Ends E w w1).
    { destruct (Read E fuel nb w) as [r wa|wa|wa|]; simpl in Hr; try discriminate;
        injection Hr as <-; exact HF. }
    destruct (H1 Hc) as (l1 & HE1).
    destruct IH as (l2 & HE2).
    + destruct HE1 as (Hc1 & _). congruence.
    + exists (l1 ++ l2). eapply Ended_app; eauto.
Qed.

(** C4: every call of [eoObj] (SCQ open) posts exactly one completion
    [cmpl{obj, err}] and resets [sendoff] to [{ins: inEOB}], adds
    [sendoff.off] to [Sizecur] and [stats.Offset] whatever the error,
    checks [sendoff.off] against the size, an unsized object taking its
    offset as final size, and adds the size to [stats.Size] and one to
    [stats.Num] exactly when the completion carries no error
    ([eoObj_post]); so after any number of calls of [Read], [stats.Size] has
    grown by the payload bytes of the objects that reached their end without
    error and [stats.Num] by their number (in int64 arithmetic, and exactly
    when the sum does not overflow), SCQ having received the completion of
    each object that reached its end. *)
Theorem eoObj_posts_and_counts (err : option error) (w : World E) :
  closed (cmplCh (strm w)) = false ->
  int64_range (stats_Size (stats (strm w))) ->
  int64_range (stats_Num (stats (strm w))) ->
  (exists w', eoObj E err w = Ok tt w' /\ eoObj_post E err w w' /\
     (IsUnsized E (so_obj (s_sendoff (strm w))) = true ->
      final_size E (s_sendoff (strm w)) = so_off (s_sendoff (strm w)) /\
      eoObj_err E (s_sendoff (strm w)) err = err) /\
     (IsUnsized E (so_obj (s_sendoff (strm w))) = false -> err = None ->
      (eoObj_err E (s_sendoff (strm w)) err = None <->
       so_off (s_sendoff (strm w)) = Size (ObjAttrs (Hdr (so_obj (s_sendoff (strm w)))))))) /\
  (forall w', Reads E w w' ->
     exists l,
       buf (cmplCh (strm w')) = buf (cmplCh (strm w)) ++ map (cmpl_of E) l /\
       stats_Size (stats (strm w')) =
         int64_wrap (stats_Size (stats (strm w)) + payload_sum E l) /\
       (int64_range (stats_Size (stats (strm w)) + payload_sum E l) ->
        stats_Size (stats (strm w')) = stats_Size (stats (strm w)) + payload_sum E l) /\
       stats_Num (stats (strm w')) =
         int64_wrap (stats_Num (stats (strm w)) + ok_count E l)).
Proof.
  intros Hc Hs Hn. split.
  - destruct (eoObj_Ok err w Hc) as (w' & He & Hp).
    exists w'. split; [exact He|]. split; [exact Hp|].
    unfold eoObj_err, final_size. split.
    + intros ->. split; [reflexivity|].
      destruct err; [reflexivity|]. rewrite Z.eqb_refl. reflexivity.
    + intros -> ->.
      destruct (so_off (s_sendoff (strm w)) =?
                Size (ObjAttrs (Hdr (so_obj (s_sendoff (strm w)))))) eqn:Hv.
      * apply Z.eqb_eq in Hv. tauto.
      * apply Z.eqb_neq in Hv. split; [discriminate | tauto].
  - intros w' HR. destruct (Reads_Ended w w' HR Hc) as (l & _ & Hb & HS & HN).
    exists l. split; [exact Hb|].
    rewrite HS, HN, size_after_wrap, num_after_wrap by assumption.
    repeat split. intros Hrange. apply int64_wrap_range. exact Hrange.
Qed.

(** Read leaves the log, the LZ4 state and CompressedSize alone. *)

Lemma lz_same_trans w1 w2 w3 : lz_same E w1 w2 -> lz_same E w2 w3 -> lz_same E w1 w3.
Proof. unfold lz_same. intros (? & ? & ?) (? & ? & ?). repeat split; congruence. Qed.

Lemma lz_same_keep w w' : log w' = log w -> keeps E (strm w) (strm w') -> lz_same E w w'.
Proof.
  unfold lz_same, keeps, CompressedSize_of. intros ? (? & ? & _). repeat split; assumption.
Qed.

Lemma lz_same_eoObj err : framed E (lz_same E) (eoObj E err).
Proof.
  intros w. unfold eoObj, send_cmpl, chan_send. run.
  destruct err as [e|]; simpl.
  - destruct (closed (cmplCh (strm w))); repeat split.
  - destruct (negb _); simpl; destruct (closed (cmplCh (strm w))); repeat split.
Qed.

Lemma lz_frame_Read fuel nb : framed E (lz_same E) (Read E fuel nb).
Proof. apply framed_Read; [apply lz_same_trans | apply lz_same_keep | apply lz_same_eoObj]. Qed.

(** ** lz4Stream.Read *)

Lemma bind_Ok {A B} (m : M E A) (k : A -> M E B) w b w' :
  bind m k w = Ok b w' -> exists a w1, m w = Ok a w1 /\ k a w1 = Ok b w'.
Proof.
  unfold bind. destruct (m w) as [a w1| | |]; try discriminate. eauto.
Qed.

Lemma Read_Ok_same fuel nb w r w1 :
  Read E fuel nb w = Ok r w1 -> log w1 = log w /\ CompressedSize_of E w1 = CompressedSize_of E w.
Proof.
  intros H. pose proof (lz_frame_Read fuel nb w) as HF. rewrite H in HF.
  destruct HF as (? & _ & ?). auto.
Qed.

Lemma zw_write_Ok data w w1 :
  zw_write E data w = Ok tt w1 ->
  log w1 = log w /\ CompressedSize_of E w1 = CompressedSize_of E w /\
  s_sendoff (strm w1) = s_sendoff (strm w).
Proof.
  unfold zw_write. destruct (lz_zw (lz4s (strm w))) as [z|]; [|discriminate].
  destruct (zw_Write E z data). intros [= <-]. repeat split.
Qed.

Lemma zw_flush_Ok w w1 :
  zw_flush E w = Ok tt w1 ->
  log w1 = log w ++ [EvFlush] /\ CompressedSize_of E w1 = CompressedSize_of E w /\
  exists out, lz_sgl (lz4s (strm w1)) = lz_sgl (lz4s (strm w)) ++ out.
Proof.
  unfold zw_flush. destruct (lz_zw (lz4s (strm w))) as [z|]; [|discriminate].
  destruct (zw_Flush E z) as [z' out]. intros [= <-]. repeat split. exists out. reflexivity.
Qed.

Lemma sgl_Read_Ok nb w (d : list byte * option error) w1 :
  sgl_Read E nb w = Ok d w1 ->
  log w1 = log w ++ [EvSglRead (length d.1)] /\
  CompressedSize_of E w1 = CompressedSize_of E w /\
  (lz_sgl (lz4s (strm w)) <> [] -> (0 < nb)%nat -> d.1 <> []).
Proof.
  unfold sgl_Read. run.
  destruct (lz_sgl (lz4s (strm w))) as [|x l] eqn:Hl; intros [= <- <-]; simpl.
  - repeat split. intros H; contradiction.
  - repeat split. intros _ Hnb. destruct nb; [lia | discriminate].
Qed.

Lemma yields_app l1 l2 : yields (l1 ++ l2) = (yields l1 + yields l2)%nat.
Proof. unfold yields. rewrite omap_app, length_app. reflexivity. Qed.

Lemma sgl_reads_app l1 l2 : sgl_reads (l1 ++ l2) = sgl_reads l1 ++ sgl_reads l2.
Proof. apply omap_app. Qed.

(** The events of the final flush and drain, after the events [pre]. *)
Lemma final_flush_Ok nb w err (r : list byte * option error) w' :
  (zw_flush E ;; d' <- sgl_Read E nb ;; ret (d'.1, err)) w = Ok r w' ->
  log w' = log w ++ [EvFlush; EvSglRead (length r.1)] /\
  CompressedSize_of E w' = CompressedSize_of E w /\ r.2 = err.
Proof.
  intros H. apply bind_Ok in H as ([] & w1 & Hf & H).
  apply bind_Ok in H as (d' & w2 & Hd & H). injection H as <- <-.
  apply zw_flush_Ok in Hf as (Hl1 & Hc1 & _).
  apply sgl_Read_Ok in Hd as (Hl2 & Hc2 & _).
  simpl. rewrite Hl2, Hl1, <- app_assoc. repeat split. congruence.
Qed.

Lemma stream_reads_app l1 l2 :
  stream_reads (l1 ++ l2) = (stream_reads l1 + stream_reads l2)%nat.
Proof. unfold stream_reads. rewrite omap_app, length_app. reflexivity. Qed.

Lemma lz4_re_spec fuel nb last : forall retry w out err w',
  lz4_re E fuel nb last retry w = Ok (out, err) w' ->
  CompressedSize_of E w' = CompressedSize_of E w /\
  exists evs, log w' = log w ++ evs /\ (yields evs <= retry)%nat /\
    stream_reads evs = S (yields evs) /\
    (length (sgl_reads evs) <= stream_reads evs + 1)%nat /\
    (out = [] ->
     (exists pre, evs = pre ++ [EvSglRead 0%nat; EvFlush; EvSglRead 0%nat]) /\
     Forall (fun n => n = 0%nat) (sgl_reads evs)) /\
    (last = true -> yields evs = 0%nat /\ (1 <= flushes evs)%nat).
Proof.
  induction retry as [|retry IH]; intros w out err w' H; simpl in H.
  all: apply bind_Ok in H as ([] & w0 & HE & H); injection HE as <-;
    apply bind_Ok in H as (r & w1 & HR & H);
    apply bind_Ok in H as ([] & w2 & HW & H);
    apply bind_Ok in H as (s & w2' & HG & H); injection HG as <- <-;
    apply bind_Ok in H as ([] & w3 & HF & H);
    apply bind_Ok in H as (d & w4 & HD & H);
    apply Read_Ok_same in HR as (Hl1 & Hc1); simpl in Hl1;
    change (CompressedSize_of E (set_log (log w ++ [EvStreamRead]) w))
      with (CompressedSize_of E w) in Hc1;
    apply zw_write_Ok in HW as (Hl2 & Hc2 & _);
    apply sgl_Read_Ok in HD as (Hl4 & Hc4 & _);
    remember (last || (so_ins (s_sendoff (strm w2)) =? inEOB E) || bool_decide (r.2 <> None))
      as fl eqn:Hfl;
    assert (Hlast : last = true -> fl = true) by (intros ->; subst fl; reflexivity);
    assert (Hl3 : log w3 = log w2 ++ (if fl then [EvFlush] else []) /\
                  CompressedSize_of E w3 = CompressedSize_of E w2)
      by (destruct fl; [apply zw_flush_Ok in HF as (? & ? & _); auto
                       | injection HF as <-; rewrite app_nil_r; auto]);
    destruct Hl3 as (Hl3 & Hc3);
    destruct (length d.1 =? 0)%nat eqn:Hn.
  - (* no retry left, the drain gave nothing: final flush *)
    apply Nat.eqb_eq in Hn. rewrite Hn in Hl4.
    apply final_flush_Ok in H as (Hl5 & Hc5 & _). simpl in Hl5.
    split; [congruence|].
    exists ([EvStreamRead] ++ (if fl then [EvFlush] else []) ++
            [EvSglRead 0%nat; EvFlush; EvSglRead (length out)]).
    split; [rewrite Hl5, Hl4, Hl3, Hl2, Hl1, <- !app_assoc; reflexivity|].
    split; [unfold yields; destruct fl; simpl; lia|].
    split; [unfold stream_reads, yields; destruct fl; reflexivity|].
    split; [unfold stream_reads; destruct fl; simpl; lia|]. split.
    + intros ->. simpl. split; [eexists (_ :: _); reflexivity|].
      destruct fl; simpl; repeat constructor.
    + intros Hlt. rewrite (Hlast Hlt). simpl. unfold yields, flushes. simpl. lia.
  - (* the drain gave bytes *)
    injection H as <- <- <-. apply Nat.eqb_neq in Hn.
    split; [congruence|].
    exists ([EvStreamRead] ++ (if fl then [EvFlush] else []) ++ [EvSglRead (length d.1)]).
    split; [rewrite Hl4, Hl3, Hl2, Hl1, <- !app_assoc; reflexivity|].
    split; [unfold yields; destruct fl; simpl; lia|].
    split; [unfold stream_reads, yields; destruct fl; reflexivity|].
    split; [unfold stream_reads; destruct fl; simpl; lia|]. split.
    + intros Hd. rewrite Hd in Hn. simpl in Hn. lia.
    + intros Hlt. rewrite (Hlast Hlt). unfold yields, flushes. simpl. lia.
  - apply Nat.eqb_eq in Hn. rewrite Hn in Hl4.
    destruct fl.
    + (* flushed: no retry, final flush *)
      apply final_flush_Ok in H as (Hl5 & Hc5 & _). simpl in Hl5.
      split; [congruence|].
      exists ([EvStreamRead; EvFlush] ++ [EvSglRead 0%nat; EvFlush; EvSglRead (length out)]).
      split; [rewrite Hl5, Hl4, Hl3, Hl2, Hl1, <- !app_assoc; reflexivity|].
      split; [unfold yields; simpl; lia|].
      split; [reflexivity|].
      split; [unfold stream_reads; simpl; lia|]. split.
      * intros ->. simpl.
        split; [exists [EvStreamRead; EvFlush]; reflexivity | repeat constructor].
      * intros _. unfold yields, flushes. simpl. lia.
    + (* retry: yield and read again *)
      apply bind_Ok in H as ([] & w5 & HY & H). injection HY as <-.
      apply IH in H as (Hc6 & evs & Hl6 & Hy & Hrd & Hdr & Hdry & Hlst).
      simpl in Hl6, Hc6.
      split; [unfold CompressedSize_of in *; simpl in *; congruence|].
      exists ([EvStreamRead; EvSglRead 0%nat; EvGosched] ++ evs).
      split; [rewrite Hl6, Hl4, Hl3, Hl2, Hl1, <- !app_assoc; reflexivity|].
      split; [rewrite yields_app; unfold yields at 1; simpl; lia|].
      split; [rewrite stream_reads_app, yields_app, Hrd; reflexivity|].
      split; [rewrite sgl_reads_app, length_app, stream_reads_app;
              unfold stream_reads at 1; simpl; lia|].
      split.
      * intros Ho. destruct (Hdry Ho) as ((pre & ->) & Hall).
        split; [exists ([EvStreamRead; EvSglRead 0%nat; EvGosched] ++ pre);
                rewrite <- app_assoc; reflexivity|].
        rewrite sgl_reads_app. simpl. constructor; [reflexivity | exact Hall].
      * intros Hlt. specialize (Hlast Hlt). discriminate.
  - injection H as <- <- <-. apply Nat.eqb_neq in Hn.
    split; [congruence|].
    exists ([EvStreamRead] ++ (if fl then [EvFlush] else []) ++ [EvSglRead (length d.1)]).
    split; [rewrite Hl4, Hl3, Hl2, Hl1, <- !app_assoc; reflexivity|].
    split; [unfold yields; destruct fl; simpl; lia|].
    split; [unfold stream_reads, yields; destruct fl; reflexivity|].
    split; [unfold stream_reads; destruct fl; simpl; lia|]. split.
    + intros Hd. rewrite Hd in Hn. simpl in Hn. lia.
    + intros Hlt. rewrite (Hlast Hlt). unfold yields, flushes. simpl. lia.
Qed.

Lemma lz4_ex_Ok last (r : list byte * option error) w out err w' :
  lz4_ex E last r w = Ok (out, err) w' ->
  out = r.1 /\ err = (if last && bool_decide (r.2 = None) then Some EOF else r.2) /\
  log w' = log w /\
  CompressedSize_of E w' = add64 (CompressedSize_of E w) (Z.of_nat (length r.1)).
Proof.
  unfold lz4_ex. run.
  destruct (length (lz_sgl (lz4s (strm w))) =? 0)%nat; simpl;
    intros [= <- <- <-]; repeat split.
Qed.

(** C7 (as amended): a call of [lz4Stream.Read] adds the number of bytes it
    returns to [stats.CompressedSize], once. It calls [Stream.Read] at most
    65 times: every call after the first is a retry, there are as many
    retries as yields and at most 64 of them, and the SGL is drained at most
    once more than [Stream.Read] is called. Given a buffer that is not empty,
    it returns 0 bytes and no error only when every drain of the SGL gave 0
    bytes and the last drains are one before and one after a final flush.
    When the object in flight at the call is the last-marker, a flush is
    made, [Stream.Read] is called at most once and there is no retry and no
    yield. *)
Theorem lz4Read_spec (fuel nb : nat) (w w' : World E)
  (out : list byte) (err : option error) :
  lz4Read E fuel nb w = Ok (out, err) w' ->
  CompressedSize_of E w' = add64 (CompressedSize_of E w) (Z.of_nat (length out)) /\
  exists evs, log w' = log w ++ evs /\
    (yields evs <= 64)%nat /\
    (yields evs <= stream_reads evs <= S (yields evs))%nat /\
    (length (sgl_reads evs) <= stream_reads evs + 1)%nat /\
    ((0 < nb)%nat -> out = [] -> err = None ->
     drained_dry evs /\ stream_reads evs = S (yields evs)) /\
    (IsLast E (so_obj (s_sendoff (strm w))) = true ->
     yields evs = 0%nat /\ (1 <= flushes evs)%nat /\ (stream_reads evs <= 1)%nat).
Proof.
  unfold lz4Read. intros H.
  apply bind_Ok in H as (s & w0 & HG & H). injection HG as <- <-.
  apply bind_Ok in H as (r & w1 & HR & H).
  apply lz4_ex_Ok in H as (-> & -> & Hl & Hc).
  destruct (0 <? length (lz_sgl (lz4s (strm w))))%nat eqn:Hsgl.
  - (* the SGL holds bytes: flush and drain *)
    apply bind_Ok in HR as ([] & w2 & HF & HR).
    apply bind_Ok in HR as (d & w3 & HD & HR). injection HR as <- <-.
    apply zw_flush_Ok in HF as (Hl2 & Hc2 & flushed & Hsg).
    apply sgl_Read_Ok in HD as (Hl3 & Hc3 & Hne).
    simpl in *. split; [congruence|].
    exists [EvFlush; EvSglRead (length d.1)].
    split; [rewrite Hl, Hl3, Hl2, <- app_assoc; reflexivity|].
    split; [unfold yields; simpl; lia|].
    split; [unfold yields, stream_reads; simpl; lia|].
    split; [unfold stream_reads; simpl; lia|]. split.
    + intros Hnb Hd _. exfalso. apply Hne; [|exact Hnb|exact Hd].
      rewrite Hsg. apply Nat.ltb_lt in Hsgl.
      destruct (lz_sgl (lz4s (strm w))); [simpl in Hsgl; lia | discriminate].
    + intros _. unfold yields, flushes, stream_reads. simpl. lia.
  - (* the SGL is empty: read, compress, drain *)
    destruct r as [rout rerr].
    apply lz4_re_spec in HR as (Hc1 & evs & Hl1 & Hy & Hrd & Hdr & Hdry & Hlast).
    simpl in *. split; [congruence|].
    exists evs. split; [congruence|]. split; [exact Hy|].
    split; [lia|]. split; [exact Hdr|]. split.
    + intros _ Ho _. destruct (Hdry Ho) as (Hpre & Hall).
      split; [|exact Hrd]. repeat split; assumption.
    + intros Hlt. destruct (Hlast Hlt) as (H0 & Hf). lia.
Qed.

End Proofs.

(** * Examples *)



Lemma terminate_at_most_once_witness :
  closed (cmplCh (strm exIdle)) = false /\
  exists w', terminate exE exIdle = Ok tt w' /\
    terminated (strm w') = true /\ stopCh (strm w') = true /\
    buf (cmplCh (strm w')) = [exMarker] /\
    terminate exE w' = Panic w'.
Proof.
  split; [reflexivity|].
  pose proof (terminate_at_most_once exE exIdle eq_refl) as H. simpl in H.
  destruct H as (w' & H1 & H2 & H3 & H4 & _ & _ & _ & _ & H5).
  exists w'. rewrite H4. auto.
Defined.

(** C2, as stated, fails: on the idle stream the first [terminate] returns
    and the second one panics. *)
Lemma terminate_idempotent_counterexample : ~ terminate_idempotent exE exIdle.
Proof.
  intros H. destruct (H _ eq_refl) as (w2 & H2). vm_compute in H2. discriminate H2.
Qed.

Lemma sendData_short_read_witness :
  exists w1,
    Reader (so_obj (s_sendoff (strm exShort))) = Some 1%nat /\
    reader_Read exE 1 8 exShort = Ok ([x61; x62; x63], Some EOF) w1 /\
    add64 (so_off (s_sendoff (strm exShort))) (Z.of_nat (length [x61; x62; x63]))
      < Size (ObjAttrs (Hdr (so_obj (s_sendoff (strm exShort))))) /\
    exists w', sendData exE 8 exShort = Ok ([x61; x62; x63], Some (ErrShortRead 3 10)) w' /\
      buf (cmplCh (strm w')) = [] /\
      forall err, exists w'', errCmpl exE err w' = Ok tt w'' /\
        buf (cmplCh (strm w'')) =
          [{| c_obj := exampleObj 10 (Some 1%nat) None None; c_err := err |}].
Proof.
  eexists. split; [reflexivity|]. split; [vm_compute; reflexivity|].
  split; [vm_compute; reflexivity|].
  destruct (sendData_short_read exE 8 1 [x61; x62; x63] exShort _
              eq_refl ltac:(vm_compute; reflexivity) ltac:(vm_compute; reflexivity))
    as (w' & H1 & H2 & H3 & _ & _ & H4).
  exists w'. split; [exact H1|]. split; [rewrite H2; reflexivity|].
  intros err. destruct (H4 err) as (w'' & H5 & H6).
  - unfold inSend. rewrite H3. reflexivity.
  - reflexivity.
  - exists w''. split; [exact H5|]. rewrite H6. reflexivity.
Defined.

(** C3, as stated, fails: on a short read [sendData] returns the error and
    SCQ stays empty. *)
Lemma short_read_counterexample : ~ short_read_is_completed exE 8 exShort.
Proof.
  intros H. specialize (H [x61; x62; x63] 3 10 _ eq_refl).
  vm_compute in H. inversion H.
Qed.

Lemma eoObj_posts_and_counts_witness :
  closed (cmplCh (strm exAtEnd)) = false /\
  int64_range (stats_Size (stats (strm exAtEnd))) /\
  int64_range (stats_Num (stats (strm exAtEnd))) /\
  (exists w', eoObj exE None exAtEnd = Ok tt w' /\
     buf (cmplCh (strm w')) =
       [{| c_obj := exampleObj 3 (Some 1%nat) None None; c_err := None |}] /\
     stats_Size (stats (strm w')) = 3 /\ stats_Num (stats (strm w')) = 1) /\
  (exists w', Reads exE exSend w' /\
     stats_Size (stats (strm w')) = 3 /\
     exists l, buf (cmplCh (strm w')) = map (cmpl_of exE) l /\
               stats_Size (stats (strm w')) = int64_wrap (0 + payload_sum exE l)).
Proof.
  assert (Hr : int64_range 0) by (unfold int64_range; simpl; lia).
  split; [reflexivity|]. split; [exact Hr|]. split; [exact Hr|]. split.
  - destruct (eoObj_posts_and_counts exE None exAtEnd eq_refl Hr Hr)
      as ((w' & H1 & H2 & _) & _).
    exists w'. split; [exact H1|].
    destruct H2 as (Hq & _ & _ & _ & Hs & _).
    rewrite Hq. split; [reflexivity|].
    vm_compute in Hs. destruct Hs as (HS & HN & _). split; [exact HS | exact HN].
  - eexists. split.
    + eapply (Reads_step exE 0 8); [vm_compute; reflexivity|].
      eapply (Reads_step exE 0 8); [vm_compute; reflexivity|].
      apply Reads_nil.
    + split; [reflexivity|].
      match goal with |- exists l, buf (cmplCh (strm ?W)) = _ /\ _ =>
        destruct (proj2 (eoObj_posts_and_counts exE None exSend eq_refl Hr Hr) W)
          as (l & Hb & HS & _)
      end.
      * eapply (Reads_step exE 0 8); [vm_compute; reflexivity|].
        eapply (Reads_step exE 0 8); [vm_compute; reflexivity|].
        apply Reads_nil.
      * exists l. split; [exact Hb | exact HS].
Defined.

Lemma cmplLoop_ends_at_last_witness :
  Forall (fun c => not_last exE c = true) [exCmpl1] /\
  buf (cmplCh (strm exSCQ)) = [exCmpl1] ++ [exMarker; exCmpl2] /\
  IsLast exE (c_obj exMarker) = true /\
  exists w', cmplLoop exE exSCQ = Ok tt w' /\
    buf (cmplCh (strm w')) = [exCmpl2] /\
    freed (log w') = [c_obj exCmpl1].
Proof.
  assert (H1 : Forall (fun c => not_last exE c = true) [exCmpl1])
    by (repeat constructor).
  split; [exact H1|]. split; [reflexivity|]. split; [reflexivity|].
  pose proof (cmplLoop_ends_at_last exE [exCmpl1] [exMarker; exCmpl2] [exCmpl2] exSCQ
                H1 eq_refl (or_introl (ex_intro _ exMarker (conj eq_refl eq_refl)))) as H.
  destruct (cmplLoop exE exSCQ) as [[] w'|w'|w'|].
  - exists w'. destruct H as (_ & Hb & evs & Hl & Hf).
    split; [reflexivity|]. split; [exact Hb|].
    rewrite Hl. simpl. exact Hf.
  - contradiction.
  - discriminate H.
  - contradiction.
Defined.

Lemma idleTick_and_tick_in_Read_witness :
  closed (workCh (strm exIdle)) = false /\
  between_objects exE (strm exTick) /\
  buf (workCh (strm exTick)) = [ObjOfSize (tickMarker exE)] /\
  IsIdleTick exE (ObjOfSize (tickMarker exE)) = true /\
  takes_work exE exTick /\
  (exists w', idleTick exE exIdle = Ok tt w' /\
     buf (workCh (strm w')) = [ObjOfSize (tickMarker exE)] /\
     sessST (strm w') = inactive exE) /\
  (exists w', Read exE 0 8 exTick = Ok ([], None) w' /\
     buf (workCh (strm w')) = [] /\ sessST (strm w') = inactive exE).
Proof.
  assert (Hb : between_objects exE (strm exTick))
    by (unfold between_objects; simpl; lia).
  assert (Hw : takes_work exE exTick) by (left; reflexivity).
  split; [reflexivity|]. split; [exact Hb|]. split; [reflexivity|].
  split; [reflexivity|]. split; [exact Hw|].
  destruct (idleTick_and_tick_in_Read exE 0 8 (ObjOfSize (tickMarker exE)) [] exIdle exTick
              eq_refl Hb eq_refl eq_refl Hw) as (H1 & _ & H2).
  split; eexists; (split; [eassumption|]); split; reflexivity.
Defined.

Lemma lz4Read_spec_witness :
  (exists w', lz4Read exE 0 8 exLastLz = Ok ([x07], Some EOF) w' /\
     IsLast exE (so_obj (s_sendoff (strm exLastLz))) = true /\
     CompressedSize_of exE w' = 1 /\
     exists evs, log w' = log exLastLz ++ evs /\ yields evs = 0%nat /\
       (1 <= flushes evs)%nat /\ (stream_reads evs <= 1)%nat) /\
  (exists w', lz4Read exE 0 8 exDryLz = Ok ([], None) w' /\
     exists evs, log w' = log exDryLz ++ evs /\ drained_dry evs /\
       yields evs = 64%nat /\ stream_reads evs = 65%nat /\
       length (sgl_reads evs) = 66%nat).
Proof.
  split.
  - eexists. split; [vm_compute; reflexivity|]. split; [reflexivity|].
    match goal with |- CompressedSize_of _ ?W = _ /\ _ =>
      destruct (lz4Read_spec exE 0 8 exLastLz W [x07] (Some EOF)
                  ltac:(vm_compute; reflexivity))
        as (Hc & evs & Hl & _ & _ & _ & _ & Hlast)
    end.
    split; [rewrite Hc; reflexivity|].
    exists evs. split; [exact Hl|]. apply Hlast. reflexivity.
  - eexists. split; [vm_compute; reflexivity|].
    match goal with |- exists evs, log ?W = _ /\ _ =>
      destruct (lz4Read_spec exE 0 8 exDryLz W [] None ltac:(vm_compute; reflexivity))
        as (_ & evs & Hl & _ & _ & _ & Hdry & _)
    end.
    destruct Hdry as (Hd & Hr); [lia | reflexivity | reflexivity |].
    exists evs. split; [exact Hl|]. split; [exact Hd|].
    change (log exDryLz ++ evs) with evs in Hl. subst evs.
    split; [vm_compute; reflexivity|]. split; vm_compute; reflexivity.
Defined.

(** C7, as stated, fails: given an empty buffer while the SGL holds bytes,
    [lz4Stream.Read] returns 0 bytes and no error after one flush and one
    drain. *)
Lemma zero_bytes_counterexample : ~ zero_bytes_only_when_dry exE 0 0 exSglLz.
Proof.
  intros H. destruct (H _ eq_refl) as (evs & Hl & (pre & Hp) & _).
  vm_compute in Hl. subst evs.
  apply (f_equal (@length event)) in Hp. rewrite length_app in Hp. simpl in Hp. lia.
Qed.

Lemma Read_closed_or_stopped_witness :
  between_objects exE (strm exClosedSQ) /\
  buf (workCh (strm exClosedSQ)) = [] /\
  Read exE 0 8 exClosedSQ =
    Ok ([], Some ErrClosedPriorToStopping) (upd_strm (set_time_inSend true) exClosedSQ) /\
  Read exE 0 8 (upd_strm (set_stopCh true) exIdle) =
    Ok ([], Some EOF) (upd_strm (set_time_inSend true) (upd_strm (set_stopCh true) exIdle)).
Proof.
  assert (Hb : between_objects exE (strm exClosedSQ))
    by (unfold between_objects; simpl; lia).
  split; [exact Hb|]. split; [reflexivity|].
  split.
  - exact (proj1 (Read_closed_or_stopped exE 0 8 exClosedSQ Hb eq_refl)).
  - exact (proj1 (Read_closed_or_stopped exE 0 8 (upd_strm (set_stopCh true) exIdle)
                    Hb eq_refl)).
Defined.

Lemma doCmpl_callback_choice_witness :
  exists w', doCmpl exE (c_obj exCmpl2) (c_err exCmpl2) exIdle = Ok tt w' /\
    sent_calls (log w') =
      [(PerObject, 4%nat, Hdr (c_obj exCmpl2), Some 2%nat, None, Some (ErrExternal 1))].
Proof.
  eexists. split; [vm_compute; reflexivity|].
  match goal with |- sent_calls (log ?W) = _ =>
    destruct (doCmpl_callback_choice exE (c_obj exCmpl2) (c_err exCmpl2) exIdle W
                ltac:(vm_compute; reflexivity)) as (evs & Hl & Hc & _)
  end.
  rewrite Hl. simpl. apply (Hc 4%nat 9%nat); reflexivity.
Defined.

Lemma last_marker_never_completed_witness :
  exists w', reached exE (run_path exE ByCmplLoop exSCQ) = Some w' /\
    Processed exE [exCmpl1] exSCQ w' /\
    (forall c, c ∈ [exCmpl1] -> c ∈ [exCmpl1; exMarker; exCmpl2] /\
                               IsLast exE (c_obj c) = false).
Proof.
  eexists. split; [vm_compute; reflexivity|].
  match goal with |- Processed _ _ _ ?W /\ _ =>
    destruct (last_marker_never_completed exE ByCmplLoop exSCQ W
                ltac:(vm_compute; reflexivity)) as (HP & Hs & _)
  end.
  split; [exact HP | exact Hs].
Defined.

(** Two completions of objects sharing one counter: the callback is invoked
    once, by the completion that takes the counter to zero, with that
    completion's error; both readers are closed. *)
Example shared_prc_fires_once :
  exists w', cmplLoop exE exShared = Ok tt w' /\
    sent_calls (log w') =
      [(StreamLevel, 9%nat, Hdr (exampleObj 3 None None None), Some 2%nat, None,
        Some (ErrExternal 7))] /\
    closed_readers (log w') = [1%nat; 2%nat] /\
    heap w' !! 5%nat = Some 0.
Proof. eexists. split; [vm_compute; reflexivity|]. repeat split. Qed.

(** In a debug build a completion that takes the counter below zero fails
    the assertion of [doCmpl]; without it, it is completed with no callback. *)
Example doCmpl_below_zero :
  (exists w', doCmpl (exampleEnv true) (exampleObj 3 (Some 1%nat) None (Some 5%nat)) None
                (exampleWorld true (exampleStream true [] []) ∅) = Panic w') /\
  (exists w', doCmpl exE (exampleObj 3 (Some 1%nat) None (Some 5%nat)) None exIdle = Ok tt w' /\
     sent_calls (log w') = [] /\ closed_readers (log w') = [1%nat]).
Proof.
  split.
  - eexists. vm_compute. reflexivity.
  - eexists. split; [vm_compute; reflexivity|]. split; reflexivity.
Qed.

(** A whole object through [Read]: the header, then the data with the end
    of the object. *)
Example Read_object :
  exists w1 w2,
    Read exE 0 8 exSend = Ok ([x48; x44; x01], None) w1 /\
    so_ins (s_sendoff (strm w1)) = inData exE /\
    Read exE 0 8 w1 = Ok ([x61; x62; x63], None) w2 /\
    so_ins (s_sendoff (strm w2)) = inEOB exE /\
    buf (cmplCh (strm w2)) =
      [{| c_obj := exampleObj 3 (Some 1%nat) None None; c_err := None |}] /\
    stats_Size (stats (strm w2)) = 3 /\ stats_Offset (stats (strm w2)) = 6.
Proof.
  eexists. eexists. split; [vm_compute; reflexivity|]. split; [reflexivity|].
  split; [vm_compute; reflexivity|]. repeat split.
Qed.

(** * Further properties of the stream *)

Section Further.
Context (E : Env).

(** ** inSend and errCmpl *)

Lemma inSend_false_iff (s : Stream E) :
  inSend E s = false <->
  inEOB E <= so_ins (s_sendoff s) /\ so_ins (s_sendoff s) < inHdr E.
Proof.
  unfold inSend. rewrite orb_false_iff, Z.leb_gt, Z.ltb_ge. tauto.
Qed.

Lemma inSend_true (s : Stream E) : inHdr E <= inEOB E -> inSend E s = true.
Proof.
  intros H. destruct (inSend E s) eqn:Hs; [reflexivity|].
  apply inSend_false_iff in Hs. lia.
Qed.

Lemma errCmpl_Ok (err : option error) (w : World E) :
  inSend E (strm w) = true ->
  closed (cmplCh (strm w)) = false ->
  errCmpl E err w =
    Ok tt (upd_strm
             (set_cmplCh
                {| buf := buf (cmplCh (strm w)) ++
                          [{| c_obj := so_obj (s_sendoff (strm w)); c_err := err |}];
                   closed := false |}) w).
Proof.
  intros Hs Ho. unfold errCmpl, send_cmpl, chan_send. run. rewrite Hs, Ho. reflexivity.
Qed.

(** X1: [inSend] is false only for [inEOB <= ins < inHdr]; so when the
    in-send states are numbered with [inHdr <= inEOB] it is true in every
    state, and [errCmpl] (SCQ open) always posts one completion, of whatever
    [sendoff.obj] holds, with the error it is given, and changes nothing
    else. *)
Theorem errCmpl_always_posts (err : option error) (w : World E) :
  inHdr E <= inEOB E ->
  closed (cmplCh (strm w)) = false ->
  (forall s : Stream E,
     inSend E s = false <->
     inEOB E <= so_ins (s_sendoff s) /\ so_ins (s_sendoff s) < inHdr E) /\
  inSend E (strm w) = true /\
  errCmpl E err w =
    Ok tt (upd_strm
             (set_cmplCh
                {| buf := buf (cmplCh (strm w)) ++
                          [{| c_obj := so_obj (s_sendoff (strm w)); c_err := err |}];
                   closed := false |}) w).
Proof.
  intros Hc Ho. pose proof (inSend_true (strm w) Hc) as Hs.
  split; [apply inSend_false_iff|]. split; [exact Hs|].
  apply errCmpl_Ok; assumption.
Qed.

(** X2: with [inHdr <= inEOB], an [errCmpl] that follows [eoObj] posts a
    second completion: SCQ receives the completion of the object, then one
    of the zero Obj that [eoObj] left in [sendoff]. *)
Theorem errCmpl_after_eoObj (e err : option error) (w : World E) :
  inHdr E <= inEOB E ->
  closed (cmplCh (strm w)) = false ->
  exists w1 w2,
    eoObj E e w = Ok tt w1 /\ errCmpl E err w1 = Ok tt w2 /\
    buf (cmplCh (strm w2)) =
      buf (cmplCh (strm w)) ++
      [{| c_obj := so_obj (s_sendoff (strm w));
          c_err := eoObj_err E (s_sendoff (strm w)) e |};
       {| c_obj := Obj0; c_err := err |}].
Proof.
  intros Hc Ho.
  destruct (eoObj_Ok E e w Ho) as (w1 & He & Hq & Hso & _).
  assert (Ho1 : closed (cmplCh (strm w1)) = false) by (rewrite Hq; reflexivity).
  pose proof (errCmpl_Ok err w1 (inSend_true (strm w1) Hc) Ho1) as Hr.
  eexists. eexists. split; [exact He|]. split; [exact Hr|].
  simpl. rewrite Hq, Hso. simpl. rewrite <- app_assoc. reflexivity.
Qed.

(** ** sendHdr *)

Lemma int64_small z : 0 <= z < 2 ^ 63 -> int64_wrap z = z.
Proof. intros H. apply int64_wrap_range. unfold int64_range. lia. Qed.

Lemma sendHdr_partial (nb : nat) (w : World E) :
  0 <= so_off (s_sendoff (strm w)) ->
  so_off (s_sendoff (strm w)) + Z.of_nat nb < Z.of_nat (length (header (strm w))) ->
  Z.of_nat (length (header (strm w))) < 2 ^ 63 ->
  sendHdr E nb w =
    Ok (take nb (drop (Z.to_nat (so_off (s_sendoff (strm w)))) (header (strm w))), None)
       (upd_strm (set_so_off E (so_off (s_sendoff (strm w)) + Z.of_nat nb)) w) /\
  length (take nb (drop (Z.to_nat (so_off (s_sendoff (strm w)))) (header (strm w)))) = nb.
Proof.
  intros H0 Hlt Hh.
  assert (Hlen : length (take nb (drop (Z.to_nat (so_off (s_sendoff (strm w))))
                                    (header (strm w)))) = nb)
    by (rewrite length_take, length_drop; lia).
  split; [|exact Hlen].
  unfold sendHdr. run. rewrite Hlen.
  replace (so_off (s_sendoff (strm w)) <? 0) with false by (symmetry; apply Z.ltb_ge; lia).
  replace (Z.of_nat (length (header (strm w))) <? so_off (s_sendoff (strm w))) with false
    by (symmetry; apply Z.ltb_ge; lia).
  simpl. unfold add64. rewrite int64_small by lia.
  replace (so_off (s_sendoff (strm w)) + Z.of_nat nb <? Z.of_nat (length (header (strm w))))
    with true by (symmetry; apply Z.ltb_lt; lia).
  reflexivity.
Qed.

Lemma sendHdr_complete (nb : nat) (w : World E) :
  0 <= so_off (s_sendoff (strm w)) <= Z.of_nat (length (header (strm w))) ->
  Z.of_nat (length (header (strm w))) - so_off (s_sendoff (strm w)) <= Z.of_nat nb ->
  Z.of_nat (length (header (strm w))) < 2 ^ 63 ->
  exists w',
    sendHdr E nb w =
      Ok (drop (Z.to_nat (so_off (s_sendoff (strm w)))) (header (strm w)),
          if IsLast E (so_obj (s_sendoff (strm w))) then Some EOF else None) w' /\
    s_sendoff (strm w') =
      {| so_obj := so_obj (s_sendoff (strm w)); so_off := 0;
         so_ins := ins_after_hdr E (strm w) (so_obj (s_sendoff (strm w))) |} /\
    stats_Offset (stats (strm w')) =
      add64 (stats_Offset (stats (strm w))) (Z.of_nat (length (header (strm w)))) /\
    lastCh (strm w') = lastCh (strm w) || IsLast E (so_obj (s_sendoff (strm w))) /\
    header (strm w') = header (strm w) /\
    workCh (strm w') = workCh (strm w) /\ cmplCh (strm w') = cmplCh (strm w) /\
    stats_Size (stats (strm w')) = stats_Size (stats (strm w)) /\
    rdrs w' = rdrs w /\ log w' = log w.
Proof.
  intros H0 Hge Hh.
  assert (Hlen : length (drop (Z.to_nat (so_off (s_sendoff (strm w)))) (header (strm w)))
                 = Z.to_nat (Z.of_nat (length (header (strm w)))
                             - so_off (s_sendoff (strm w))))
    by (rewrite length_drop; lia).
  assert (Htake : take nb (drop (Z.to_nat (so_off (s_sendoff (strm w)))) (header (strm w)))
                  = drop (Z.to_nat (so_off (s_sendoff (strm w)))) (header (strm w)))
    by (apply take_ge; lia).
  unfold sendHdr, debug_Assert, ins_after_hdr. run. rewrite Htake, Hlen.
  replace (so_off (s_sendoff (strm w)) <? 0) with false by (symmetry; apply Z.ltb_ge; lia).
  replace (Z.of_nat (length (header (strm w))) <? so_off (s_sendoff (strm w))) with false
    by (symmetry; apply Z.ltb_ge; lia).
  simpl. unfold add64 at 1 2 3.
  replace (so_off (s_sendoff (strm w)) +
           Z.of_nat (Z.to_nat (Z.of_nat (length (header (strm w)))
                               - so_off (s_sendoff (strm w)))))
    with (Z.of_nat (length (header (strm w)))) by lia.
  rewrite int64_small by lia.
  rewrite Z.ltb_irrefl, Z.eqb_refl, andb_false_r. simpl.
  destruct (IsLast E (so_obj (s_sendoff (strm w)))); simpl;
    eexists; (split; [reflexivity|]); simpl; rewrite ?orb_true_r, ?orb_false_r;
    repeat split.
Qed.

Lemma sendHdr_calls_one nb :
  sendHdr_calls E [nb] = (x <- sendHdr E nb ;; ret x).
Proof. reflexivity. Qed.

Lemma sendHdr_calls_cons nb n0 rest :
  sendHdr_calls E (nb :: n0 :: rest) =
    (x <- sendHdr E nb ;; y <- sendHdr_calls E (n0 :: rest) ;; ret (x.1 ++ y.1, y.2)).
Proof. reflexivity. Qed.

(** X3: however a header is split over the buffers of successive calls of
    [sendHdr] (all but the last too small for what is left of it), its bytes
    from [sendoff.off] on are given whole, once and in order; the last call
    moves [sendoff] to the data (or PDU) state at offset 0, adds the header
    length to [stats.Offset], and gives [io.EOF] and closes [lastCh] exactly
    for the last-marker. *)
Theorem sendHdr_delivers_header (pre : list nat) (last : nat) : forall w : World E,
  0 <= so_off (s_sendoff (strm w)) ->
  so_off (s_sendoff (strm w)) + Z.of_nat (sum_nat pre)
    < Z.of_nat (length (header (strm w))) ->
  Z.of_nat (length (header (strm w))) - so_off (s_sendoff (strm w))
    <= Z.of_nat (sum_nat pre + last) ->
  Z.of_nat (length (header (strm w))) < 2 ^ 63 ->
  exists w',
    sendHdr_calls E (pre ++ [last]) w =
      Ok (drop (Z.to_nat (so_off (s_sendoff (strm w)))) (header (strm w)),
          if IsLast E (so_obj (s_sendoff (strm w))) then Some EOF else None) w' /\
    s_sendoff (strm w') =
      {| so_obj := so_obj (s_sendoff (strm w)); so_off := 0;
         so_ins := ins_after_hdr E (strm w) (so_obj (s_sendoff (strm w))) |} /\
    stats_Offset (stats (strm w')) =
      add64 (stats_Offset (stats (strm w))) (Z.of_nat (length (header (strm w)))) /\
    lastCh (strm w') = lastCh (strm w) || IsLast E (so_obj (s_sendoff (strm w))).
Proof.
  induction pre as [|nb pre IH]; intros w H0 Hlt Hge Hh.
  - change ([] ++ [last]) with [last]. rewrite sendHdr_calls_one.
    change (sum_nat []) with 0%nat in *.
    destruct (sendHdr_complete last w) as (w' & Hr & Hso & Hof & Hl & _);
      [lia | lia | exact Hh |].
    exists w'. unfold bind, ret. rewrite Hr. auto.
  - change ((nb :: pre) ++ [last]) with (nb :: (pre ++ [last])).
    change (sum_nat (nb :: pre)) with (nb + sum_nat pre)%nat in *.
    destruct (sendHdr_partial nb w) as (Hr & Hlen); [lia | lia | exact Hh |].
    destruct (pre ++ [last]) as [|n0 rest] eqn:Hrest;
      [destruct pre; discriminate|].
    rewrite sendHdr_calls_cons.
    unfold bind at 1. rewrite Hr.
    specialize (IH (upd_strm (set_so_off E (so_off (s_sendoff (strm w)) + Z.of_nat nb)) w)).
    change (so_off (s_sendoff (strm (upd_strm
              (set_so_off E (so_off (s_sendoff (strm w)) + Z.of_nat nb)) w))))
      with (so_off (s_sendoff (strm w)) + Z.of_nat nb) in IH.
    change (header (strm (upd_strm
              (set_so_off E (so_off (s_sendoff (strm w)) + Z.of_nat nb)) w)))
      with (header (strm w)) in IH.
    destruct IH as (w' & Hc & Hso & Hof & Hl); [lia | lia | lia | exact Hh |].
    exists w'. unfold bind, ret. rewrite Hc. cbn [fst snd].
    split; [|auto].
    f_equal. f_equal.
    replace (Z.to_nat (so_off (s_sendoff (strm w)) + Z.of_nat nb))
      with (Z.to_nat (so_off (s_sendoff (strm w))) + nb)%nat by lia.
    rewrite <- drop_drop. apply take_drop.
Qed.

(** X4: [sendHdr] panics exactly when [sendoff.off] lies outside the header
    (negative, or past its end: the slice [s.header[off:]] is out of range),
    and it then changes nothing; with the offset inside the header it
    returns, whatever the buffer, and its [debug.Assert] never fails. *)
Theorem sendHdr_panics_iff (nb : nat) (w : World E) :
  Z.of_nat (length (header (strm w))) < 2 ^ 63 ->
  (so_off (s_sendoff (strm w)) < 0 \/
   Z.of_nat (length (header (strm w))) < so_off (s_sendoff (strm w)) ->
   sendHdr E nb w = Panic w) /\
  (0 <= so_off (s_sendoff (strm w)) <= Z.of_nat (length (header (strm w))) ->
   exists r w', sendHdr E nb w = Ok r w').
Proof.
  intros Hh. split.
  - intros H. unfold sendHdr. run.
    replace ((so_off (s_sendoff (strm w)) <? 0)
             || (Z.of_nat (length (header (strm w))) <? so_off (s_sendoff (strm w))))
      with true; [reflexivity|].
    symmetry. apply orb_true_iff. rewrite !Z.ltb_lt. exact H.
  - intros H.
    destruct (Z.lt_ge_cases (so_off (s_sendoff (strm w)) + Z.of_nat nb)
                (Z.of_nat (length (header (strm w))))) as [Hlt | Hge].
    + destruct (sendHdr_partial nb w) as (Hr & _); [lia | exact Hlt | exact Hh |].
      eexists. eexists. exact Hr.
    + destruct (sendHdr_complete nb w) as (w' & Hr & _); [exact H | lia | exact Hh |].
      eexists. eexists. exact Hr.
Qed.

(** ** sendData *)

(** X5: when the Reader gives bytes without error and the offset stays below
    the declared size, [sendData] returns those bytes and no error, advances
    [sendoff.off] by their number, and does nothing else: no completion, no
    change of the stats. *)
Theorem sendData_continues (nb r : nat) (data : list byte) (w w1 : World E) :
  Reader (so_obj (s_sendoff (strm w))) = Some r ->
  reader_Read E r nb w = Ok (data, None) w1 ->
  add64 (so_off (s_sendoff (strm w))) (Z.of_nat (length data))
    < Size (ObjAttrs (Hdr (so_obj (s_sendoff (strm w))))) ->
  sendData E nb w =
    Ok (data, None)
       (upd_strm (set_so_off E (add64 (so_off (s_sendoff (strm w)))
                                      (Z.of_nat (length data)))) w1).
Proof.
  intros Hr Hread Hlt.
  pose proof (reader_Read_strm E _ _ _ _ _ Hread) as (Hs & _).
  unfold sendData. run. rewrite Hr, Hread. simpl. rewrite Hs.
  replace (Size (ObjAttrs (Hdr (so_obj (s_sendoff (strm w))))) <=?
           add64 (so_off (s_sendoff (strm w))) (Z.of_nat (length data)))
    with false by (symmetry; apply Z.leb_gt; exact Hlt).
  unfold upd_strm. simpl. rewrite Hs. reflexivity.
Qed.

Lemma eoObj_err_end (so : sendoff) :
  eoObj_err E so None = end_err E (so_obj so) (so_off so) /\
  (end_err E (so_obj so) (so_off so) = None -> final_size E so = so_off so).
Proof.
  unfold eoObj_err, end_err, final_size.
  destruct (IsUnsized E (so_obj so)); simpl.
  - rewrite Z.eqb_refl. auto.
  - destruct (so_off so =? Size (ObjAttrs (Hdr (so_obj so)))) eqn:Hv; split; auto.
    + intros _. apply Z.eqb_eq in Hv. auto.
    + discriminate.
Qed.

Lemma sendData_ends (nb r : nat) (data : list byte) (e : option error) (w w1 : World E) :
  Reader (so_obj (s_sendoff (strm w))) = Some r ->
  reader_Read E r nb w = Ok (data, e) w1 ->
  e = None \/ e = Some EOF ->
  Size (ObjAttrs (Hdr (so_obj (s_sendoff (strm w)))))
    <= add64 (so_off (s_sendoff (strm w))) (Z.of_nat (length data)) ->
  closed (cmplCh (strm w)) = false ->
  exists w',
    sendData E nb w = Ok (data, None) w' /\
    buf (cmplCh (strm w')) =
      buf (cmplCh (strm w)) ++
      [{| c_obj := so_obj (s_sendoff (strm w));
          c_err := end_err E (so_obj (s_sendoff (strm w)))
                     (add64 (so_off (s_sendoff (strm w))) (Z.of_nat (length data))) |}] /\
    s_sendoff (strm w') = {| so_obj := Obj0; so_off := 0; so_ins := inEOB E |} /\
    stats_Size (stats (strm w')) =
      match end_err E (so_obj (s_sendoff (strm w)))
              (add64 (so_off (s_sendoff (strm w))) (Z.of_nat (length data)))
      with
      | Some _ => stats_Size (stats (strm w))
      | None => add64 (stats_Size (stats (strm w)))
                  (add64 (so_off (s_sendoff (strm w))) (Z.of_nat (length data)))
      end.
Proof.
  intros Hr Hread He Hge Hc.
  pose proof (reader_Read_strm E _ _ _ _ _ Hread) as (Hs & _).
  set (off' := add64 (so_off (s_sendoff (strm w))) (Z.of_nat (length data))) in *.
  set (w2 := upd_strm
               (fun s => set_so_off E (add64 (so_off (s_sendoff s))
                                             (Z.of_nat (length data))) s) w1).
  assert (Hc2 : closed (cmplCh (strm w2)) = false) by (subst w2; simpl; rewrite Hs; exact Hc).
  destruct (eoObj_Ok E None w2 Hc2) as (w' & Heo & Hq & Hso & _ & _ & Hst & _).
  assert (Hsd : sendData E nb w = Ok (data, None) w').
  { unfold sendData. run. rewrite Hr, Hread. simpl. rewrite Hs. fold off'.
    destruct He as [-> | ->]; simpl.
    - replace (Size (ObjAttrs (Hdr (so_obj (s_sendoff (strm w))))) <=? off') with true
        by (symmetry; apply Z.leb_le; exact Hge).
      fold w2. rewrite Heo. reflexivity.
    - replace (off' <? Size (ObjAttrs (Hdr (so_obj (s_sendoff (strm w)))))) with false
        by (symmetry; apply Z.ltb_ge; exact Hge).
      fold w2. rewrite Heo. reflexivity. }
  exists w'. split; [exact Hsd|].
  assert (Hso2 : s_sendoff (strm w2) =
                 {| so_obj := so_obj (s_sendoff (strm w)); so_off := off';
                    so_ins := so_ins (s_sendoff (strm w)) |})
    by (subst w2 off'; simpl; rewrite Hs; reflexivity).
  assert (Hq2 : buf (cmplCh (strm w2)) = buf (cmplCh (strm w))
                /\ stats_Size (stats (strm w2)) = stats_Size (stats (strm w)))
    by (subst w2; simpl; rewrite Hs; auto).
  destruct Hq2 as (Hq2 & HS2).
  rewrite Hso2 in Hq, Hst.
  destruct (eoObj_err_end {| so_obj := so_obj (s_sendoff (strm w)); so_off := off';
                             so_ins := so_ins (s_sendoff (strm w)) |}) as (Hee & Hfs).
  cbn [so_obj so_off] in Hee, Hfs. rewrite Hee in Hq, Hst. rewrite Hq, Hq2. simpl.
  split; [reflexivity|]. split; [exact Hso|].
  destruct (end_err E (so_obj (s_sendoff (strm w))) off') as [x|].
  - destruct Hst as (HS & _). rewrite HS. exact HS2.
  - destruct Hst as (HS & _). rewrite HS, HS2, Hfs by reflexivity. reflexivity.
Qed.

(** X6: when the Reader gives bytes with no error or with [io.EOF] and the
    offset reaches the declared size, [sendData] returns the bytes and no
    error (the [io.EOF] is not passed on), posts one completion of the
    object and resets [sendoff]; the completion carries no error, and the
    offset is added to [stats.Size], when the offset equals the size (or the
    object is unsized); when the Reader gave more than the declared size the
    completion carries the offset error and [stats.Size] is unchanged. *)
Theorem sendData_completes (nb r : nat) (data : list byte) (e : option error)
  (w w1 : World E) :
  Reader (so_obj (s_sendoff (strm w))) = Some r ->
  reader_Read E r nb w = Ok (data, e) w1 ->
  e = None \/ e = Some EOF ->
  Size (ObjAttrs (Hdr (so_obj (s_sendoff (strm w)))))
    <= add64 (so_off (s_sendoff (strm w))) (Z.of_nat (length data)) ->
  closed (cmplCh (strm w)) = false ->
  exists w',
    sendData E nb w = Ok (data, None) w' /\
    buf (cmplCh (strm w')) =
      buf (cmplCh (strm w)) ++
      [{| c_obj := so_obj (s_sendoff (strm w));
          c_err := end_err E (so_obj (s_sendoff (strm w)))
                     (add64 (so_off (s_sendoff (strm w))) (Z.of_nat (length data))) |}] /\
    s_sendoff (strm w') = {| so_obj := Obj0; so_off := 0; so_ins := inEOB E |} /\
    stats_Size (stats (strm w')) =
      match end_err E (so_obj (s_sendoff (strm w)))
              (add64 (so_off (s_sendoff (strm w))) (Z.of_nat (length data)))
      with
      | Some _ => stats_Size (stats (strm w))
      | None => add64 (stats_Size (stats (strm w)))
                  (add64 (so_off (s_sendoff (strm w))) (Z.of_nat (length data)))
      end.
Proof. apply sendData_ends. Qed.

(** X7: an unsized object sent without PDUs ends with the first bytes its
    Reader gives: as soon as the offset is not below [SizeUnknown],
    [sendData] posts its completion, without error, and counts the bytes sent
    so far as its size, whatever the Reader still holds. *)
Theorem sendData_unsized_first_chunk (nb r : nat) (data : list byte) (w w1 : World E) :
  Reader (so_obj (s_sendoff (strm w))) = Some r ->
  reader_Read E r nb w = Ok (data, None) w1 ->
  IsUnsized E (so_obj (s_sendoff (strm w))) = true ->
  SizeUnknown E <= add64 (so_off (s_sendoff (strm w))) (Z.of_nat (length data)) ->
  closed (cmplCh (strm w)) = false ->
  exists w',
    sendData E nb w = Ok (data, None) w' /\
    buf (cmplCh (strm w')) =
      buf (cmplCh (strm w)) ++
      [{| c_obj := so_obj (s_sendoff (strm w)); c_err := None |}] /\
    s_sendoff (strm w') = {| so_obj := Obj0; so_off := 0; so_ins := inEOB E |} /\
    stats_Size (stats (strm w')) =
      add64 (stats_Size (stats (strm w)))
        (add64 (so_off (s_sendoff (strm w))) (Z.of_nat (length data))) /\
    rdrs w' = rdrs w1.
Proof.
  intros Hr Hread Hu Hge Hc.
  assert (Hsz : Size (ObjAttrs (Hdr (so_obj (s_sendoff (strm w))))) = SizeUnknown E)
    by (unfold IsUnsized, Hdr_IsUnsized in Hu; apply Z.eqb_eq in Hu; exact Hu).
  destruct (sendData_ends nb r data None w w1 Hr Hread (or_introl eq_refl))
    as (w' & Hsd & Hq & Hso & HS); [rewrite Hsz; exact Hge | exact Hc |].
  unfold end_err in Hq, HS. rewrite Hu in Hq, HS. simpl in Hq, HS.
  exists w'. repeat split; try assumption.
  (* the reader is left as its one call left it *)
  pose proof (reader_Read_strm E _ _ _ _ _ Hread) as (Hs & _).
  revert Hsd. unfold sendData. run. rewrite Hr, Hread. simpl. rewrite Hs.
  replace (Size (ObjAttrs (Hdr (so_obj (s_sendoff (strm w))))) <=?
           add64 (so_off (s_sendoff (strm w))) (Z.of_nat (length data)))
    with true by (symmetry; apply Z.leb_le; rewrite Hsz; exact Hge).
  match goal with |- context [eoObj E None ?w2] =>
    destruct (eoObj_Ok E None w2) as (wx & He & Hp); [simpl; rewrite Hs; exact Hc|];
    rewrite He
  end.
  intros [= <-]. destruct Hp as (_ & _ & _ & _ & _ & _ & _ & _ & _ & Hrd). exact Hrd.
Qed.

(** X8: when the Reader fails with an error other than [io.EOF], [sendData]
    returns the bytes read and that error, and the object is completed with
    it: one completion carrying the error is posted, [sendoff] is reset, the
    offset is added to [stats.Offset], and [stats.Size] and [stats.Num] are
    unchanged. *)
Theorem sendData_reader_error (nb r : nat) (data : list byte) (x : error)
  (w w1 : World E) :
  Reader (so_obj (s_sendoff (strm w))) = Some r ->
  reader_Read E r nb w = Ok (data, Some x) w1 ->
  x <> EOF ->
  closed (cmplCh (strm w)) = false ->
  exists w',
    sendData E nb w = Ok (data, Some x) w' /\
    buf (cmplCh (strm w')) =
      buf (cmplCh (strm w)) ++
      [{| c_obj := so_obj (s_sendoff (strm w)); c_err := Some x |}] /\
    s_sendoff (strm w') = {| so_obj := Obj0; so_off := 0; so_ins := inEOB E |} /\
    stats_Offset (stats (strm w')) =
      add64 (stats_Offset (stats (strm w)))
        (add64 (so_off (s_sendoff (strm w))) (Z.of_nat (length data))) /\
    stats_Size (stats (strm w')) = stats_Size (stats (strm w)) /\
    stats_Num (stats (strm w')) = stats_Num (stats (strm w)).
Proof.
  intros Hr Hread Hx Hc.
  pose proof (reader_Read_strm E _ _ _ _ _ Hread) as (Hs & _).
  unfold sendData. run. rewrite Hr, Hread. simpl.
  destruct x; [contradiction | | | |];
    match goal with |- context [eoObj E (Some ?y) ?w2] =>
      destruct (eoObj_Ok E (Some y) w2) as (wx & Heo & Hp); [simpl; rewrite Hs; exact Hc|];
      rewrite Heo;
      exists wx; (split; [reflexivity|]);
      destruct Hp as (Hq & Hso & _ & Hof & Hst & _); simpl in Hq, Hof, Hst;
      rewrite Hs in Hq, Hof, Hst; simpl in Hq, Hof, Hst;
      destruct Hst as (HS & HN & _); rewrite Hq; auto
    end.
Qed.

(** ** Read *)

Lemma Read_starts (fuel nb : nat) (o : Obj) (q : list Obj) (w : World E) :
  between_objects E (strm w) ->
  buf (workCh (strm w)) = o :: q ->
  IsIdleTick E o = false ->
  takes_work E w ->
  so_off (s_sendoff (strm w)) = 0 ->
  (length (insObjHeader E (Hdr o) (usePDU E (strm w))) <= nb)%nat ->
  Z.of_nat (length (insObjHeader E (Hdr o) (usePDU E (strm w)))) < 2 ^ 63 ->
  exists w',
    Read E fuel nb w =
      Ok (insObjHeader E (Hdr o) (usePDU E (strm w)),
          if IsLast E o then Some EOF else None) w' /\
    s_sendoff (strm w') =
      {| so_obj := o; so_off := 0; so_ins := ins_after_hdr E (strm w) o |} /\
    workCh (strm w') = chan_with_buf q (workCh (strm w)) /\
    stats_Offset (stats (strm w')) =
      add64 (stats_Offset (stats (strm w)))
        (Z.of_nat (length (insObjHeader E (Hdr o) (usePDU E (strm w))))) /\
    lastCh (strm w') = lastCh (strm w) || IsLast E o /\
    cmplCh (strm w') = cmplCh (strm w) /\
    rdrs w' = rdrs w /\ log w' = log w /\
    stats_Size (stats (strm w')) = stats_Size (stats (strm w)).
Proof.
  intros Hb Hq Ht Hw Hoff Hnb Hh.
  rewrite (Read_between E fuel nb w Hb), Hq.
  simpl. unfold select_work. run.
  assert (Hstep : forall wa : World E,
            strm wa = set_time_inSend true (strm w) -> rdrs wa = rdrs w -> log wa = log w ->
            exists w',
              sendHdr E nb
                (upd_strm (set_so_ins E (inHdr E))
                   (upd_strm (fun s => set_header (insObjHeader E (Hdr o) (usePDU E s)) s)
                      (upd_strm (set_so_obj E o)
                         (upd_strm (fun s => set_workCh (chan_with_buf q (workCh s)) s) wa))))
              = Ok (insObjHeader E (Hdr o) (usePDU E (strm w)),
                    if IsLast E o then Some EOF else None) w' /\
              s_sendoff (strm w') =
                {| so_obj := o; so_off := 0; so_ins := ins_after_hdr E (strm w) o |} /\
              workCh (strm w') = chan_with_buf q (workCh (strm w)) /\
              stats_Offset (stats (strm w')) =
                add64 (stats_Offset (stats (strm w)))
                  (Z.of_nat (length (insObjHeader E (Hdr o) (usePDU E (strm w))))) /\
              lastCh (strm w') = lastCh (strm w) || IsLast E o /\
              cmplCh (strm w') = cmplCh (strm w) /\
              rdrs w' = rdrs w /\ log w' = log w /\
              stats_Size (stats (strm w')) = stats_Size (stats (strm w))).
  { intros wa Hsa Hra Hla.
    match goal with |- exists w', sendHdr E nb ?wi = _ /\ _ =>
      destruct (sendHdr_complete nb wi) as (w' & Hr & Hso & Hof & Hl & Hhd & Hwk & Hcq & HSz & Hrd & Hlg)
    end.
    - simpl. rewrite Hsa. simpl. rewrite Hoff. lia.
    - simpl. rewrite Hsa. simpl. rewrite Hoff. unfold usePDU in *. simpl. lia.
    - simpl. rewrite Hsa. simpl. unfold usePDU in *. simpl. exact Hh.
    - exists w'. simpl in *. rewrite Hsa in *. simpl in *.
      rewrite Hoff in Hr. simpl in Hr.
      unfold ins_after_hdr, usePDU in *. simpl in *.
      rewrite Hr, Hso, Hof, Hl, Hwk, Hcq, Hrd, Hlg, HSz. repeat split; assumption. }
  destruct Hw as [Hs | Hp].
  - rewrite Hs. simpl. rewrite Ht.
    apply Hstep; reflexivity.
  - destruct (stopCh (strm w)); simpl; [rewrite Hp; simpl|]; rewrite Ht;
      apply Hstep; reflexivity.
Qed.

(** X9: between objects, with an object that is no tick at the head of SQ,
    [sendoff.off] at 0 and a buffer that holds the header, [Read] takes the
    object from SQ and returns its serialized header, whole; [sendoff] is then
    in the data (or PDU) state at offset 0, the header length is added to
    [stats.Offset], and for the last-marker the error is [io.EOF] and
    [lastCh] is closed. Nothing is posted to SCQ. *)
Theorem Read_starts_object (fuel nb : nat) (o : Obj) (q : list Obj) (w : World E) :
  between_objects E (strm w) ->
  buf (workCh (strm w)) = o :: q ->
  IsIdleTick E o = false ->
  takes_work E w ->
  so_off (s_sendoff (strm w)) = 0 ->
  (length (insObjHeader E (Hdr o) (usePDU E (strm w))) <= nb)%nat ->
  Z.of_nat (length (insObjHeader E (Hdr o) (usePDU E (strm w)))) < 2 ^ 63 ->
  exists w',
    Read E fuel nb w =
      Ok (insObjHeader E (Hdr o) (usePDU E (strm w)),
          if IsLast E o then Some EOF else None) w' /\
    s_sendoff (strm w') =
      {| so_obj := o; so_off := 0; so_ins := ins_after_hdr E (strm w) o |} /\
    workCh (strm w') = chan_with_buf q (workCh (strm w)) /\
    stats_Offset (stats (strm w')) =
      add64 (stats_Offset (stats (strm w)))
        (Z.of_nat (length (insObjHeader E (Hdr o) (usePDU E (strm w))))) /\
    lastCh (strm w') = lastCh (strm w) || IsLast E o /\
    cmplCh (strm w') = cmplCh (strm w) /\
    rdrs w' = rdrs w /\ log w' = log w.
Proof.
  intros Hb Hq Ht Hw Hoff Hnb Hh.
  destruct (Read_starts fuel nb o q w Hb Hq Ht Hw Hoff Hnb Hh)
    as (w' & H1 & H2 & H3 & H4 & H5 & H6 & H7 & H8 & _).
  exists w'. repeat (split; [assumption|]). assumption.
Qed.

(** X10: once the last-marker is the object in flight in the data state,
    [Read] returns 0 bytes and [io.EOF] and only notes that it was called;
    called again it does the same. *)
Theorem Read_after_last (fuel nb fuel' nb' : nat) (w : World E) :
  inSend E (strm w) = true ->
  so_ins (s_sendoff (strm w)) = inData E ->
  IsLast E (so_obj (s_sendoff (strm w))) = true ->
  Read E fuel nb w = Ok ([], Some EOF) (upd_strm (set_time_inSend true) w) /\
  Read E fuel' nb' (upd_strm (set_time_inSend true) w) =
    Ok ([], Some EOF) (upd_strm (set_time_inSend true) w).
Proof.
  intros Hs Hi Hl.
  assert (H : forall f n (wa : World E),
            inSend E (strm wa) = true -> so_ins (s_sendoff (strm wa)) = inData E ->
            IsLast E (so_obj (s_sendoff (strm wa))) = true ->
            Read E f n wa = Ok ([], Some EOF) (upd_strm (set_time_inSend true) wa)).
  { intros f n wa Hs' Hi' Hl'. unfold Read. run.
    unfold inSend, IsHeaderOnly, IsLast in *. simpl.
    rewrite Hs', Hi', Z.eqb_refl. simpl. rewrite Hl', orb_true_r. reflexivity. }
  split; [apply H; assumption|].
  apply (H fuel' nb' (upd_strm (set_time_inSend true) w)); assumption.
Qed.

(** X11: [Read] makes no call out of the stream's send path: wherever it
    ends, the log is as it was (no callback, no [Close], no [FreeSend]; the
    Reader is closed by the completion side), and so are the LZ4 state and
    [stats.CompressedSize]. *)
Theorem Read_logs_nothing (fuel nb : nat) (w : World E) :
  match Read E fuel nb w with
  | Ok _ w' | Blocked w' | Panic w' =>
      log w' = log w /\ lz4s (strm w') = lz4s (strm w) /\
      stats_CompressedSize (stats (strm w')) = stats_CompressedSize (stats (strm w))
  | OutOfFuel => True
  end.
Proof.
  pose proof (lz_frame_Read E fuel nb w) as H.
  destruct (Read E fuel nb w); auto.
Qed.

(** *** Read fills at most the buffer *)

Lemma bounded_ret nb (r : list byte * option error) :
  (length r.1 <= nb)%nat -> bounded E nb (ret r).
Proof. intros H w. exact H. Qed.

Lemma bounded_panic nb : bounded E nb panic.
Proof. intros w. exact I. Qed.

Lemma bounded_bind {A} nb (P : A -> Prop) (m : M E A) k :
  (forall w a w', m w = Ok a w' -> P a) ->
  (forall a, P a -> bounded E nb (k a)) ->
  bounded E nb (bind m k).
Proof.
  intros Hm Hk w. unfold bind. destruct (m w) as [a w1| | |] eqn:Hmw; auto.
  apply (Hk a (Hm _ _ _ Hmw) w1).
Qed.

Lemma bounded_seq {A} nb (m : M E A) k :
  (forall a, bounded E nb (k a)) -> bounded E nb (bind m k).
Proof. intros Hk. apply (bounded_bind nb (fun _ => True)); auto. Qed.

Ltac bound_step :=
  first
    [ apply bounded_panic
    | apply bounded_ret; simpl; try rewrite length_take; lia
    | apply bounded_seq; intro
    | match goal with
      | |- bounded _ _ (if ?c then _ else _) => destruct c
      | |- bounded _ _ (match ?x with _ => _ end) => destruct x
      end ].

Lemma bounded_sendHdr nb : bounded E nb (sendHdr E nb).
Proof. unfold sendHdr. repeat bound_step. Qed.

Lemma bounded_sendData nb : bounded E nb (sendData E nb).
Proof.
  unfold sendData. apply bounded_seq. intro s.
  destruct (Reader (so_obj (s_sendoff s))) as [r|]; [|apply bounded_panic].
  apply (bounded_bind nb (fun p : list byte * option error => (length p.1 <= nb)%nat)).
  - intros w p w'. unfold reader_Read.
    destruct (rdrs w !! r) as [[|[data e] rest]|]; intros [= <- <-]; simpl;
      try rewrite length_take; lia.
  - intros p Hp. repeat first [apply bounded_ret; exact Hp | bound_step].
Qed.

Lemma bounded_Read_inPDU fuel nb :
  (forall p n, (length (pdu_read E p n).2 <= n)%nat) ->
  bounded E nb (Read_inPDU E fuel nb).
Proof.
  intros Hpdu. unfold Read_inPDU. apply bounded_seq. intro err.
  apply bounded_seq. intro s.
  destruct (pdu s) as [p|]; [|apply bounded_panic].
  destruct (0 <? pdu_rlength E p); [|apply bounded_ret; simpl; lia].
  pose proof (Hpdu p nb) as Hp. destruct (pdu_read E p nb) as [p' out]. simpl in Hp.
  apply bounded_seq. intro. apply bounded_seq. intro.
  apply bounded_ret. exact Hp.
Qed.

Lemma bounded_Read_repeat nb q : bounded E nb (Read_repeat E nb q).
Proof.
  induction q as [|o q IH]; simpl.
  - repeat bound_step.
  - apply bounded_seq. intro s. apply bounded_seq. intro pick.
    destruct pick; [|apply bounded_ret; simpl; lia].
    apply bounded_seq. intro. apply bounded_seq. intro.
    destruct (IsIdleTick E o).
    + destruct (0 <? length q)%nat; [exact IH|].
      unfold deactivate. repeat bound_step.
    + apply bounded_seq. intro. apply bounded_seq. intro. apply bounded_sendHdr.
Qed.

(** X12: [Read] never returns more bytes than the buffer holds
    ([n <= len(b)]), whatever the state of the stream, provided the PDU
    buffer's own [read] keeps to the buffer it is given. *)
Theorem Read_fills_at_most_buffer (fuel nb : nat) (w : World E) :
  (forall p n, (length (pdu_read E p n).2 <= n)%nat) ->
  match Read E fuel nb w with
  | Ok r _ => (length r.1 <= nb)%nat
  | _ => True
  end.
Proof.
  intros Hpdu. revert w. change (bounded E nb (Read E fuel nb)).
  unfold Read.
  repeat first [ apply bounded_Read_repeat | apply bounded_sendData | apply bounded_sendHdr
               | apply (bounded_Read_inPDU fuel nb Hpdu) | bound_step ].
Qed.

(** ** lz4Stream.Read *)

Lemma sgl_Read_len nb w (d : list byte * option error) w1 :
  sgl_Read E nb w = Ok d w1 -> (length d.1 <= nb)%nat.
Proof.
  unfold sgl_Read. run.
  destruct (lz_sgl (lz4s (strm w))) as [|x l]; intros [= <- <-]; simpl.
  - lia.
  - destruct nb; simpl; [lia|]. rewrite length_take. lia.
Qed.

Lemma final_flush_len nb w err (r : list byte * option error) w' :
  (zw_flush E ;; d' <- sgl_Read E nb ;; ret (d'.1, err)) w = Ok r w' ->
  (length r.1 <= nb)%nat.
Proof.
  intros H. apply bind_Ok in H as ([] & w1 & _ & H).
  apply bind_Ok in H as (d' & w2 & Hd & H). injection H as <- <-.
  simpl. eapply sgl_Read_len; eauto.
Qed.

Lemma lz4_re_len fuel nb last : forall retry w (r : list byte * option error) w',
  lz4_re E fuel nb last retry w = Ok r w' -> (length r.1 <= nb)%nat.
Proof.
  induction retry as [|retry IH]; intros w r w' H; simpl in H.
  all: apply bind_Ok in H as ([] & w0 & _ & H);
    apply bind_Ok in H as (r0 & w1 & _ & H);
    apply bind_Ok in H as ([] & w2 & _ & H);
    apply bind_Ok in H as (s & w2' & _ & H);
    apply bind_Ok in H as ([] & w3 & _ & H);
    apply bind_Ok in H as (d & w4 & HD & H);
    apply sgl_Read_len in HD;
    destruct (length d.1 =? 0)%nat.
  - eapply final_flush_len; eauto.
  - injection H as <- <-. exact HD.
  - destruct (last || (so_ins (s_sendoff s) =? inEOB E) || bool_decide (r0.2 <> None)).
    + eapply final_flush_len; eauto.
    + apply bind_Ok in H as ([] & w5 & _ & H). eapply IH; eauto.
  - injection H as <- <-. exact HD.
Qed.

(** X13: [lz4Stream.Read] never returns more bytes than the buffer holds. *)
Theorem lz4Read_fills_at_most_buffer (fuel nb : nat) (w : World E) :
  match lz4Read E fuel nb w with
  | Ok r _ => (length r.1 <= nb)%nat
  | _ => True
  end.
Proof.
  destruct (lz4Read E fuel nb w) as [[out err] w'| | |] eqn:H; auto.
  unfold lz4Read in H.
  apply bind_Ok in H as (s & w0 & HG & H). injection HG as <- <-.
  apply bind_Ok in H as (r & w1 & HR & H).
  apply lz4_ex_Ok in H as (-> & _). simpl.
  destruct (0 <? length (lz_sgl (lz4s (strm w))))%nat.
  - apply bind_Ok in HR as ([] & w2 & _ & HR).
    apply bind_Ok in HR as (d & w3 & HD & HR). injection HR as <-.
    simpl. eapply sgl_Read_len; eauto.
  - eapply lz4_re_len; eauto.
Qed.

(** X14: when the object in flight at the call is the last-marker,
    [lz4Stream.Read] never returns a nil error: a nil error of the draining
    becomes [io.EOF], any other error is passed on. *)
Theorem lz4Read_last_is_terminal (fuel nb : nat) (w w' : World E)
  (out : list byte) (err : option error) :
  IsLast E (so_obj (s_sendoff (strm w))) = true ->
  lz4Read E fuel nb w = Ok (out, err) w' ->
  err <> None.
Proof.
  intros Hl H. unfold lz4Read in H.
  apply bind_Ok in H as (s & w0 & HG & H). injection HG as <- <-.
  apply bind_Ok in H as (r & w1 & _ & H).
  apply lz4_ex_Ok in H as (_ & -> & _). rewrite Hl. simpl.
  destruct (bool_decide (r.2 = None)) eqn:Hb; [discriminate|].
  apply bool_decide_eq_false in Hb. exact Hb.
Qed.

(** X15: when the SGL already holds compressed bytes, [lz4Stream.Read]
    flushes the writer and returns the first [len(b)] bytes of the SGL, in
    order, without calling [Stream.Read]: SQ, [sendoff], the readers and SCQ
    are as they were; what it returned is added to [stats.CompressedSize],
    and the rest stays in the SGL. *)
Theorem lz4Read_drains_first (fuel nb : nat) (z : ZW E) (w : World E) :
  lz_sgl (lz4s (strm w)) <> [] ->
  lz_zw (lz4s (strm w)) = Some z ->
  exists w',
    lz4Read E fuel nb w =
      Ok (take nb (lz_sgl (lz4s (strm w)) ++ (zw_Flush E z).2),
          if IsLast E (so_obj (s_sendoff (strm w))) then Some EOF else None) w' /\
    lz_sgl (lz4s (strm w')) = drop nb (lz_sgl (lz4s (strm w)) ++ (zw_Flush E z).2) /\
    lz_zw (lz4s (strm w')) = Some (zw_Flush E z).1 /\
    stats_CompressedSize (stats (strm w')) =
      add64 (stats_CompressedSize (stats (strm w)))
        (Z.of_nat (length (take nb (lz_sgl (lz4s (strm w)) ++ (zw_Flush E z).2)))) /\
    workCh (strm w') = workCh (strm w) /\ cmplCh (strm w') = cmplCh (strm w) /\
    s_sendoff (strm w') = s_sendoff (strm w) /\ rdrs w' = rdrs w /\
    log w' = log w ++ [EvFlush;
                       EvSglRead (length (take nb (lz_sgl (lz4s (strm w))
                                                    ++ (zw_Flush E z).2)))].
Proof.
  intros Hne Hz. unfold lz4Read, zw_flush, sgl_Read, lz4_ex. run.
  destruct (lz_sgl (lz4s (strm w))) as [|x l] eqn:Hl; [contradiction|].
  simpl. rewrite Hz. destruct (zw_Flush E z) as [z' fl]. simpl. rewrite Hl. simpl.
  destruct (IsLast E (so_obj (s_sendoff (strm w))));
    destruct (length (drop nb (x :: l ++ fl)) =? 0)%nat eqn:Hd; simpl;
    eexists; (split; [reflexivity|]); simpl; rewrite <- ?app_assoc;
    repeat split; try reflexivity;
    apply Nat.eqb_eq in Hd; apply nil_length_inv in Hd; rewrite Hd; reflexivity.
Qed.

(** ** drain, abortPending, closeAndFree *)

Lemma drain_from_ends q : forall w : World E,
  buf (workCh (strm w)) = q ->
  match drain_from E q w with
  | Ok _ w' => closed (workCh (strm w)) = false /\ buf (workCh (strm w')) = []
  | Panic _ => closed (workCh (strm w)) = true \/ debug_on E = true
  | _ => False
  end.
Proof.
  induction q as [|o q IH]; intros w Hq; simpl; run.
  - destruct (closed (workCh (strm w))); simpl; auto.
  - match goal with |- context [doCmpl E ?o ?e ?w1] =>
      destruct (doCmpl_total E o e w1) as [(w2 & Hd) | (w2 & Hd & Hdbg)]; rewrite Hd; simpl
    end; [|auto].
    apply doCmpl_Once in Hd as (_ & Hs & _).
    specialize (IH w2). rewrite Hs in IH. simpl in IH. specialize (IH eq_refl).
    destruct (drain_from E q w2); auto.
Qed.

(** X16: [drain] never waits: on an open SQ it returns with SQ empty, having
    completed every object SQ held, in order, with [term.err]; on a closed SQ
    it ends in a panic (the receive yields nil, which [doCmpl]
    dereferences). The only other panic is a failed [debug.Assert]. *)
Theorem drain_never_blocks (w : World E) :
  match drain E w with
  | Ok _ w' =>
      closed (workCh (strm w)) = false /\ buf (workCh (strm w')) = [] /\
      Processed E (map (as_cmpl (term_err (strm w))) (buf (workCh (strm w)))) w w'
  | Panic _ => closed (workCh (strm w)) = true \/ debug_on E = true
  | _ => False
  end.
Proof.
  unfold drain. run.
  pose proof (drain_from_ends (buf (workCh (strm w))) w eq_refl) as H.
  pose proof (drain_from_Processed E (buf (workCh (strm w))) w) as HP.
  destruct (drain_from E (buf (workCh (strm w))) w) as [[] w'| | |]; auto.
  destruct H as (Hc & Hb). repeat split; auto.
Qed.

Lemma abortPending_SQ_closed err q : forall w : World E,
  buf (workCh (strm w)) = q -> closed (workCh (strm w)) = true ->
  match abortPending_SQ E err q w with
  | Ok _ w' => buf (workCh (strm w')) = [] /\ cmplCh (strm w') = cmplCh (strm w)
  | Panic _ => debug_on E = true
  | _ => False
  end.
Proof.
  induction q as [|o q IH]; intros w Hq Hc; simpl; run.
  - rewrite Hc. simpl. auto.
  - match goal with |- context [doCmpl E ?o ?e ?w1] =>
      destruct (doCmpl_total E o e w1) as [(w2 & Hd) | (w2 & Hd & Hdbg)]; rewrite Hd; simpl
    end; [|auto].
    apply doCmpl_Once in Hd as (_ & Hs & _).
    specialize (IH w2). rewrite Hs in IH. simpl in IH. specialize (IH eq_refl Hc).
    destruct (abortPending_SQ E err q w2); auto.
Qed.

Lemma abortPending_SCQ_closed q : forall w : World E,
  buf (cmplCh (strm w)) = q -> closed (cmplCh (strm w)) = true ->
  match abortPending_SCQ E q w with
  | Ok _ w' => buf (cmplCh (strm w')) = [] /\ workCh (strm w') = workCh (strm w)
  | Panic _ => debug_on E = true
  | _ => False
  end.
Proof.
  induction q as [|c q IH]; intros w Hq Hc; simpl; run.
  - rewrite Hc. simpl. auto.
  - destruct (IsLast E (c_obj c)); simpl.
    + specialize (IH (upd_strm (fun s => set_cmplCh (chan_with_buf q (cmplCh s)) s) w)).
      simpl in IH. specialize (IH eq_refl Hc).
      destruct (abortPending_SCQ E q _); auto.
    + match goal with |- context [doCmpl E ?o ?e ?w1] =>
        destruct (doCmpl_total E o e w1) as [(w2 & Hd) | (w2 & Hd & Hdbg)];
          rewrite Hd; simpl
      end; [|auto].
      apply doCmpl_Once in Hd as (_ & Hs & _).
      specialize (IH w2). rewrite Hs in IH. simpl in IH. specialize (IH eq_refl Hc).
      destruct (abortPending_SCQ E q w2); auto.
Qed.

(** X17: once both queues are closed, [abortPending(err, true)] does not
    wait: it returns with SQ and SCQ empty, having completed every object of
    SQ with [err] and every completion of SCQ that is no last-marker with its
    own error (barring a failed [debug.Assert]). *)
Theorem abortPending_on_closed_queues (err : option error) (w : World E) :
  closed (workCh (strm w)) = true ->
  closed (cmplCh (strm w)) = true ->
  match abortPending E err true w with
  | Ok _ w' =>
      buf (workCh (strm w')) = [] /\ buf (cmplCh (strm w')) = [] /\
      Processed E (map (as_cmpl err) (buf (workCh (strm w))) ++
                   List.filter (not_last E) (buf (cmplCh (strm w)))) w w'
  | Panic _ => debug_on E = true
  | _ => False
  end.
Proof.
  intros Hcw Hcc. unfold abortPending. run.
  pose proof (abortPending_SQ_closed err (buf (workCh (strm w))) w eq_refl Hcw) as H1.
  pose proof (abortPending_SQ_Processed E err (buf (workCh (strm w))) w) as HP1.
  destruct (abortPending_SQ E err (buf (workCh (strm w))) w) as [[] w1| | |]; auto.
  destruct H1 as (Hb1 & Hq1). specialize (HP1 w1 eq_refl).
  pose proof (abortPending_SCQ_closed (buf (cmplCh (strm w1))) w1 eq_refl) as H2.
  pose proof (abortPending_SCQ_Processed E (buf (cmplCh (strm w1))) w1) as HP2.
  rewrite Hq1 in H2, HP2. specialize (H2 Hcc). rewrite Hq1.
  destruct (abortPending_SCQ E (buf (cmplCh (strm w))) w1) as [[] w2| | |]; auto.
  destruct H2 as (Hb2 & Hw2). specialize (HP2 w2 eq_refl).
  split; [rewrite Hw2; exact Hb1|]. split; [exact Hb2|].
  eapply Processed_app; eauto.
Qed.

(** X18: [closeAndFree] on open queues closes SQ and SCQ, keeping what they
    hold, and frees the header buffer and, with PDUs only, the PDU buffer;
    a second call panics on the first [close], and so does any later
    [errCmpl] of a stream in send, on its send to the closed SCQ. *)
Theorem closeAndFree_closes_once (err : option error) (w : World E) :
  closed (workCh (strm w)) = false ->
  closed (cmplCh (strm w)) = false ->
  exists w1,
    closeAndFree E w =
      Ok (MaxHeader :: (if usePDU E (strm w) then [PduBuf] else [])) w1 /\
    workCh (strm w1) = {| buf := buf (workCh (strm w)); closed := true |} /\
    cmplCh (strm w1) = {| buf := buf (cmplCh (strm w)); closed := true |} /\
    closeAndFree E w1 = Panic w1 /\
    (inSend E (strm w) = true -> errCmpl E err w1 = Panic w1).
Proof.
  intros Hw Hc. unfold closeAndFree, chan_close. rewrite Hw, Hc.
  eexists. split; [reflexivity|]. simpl. repeat split.
  intros Hs. unfold errCmpl, send_cmpl, chan_send, inSend in *. run.
  rewrite Hs. reflexivity.
Qed.

(** ** terminate and the completion loop *)

Lemma before_last_app_marker q m :
  IsLast E (c_obj m) = true -> before_last E (q ++ [m]) = before_last E q.
Proof.
  intros Hm. induction q as [|c q IH]; simpl.
  - rewrite Hm. reflexivity.
  - destruct (IsLast E (c_obj c)); [reflexivity | rewrite IH; reflexivity].
Qed.

Lemma cmplLoop_from_with_marker q : forall w : World E,
  Exists (fun c => IsLast E (c_obj c) = true) q ->
  match cmplLoop_from E q w with
  | Ok _ w' => Processed E (before_last E q) w w'
  | Panic _ => debug_on E = true
  | _ => False
  end.
Proof.
  induction q as [|c q IH]; intros w Hex; [inversion Hex|].
  simpl. run. destruct (IsLast E (c_obj c)) eqn:Hc; simpl.
  - constructor; reflexivity.
  - inversion Hex as [? ? Hh | ? ? Ht]; subst; [congruence|].
    match goal with |- context [doCmpl E ?o ?e ?w1] =>
      destruct (doCmpl_total E o e w1) as [(w2 & Hd) | (w2 & Hd & Hdbg)]; rewrite Hd; simpl
    end; [|auto].
    specialize (IH w2 Ht).
    destruct (cmplLoop_from E q w2) as [[] w3| | |]; auto.
    apply Processed_one in Hd.
    eapply Processed_from; [| | |exact (Processed_app E _ _ _ _ _ Hd IH)]; reflexivity.
Qed.

(** X19: [terminate] releases the completion loop: after it (stream not yet
    terminated, SCQ open) [cmplLoop] does not wait; it completes the
    completions that were pending before the first last-marker and returns
    (barring a failed [debug.Assert]). *)
Theorem terminate_releases_cmplLoop (w : World E) :
  terminated (strm w) = false ->
  closed (cmplCh (strm w)) = false ->
  exists w1,
    terminate E w = Ok tt w1 /\
    match cmplLoop E w1 with
    | Ok _ w2 => Processed E (before_last E (buf (cmplCh (strm w)))) w1 w2
    | Panic _ => debug_on E = true
    | _ => False
    end.
Proof.
  intros Ht Hc.
  assert (Hm : IsLast E (c_obj {| c_obj := ObjOfSize (lastMarker E);
                                  c_err := term_err (strm w) |}) = true)
    by (unfold IsLast, Hdr_IsLast; simpl; apply Z.eqb_refl).
  assert (Hterm : exists w1, terminate E w = Ok tt w1 /\
            buf (cmplCh (strm w1)) =
              buf (cmplCh (strm w)) ++
              [{| c_obj := ObjOfSize (lastMarker E); c_err := term_err (strm w) |}]).
  { unfold terminate, cmn_Assert, Stop, gc_remove, send_cmpl, chan_send, compressed.
    run. rewrite Ht. simpl. rewrite Hc. simpl.
    destruct (lz_s (lz4s (strm w))); simpl; eexists; split; reflexivity. }
  destruct Hterm as (w1 & Hr & Hb).
  exists w1. split; [exact Hr|].
  unfold cmplLoop. run. rewrite Hb.
  pose proof (cmplLoop_from_with_marker
                (buf (cmplCh (strm w)) ++
                 [{| c_obj := ObjOfSize (lastMarker E); c_err := term_err (strm w) |}]) w1)
    as H.
  rewrite before_last_app_marker in H by exact Hm.
  apply H. apply Exists_app. right. constructor. exact Hm.
Qed.

(** ** idleTick *)

(** X20: [idleTick] is idempotent (SQ open): a second call right after a
    first one changes nothing, so at most one tick-marker is put in SQ however
    often the collector ticks before [Read] takes it. *)
Theorem idleTick_idempotent (w : World E) :
  closed (workCh (strm w)) = false ->
  (idleTick E ;; idleTick E) w = idleTick E w.
Proof.
  intros Hc. unfold idleTick, send_work, chan_send. run.
  destruct ((length (buf (workCh (strm w))) =? 0)%nat && (sessST (strm w) =? active E))
    eqn:Hcond; simpl.
  - rewrite Hc. simpl. rewrite length_app. simpl.
    replace (length (buf (workCh (strm w))) + 1 =? 0)%nat with false
      by (symmetry; apply Nat.eqb_neq; lia).
    reflexivity.
  - rewrite Hcond. reflexivity.
Qed.

(** ** The shared counter prc *)

Lemma Processed_shared_counter P (w w' : World E) :
  Processed E P w w' ->
  forall p n,
    (forall c, c ∈ P -> prc (c_obj c) = Some p) ->
    heap w !! p = Some n -> 1 <= n < 2 ^ 63 -> Z.of_nat (length P) <= n ->
    heap w' !! p = Some (n - Z.of_nat (length P)) /\
    exists evs, log w' = log w ++ evs /\
      sent_calls evs =
        if Z.of_nat (length P) =? n then
          match last P with
          | Some c =>
              match chosen_cb E (strm w) (c_obj c) with
              | Some (k, cb) =>
                  [(k, cb, Hdr (c_obj c), Reader (c_obj c), CmplPtr (c_obj c), c_err c)]
              | None => []
              end
          | None => []
          end
        else [].
Proof.
  induction 1 as [w w' Hl Hh Hc | c P w w1 w2 Ho HP IH]; intros p n Hall Hp Hn Hlen.
  - simpl in *. rewrite Hh, Hp, Z.sub_0_r. split; [reflexivity|].
    exists []. rewrite app_nil_r. split; [exact Hl|].
    destruct n; reflexivity.
  - destruct Ho as (Hcb & Hheap & evs1 & Hl1 & Hs1 & _).
    assert (Hprc : prc (c_obj c) = Some p) by (apply Hall; left).
    unfold fires in Hs1. rewrite Hprc in Hheap, Hs1. rewrite Hp in Hheap, Hs1.
    simpl in Hheap, Hs1. unfold add64 in Hheap, Hs1.
    rewrite int64_small in Hheap, Hs1 by lia.
    assert (Hp1 : heap w1 !! p = Some (n + -1)) by (rewrite Hheap; apply lookup_insert_eq).
    destruct P as [|c' P'].
    + inversion HP as [? ? Hl2 Hh2 Hc2 | ]; subst. simpl length.
      split; [rewrite Hh2, Hp1; f_equal; lia|].
      exists evs1. split; [congruence|]. rewrite Hs1. simpl.
      replace (n + -1 =? 0) with (1 =? n)
        by (destruct (Z.eqb_spec 1 n), (Z.eqb_spec (n + -1) 0); lia || reflexivity).
      reflexivity.
    + assert (Hlast : last (c :: c' :: P') = last (c' :: P')) by reflexivity.
      rewrite Hlast. clear Hlast.
      assert (Hlen' : Z.of_nat (length (c :: c' :: P')) =
                      Z.of_nat (length (c' :: P')) + 1)
        by (change (length (c :: c' :: P')) with (S (length (c' :: P'))); lia).
      assert (Hpos : 1 <= Z.of_nat (length (c' :: P')))
        by (change (length (c' :: P')) with (S (length P')); lia).
      rewrite Hlen' in *. clear Hlen'.
      remember (c' :: P') as Q eqn:HQ.
      destruct (IH p (n + -1)) as (Hp2 & evs2 & Hl2 & Hs2);
        [intros c0 Hc0; apply Hall; right; exact Hc0 | exact Hp1 | lia | lia |].
      split; [rewrite Hp2; f_equal; lia|].
      exists (evs1 ++ evs2). split; [rewrite Hl2, Hl1, app_assoc; reflexivity|].
      rewrite sent_calls_app, Hs1, Hs2.
      replace (n + -1 =? 0) with false by (symmetry; apply Z.eqb_neq; lia).
      replace (Z.of_nat (length Q) =? n + -1)
        with (Z.of_nat (length Q) + 1 =? n)
        by (destruct (Z.eqb_spec (Z.of_nat (length Q) + 1) n),
                     (Z.eqb_spec (Z.of_nat (length Q)) (n + -1)); lia || reflexivity).
      unfold chosen_cb. rewrite Hcb. reflexivity.
Qed.

(** X21: [SetPrc(n)] gives the object a fresh counter (no other counter is
    changed), and when the object, so counted, is then completed [n] times,
    the sent-callback is invoked exactly once, by the last of these
    completions and with its error, and the counter ends at zero. *)
Theorem SetPrc_fires_once (n : Z) (o o' : Obj) (errs : list (option error))
  (k : cbkind) (cb : nat) (w w0 w' : World E) :
  1 <= n < 2 ^ 63 ->
  SetPrc E n o w = Ok o' w0 ->
  Z.of_nat (length errs) = n ->
  chosen_cb E (strm w0) o' = Some (k, cb) ->
  Processed E (map (fun e => as_cmpl e o') errs) w0 w' ->
  (forall p v, heap w !! p = Some v -> heap w0 !! p = Some v) /\
  exists p, prc o' = Some p /\ heap w !! p = None /\ heap w0 !! p = Some n /\
    heap w' !! p = Some 0 /\
    exists evs, log w' = log w0 ++ evs /\
      sent_calls evs = [(k, cb, Hdr o, Reader o, CmplPtr o, default None (last errs))].
Proof.
  intros Hn Hset Hlen Hcb HP.
  unfold SetPrc in Hset. injection Hset as <- <-.
  set (p := fresh (dom (heap w))) in *.
  assert (Hfresh : heap w !! p = None)
    by (apply not_elem_of_dom; subst p; apply is_fresh).
  split.
  - intros p' v Hv. simpl. rewrite lookup_insert_ne; [exact Hv|].
    intros ->. congruence.
  - exists p. simpl. split; [reflexivity|]. split; [exact Hfresh|].
    assert (Hp0 : (<[p := int64_wrap n]> (heap w)) !! p = Some n)
      by (rewrite lookup_insert_eq, int64_small by lia; reflexivity).
    split; [exact Hp0|].
    destruct (Processed_shared_counter _ _ _ HP p n) as (Hend & evs & Hl & Hs).
    + intros c Hc. apply list_elem_of_fmap in Hc as (e & -> & _). reflexivity.
    + exact Hp0.
    + exact Hn.
    + rewrite length_map. lia.
    + rewrite length_map, Hlen, Z.sub_diag in Hend. split; [exact Hend|].
      exists evs. split; [exact Hl|]. rewrite Hs, length_map, Hlen, Z.eqb_refl.
      destruct errs as [|e0 errs] using rev_ind; [simpl in Hlen; lia|].
      rewrite map_app. simpl. rewrite !last_snoc. simpl.
      simpl in Hcb. unfold chosen_cb in *. simpl in *.
      destruct (Callback o); [injection Hcb as <- <-; reflexivity|].
      destruct (callback (strm w)); [injection Hcb as <- <-; reflexivity | discriminate].
Qed.

(** ** Waiting on an open queue *)

Lemma cmplLoop_from_open q : forall w : World E,
  Forall (fun c => not_last E c = true) q ->
  buf (cmplCh (strm w)) = q ->
  closed (cmplCh (strm w)) = false ->
  match cmplLoop_from E q w with
  | Blocked w' => Processed E q w w' /\ buf (cmplCh (strm w')) = []
  | Panic _ => debug_on E = true
  | _ => False
  end.
Proof.
  induction q as [|c q IH]; intros w Hall Hq Hc; simpl; run.
  - rewrite Hc. simpl. split; [constructor; reflexivity | exact Hq].
  - inversion Hall as [|? ? Hn Hall']; subst.
    unfold not_last in Hn. apply negb_true_iff in Hn. rewrite Hn. simpl.
    match goal with |- context [doCmpl E ?o ?e ?w1] =>
      destruct (doCmpl_total E o e w1) as [(w2 & Hd) | (w2 & Hd & Hdbg)]; rewrite Hd; simpl
    end; [|auto].
    pose proof (doCmpl_Once E _ _ _ _ Hd) as (_ & Hs & _).
    specialize (IH w2 Hall'). rewrite Hs in IH. simpl in IH. specialize (IH eq_refl Hc).
    destruct (cmplLoop_from E q w2) as [[] w3| w3 | |]; auto.
    destruct IH as (HP & Hb). split; [|exact Hb].
    apply Processed_one in Hd.
    eapply Processed_from; [| | |exact (Processed_app E _ _ _ _ _ Hd HP)]; reflexivity.
Qed.

(** X22: with SCQ open and no last-marker in it, [cmplLoop] does not return:
    it completes every completion SCQ holds, in order, and then waits on the
    empty channel (barring a failed [debug.Assert]). *)
Theorem cmplLoop_waits_for_marker (w : World E) :
  Forall (fun c => not_last E c = true) (buf (cmplCh (strm w))) ->
  closed (cmplCh (strm w)) = false ->
  match cmplLoop E w with
  | Blocked w' =>
      Processed E (buf (cmplCh (strm w))) w w' /\ buf (cmplCh (strm w')) = []
  | Panic _ => debug_on E = true
  | _ => False
  end.
Proof.
  intros Hall Hc. unfold cmplLoop. run.
  exact (cmplLoop_from_open (buf (cmplCh (strm w))) w Hall eq_refl Hc).
Qed.

Lemma abortPending_SQ_open err q : forall w : World E,
  buf (workCh (strm w)) = q ->
  closed (workCh (strm w)) = false ->
  match abortPending_SQ E err q w with
  | Blocked w' =>
      Processed E (map (as_cmpl err) q) w w' /\ buf (workCh (strm w')) = [] /\
      cmplCh (strm w') = cmplCh (strm w)
  | Panic _ => debug_on E = true
  | _ => False
  end.
Proof.
  induction q as [|o q IH]; intros w Hq Hc; simpl; run.
  - rewrite Hc. simpl. split; [constructor; reflexivity | auto].
  - match goal with |- context [doCmpl E ?o ?e ?w1] =>
      destruct (doCmpl_total E o e w1) as [(w2 & Hd) | (w2 & Hd & Hdbg)]; rewrite Hd; simpl
    end; [|auto].
    pose proof (doCmpl_Once E _ _ _ _ Hd) as (_ & Hs & _).
    specialize (IH w2). rewrite Hs in IH. simpl in IH. specialize (IH eq_refl Hc).
    destruct (abortPending_SQ E err q w2) as [[] w3| w3 | |]; auto.
    destruct IH as (HP & Hb & Hcq). split; [|split; [exact Hb | exact Hcq]].
    apply (Processed_one E (as_cmpl err o)) in Hd.
    eapply Processed_from; [| | |exact (Processed_app E _ _ _ _ _ Hd HP)]; reflexivity.
Qed.

(** X23: while SQ is open [abortPending] does not return: it completes every
    object SQ holds with [err] and then waits on the empty channel, before it
    gets to SCQ, which is left as it was (barring a failed [debug.Assert]). *)
Theorem abortPending_waits_on_open_SQ (err : option error) (completions : bool)
  (w : World E) :
  closed (workCh (strm w)) = false ->
  match abortPending E err completions w with
  | Blocked w' =>
      Processed E (map (as_cmpl err) (buf (workCh (strm w)))) w w' /\
      buf (workCh (strm w')) = [] /\ cmplCh (strm w') = cmplCh (strm w)
  | Panic _ => debug_on E = true
  | _ => False
  end.
Proof.
  intros Hc. unfold abortPending. run.
  pose proof (abortPending_SQ_open err (buf (workCh (strm w))) w eq_refl Hc) as H.
  destruct (abortPending_SQ E err (buf (workCh (strm w))) w) as [[] w1| w1 | |];
    simpl; solve [exact H | destruct H].
Qed.

(** ** Header-only objects *)

Lemma eoObj_header_only (w : World E) :
  IsHeaderOnly E (so_obj (s_sendoff (strm w))) = true ->
  IsLast E (so_obj (s_sendoff (strm w))) = false ->
  so_off (s_sendoff (strm w)) = 0 ->
  closed (cmplCh (strm w)) = false ->
  exists w1,
    eoObj E None w = Ok tt w1 /\
    cmplCh (strm w1) =
      {| buf := buf (cmplCh (strm w)) ++
                [{| c_obj := so_obj (s_sendoff (strm w)); c_err := None |}];
         closed := false |} /\
    s_sendoff (strm w1) = {| so_obj := Obj0; so_off := 0; so_ins := inEOB E |} /\
    stats_Num (stats (strm w1)) = add64 (stats_Num (stats (strm w))) 1 /\
    workCh (strm w1) = workCh (strm w) /\ stopCh (strm w1) = stopCh (strm w).
Proof.
  intros Hh Hl Hoff Hc.
  assert (Hsz : Size (ObjAttrs (Hdr (so_obj (s_sendoff (strm w))))) = 0).
  { unfold IsHeaderOnly, IsLast in *. rewrite Hl, orb_false_r in Hh.
    apply Z.eqb_eq in Hh. exact Hh. }
  unfold eoObj, send_cmpl, chan_send. run. rewrite Hoff, Hsz.
  destruct (IsUnsized E (so_obj (s_sendoff (strm w)))); simpl; rewrite Hc; simpl;
    eexists; (split; [reflexivity|]); simpl;
    (split; [reflexivity|]); (split; [reflexivity|]); (split; [reflexivity|]);
    split; reflexivity.
Qed.

(** X24: a header-only object that is no last-marker is completed by the
    [Read] that follows the one that sent its header: that call posts its
    completion, without error, counts it in [stats.Num], resets [sendoff],
    and goes on from the label [repeat] in the same call; with SQ empty and
    open and the stream not stopped it then waits, the completion already
    posted. *)
Theorem Read_completes_header_only (fuel nb : nat) (w : World E) :
  inSend E (strm w) = true ->
  so_ins (s_sendoff (strm w)) = inData E ->
  IsHeaderOnly E (so_obj (s_sendoff (strm w))) = true ->
  IsLast E (so_obj (s_sendoff (strm w))) = false ->
  so_off (s_sendoff (strm w)) = 0 ->
  closed (cmplCh (strm w)) = false ->
  exists w1,
    Read E fuel nb w = Read_repeat E nb (buf (workCh (strm w))) w1 /\
    cmplCh (strm w1) =
      {| buf := buf (cmplCh (strm w)) ++
                [{| c_obj := so_obj (s_sendoff (strm w)); c_err := None |}];
         closed := false |} /\
    s_sendoff (strm w1) = {| so_obj := Obj0; so_off := 0; so_ins := inEOB E |} /\
    stats_Num (stats (strm w1)) = add64 (stats_Num (stats (strm w))) 1 /\
    workCh (strm w1) = workCh (strm w) /\
    (buf (workCh (strm w)) = [] -> closed (workCh (strm w)) = false ->
     stopCh (strm w) = false -> Read E fuel nb w = Blocked w1).
Proof.
  intros Hs Hi Hh Hl Hoff Hc.
  destruct (eoObj_header_only (upd_strm (set_time_inSend true) w) Hh Hl Hoff Hc)
    as (w1 & He & Hq & Hso & Hn & Hw & Hst).
  simpl in Hq, Hn, Hw, Hst.
  assert (HR : Read E fuel nb w = Read_repeat E nb (buf (workCh (strm w))) w1).
  { unfold Read. unfold bind at 1 2. unfold modify at 1. unfold get at 1.
    cbn [strm upd_strm].
    replace (inSend E (set_time_inSend true (strm w))) with true
      by (symmetry; exact Hs).
    replace (so_ins (s_sendoff (set_time_inSend true (strm w)))) with (inData E)
      by (symmetry; exact Hi).
    rewrite Z.eqb_refl.
    replace (IsHeaderOnly E (so_obj (s_sendoff (set_time_inSend true (strm w)))))
      with true by (symmetry; exact Hh).
    replace (IsLast E (so_obj (s_sendoff (set_time_inSend true (strm w)))))
      with false by (symmetry; exact Hl).
    cbn [negb]. unfold bind at 1. rewrite He.
    unfold bind, get. rewrite Hw. reflexivity. }
  exists w1. split; [exact HR|]. split; [exact Hq|]. split; [exact Hso|].
  split; [exact Hn|]. split; [exact Hw|].
  intros Hb Hcw Hstop. rewrite HR, Hb. simpl. unfold select_work. run.
  rewrite Hw, Hst, Hcw, Hstop. reflexivity.
Qed.

(** ** A whole object *)

Lemma Read_in_data (fuel nb : nat) (w : World E) :
  inSend E (strm w) = true ->
  so_ins (s_sendoff (strm w)) = inData E ->
  IsHeaderOnly E (so_obj (s_sendoff (strm w))) = false ->
  Read E fuel nb w = sendData E nb (upd_strm (set_time_inSend true) w).
Proof.
  intros Hs Hi Hh. unfold Read. run.
  unfold inSend, IsHeaderOnly in *. simpl.
  rewrite Hs, Hi, Z.eqb_refl. simpl. rewrite Hh. reflexivity.
Qed.

(** X25: an object with a payload, sent without PDUs through buffers that
    hold its header and its data, takes two calls of [Read]: the first takes
    it from SQ and returns its header, the second returns what its Reader
    gives; when that is as long as the declared size the object is then
    completed without error, [sendoff] is reset and the size is added to
    [stats.Size]. *)
Theorem Read_sends_object (fuel nb r : nat) (o : Obj) (q : list Obj)
  (data : list byte) (e : option error) (rest : list rstep) (w : World E) :
  inHdr E <= inData E \/ inData E < inEOB E ->
  between_objects E (strm w) ->
  buf (workCh (strm w)) = o :: q ->
  IsIdleTick E o = false ->
  takes_work E w ->
  so_off (s_sendoff (strm w)) = 0 ->
  usePDU E (strm w) = false ->
  IsHeaderOnly E o = false ->
  Reader o = Some r ->
  rdrs w !! r = Some ((data, e) :: rest) ->
  e = None \/ e = Some EOF ->
  Z.of_nat (length data) = Size (ObjAttrs (Hdr o)) ->
  Z.of_nat (length data) < 2 ^ 63 ->
  (length (insObjHeader E (Hdr o) false) <= nb)%nat ->
  (length data <= nb)%nat ->
  Z.of_nat (length (insObjHeader E (Hdr o) false)) < 2 ^ 63 ->
  closed (cmplCh (strm w)) = false ->
  exists w1 w2,
    Read E fuel nb w = Ok (insObjHeader E (Hdr o) false, None) w1 /\
    Read E fuel nb w1 = Ok (data, None) w2 /\
    buf (cmplCh (strm w2)) =
      buf (cmplCh (strm w)) ++ [{| c_obj := o; c_err := None |}] /\
    s_sendoff (strm w2) = {| so_obj := Obj0; so_off := 0; so_ins := inEOB E |} /\
    stats_Size (stats (strm w2)) =
      add64 (stats_Size (stats (strm w))) (Size (ObjAttrs (Hdr o))).
Proof.
  intros Henv Hb Hq Ht Hw Hoff Hpdu Hho Hr Hrd He Hsz Hlt Hnbh Hnbd Hh Hc.
  assert (Hlast : IsLast E o = false).
  { unfold IsHeaderOnly, IsLast in *. apply orb_false_iff in Hho. tauto. }
  destruct (Read_starts fuel nb o q w Hb Hq Ht Hw Hoff) as
    (w1 & HR1 & Hso1 & _ & _ & _ & Hcq1 & Hrd1 & _ & HSz1);
    [rewrite Hpdu; exact Hnbh | rewrite Hpdu; exact Hh |].
  rewrite Hpdu, Hlast in HR1.
  unfold ins_after_hdr in Hso1. rewrite Hpdu in Hso1. simpl in Hso1.
  exists w1.
  assert (Hin : inSend E (strm w1) = true).
  { unfold inSend. rewrite Hso1. simpl. apply orb_true_iff.
    rewrite Z.leb_le, Z.ltb_lt. exact Henv. }
  assert (Hread : reader_Read E r nb (upd_strm (set_time_inSend true) w1) =
                  Ok (data, e)
                     (set_rdrs (<[r := rest]> (rdrs w1))
                        (upd_strm (set_time_inSend true) w1))).
  { unfold reader_Read. simpl. rewrite Hrd1, Hrd.
    rewrite take_ge by exact Hnbd. reflexivity. }
  assert (Hoff' : add64 0 (Z.of_nat (length data)) = Size (ObjAttrs (Hdr o))).
  { unfold add64. rewrite int64_small by lia. exact Hsz. }
  assert (Hso1' : s_sendoff (strm (upd_strm (set_time_inSend true) w1)) =
                  {| so_obj := o; so_off := 0; so_ins := inData E |})
    by (rewrite <- Hso1; reflexivity).
  assert (Hcq1' : cmplCh (strm (upd_strm (set_time_inSend true) w1)) = cmplCh (strm w))
    by (rewrite <- Hcq1; reflexivity).
  assert (HSz1' : stats_Size (stats (strm (upd_strm (set_time_inSend true) w1))) =
                  stats_Size (stats (strm w)))
    by (rewrite <- HSz1; reflexivity).
  assert (Hend : end_err E o (Size (ObjAttrs (Hdr o))) = None)
    by (unfold end_err; rewrite Z.eqb_refl, orb_true_r; reflexivity).
  destruct (sendData_ends nb r data e (upd_strm (set_time_inSend true) w1) _
              ltac:(rewrite Hso1'; exact Hr) Hread He
              ltac:(rewrite Hso1'; cbn [so_obj so_off]; rewrite Hoff'; lia)
              ltac:(rewrite Hcq1'; exact Hc))
    as (w2 & HR2 & Hq2 & Hso2 & HS2).
  rewrite Hso1' in Hq2, HS2. cbn [so_obj so_off] in Hq2, HS2.
  rewrite Hoff', Hend in Hq2, HS2. rewrite Hcq1' in Hq2. rewrite HSz1' in HS2.
  exists w2. split; [exact HR1|].
  split.
  { rewrite Read_in_data; [exact HR2 | exact Hin | rewrite Hso1; reflexivity
                          | rewrite Hso1; exact Hho]. }
  split; [exact Hq2|]. split; [exact Hso2 | exact HS2].
Qed.

End Further.

(** * Further examples *)

Lemma errCmpl_always_posts_witness :
  inHdr exE <= inEOB exE /\ closed (cmplCh (strm exShort)) = false /\
  errCmpl exE (Some (ErrExternal 1)) exShort =
    Ok tt (upd_strm
             (set_cmplCh
                {| buf := [{| c_obj := exampleObj 10 (Some 1%nat) None None;
                              c_err := Some (ErrExternal 1) |}];
                   closed := false |}) exShort).
Proof.
  assert (H : inHdr exE <= inEOB exE) by (simpl; lia).
  split; [exact H|]. split; [reflexivity|].
  exact (proj2 (proj2 (errCmpl_always_posts exE (Some (ErrExternal 1)) exShort H eq_refl))).
Defined.

Lemma errCmpl_after_eoObj_witness :
  inHdr exE <= inEOB exE /\ closed (cmplCh (strm exAtEnd)) = false /\
  exists w1 w2,
    eoObj exE None exAtEnd = Ok tt w1 /\
    errCmpl exE (Some (ErrExternal 1)) w1 = Ok tt w2 /\
    buf (cmplCh (strm w2)) =
      [{| c_obj := exampleObj 3 (Some 1%nat) None None; c_err := None |};
       {| c_obj := Obj0; c_err := Some (ErrExternal 1) |}].
Proof.
  assert (H : inHdr exE <= inEOB exE) by (simpl; lia).
  split; [exact H|]. split; [reflexivity|].
  destruct (errCmpl_after_eoObj exE None (Some (ErrExternal 1)) exAtEnd H eq_refl)
    as (w1 & w2 & H1 & H2 & H3).
  exists w1, w2. split; [exact H1|]. split; [exact H2|]. rewrite H3. reflexivity.
Defined.

Lemma sendHdr_delivers_header_witness :
  exists w',
    sendHdr_calls exE [1; 1; 4]%nat exInHdr = Ok ([x48; x44; x01], None) w' /\
    s_sendoff (strm w') =
      {| so_obj := exampleObj 3 (Some 1%nat) None None; so_off := 0;
         so_ins := inData exE |} /\
    stats_Offset (stats (strm w')) = 3 /\ lastCh (strm w') = false.
Proof.
  destruct (sendHdr_delivers_header exE [1; 1]%nat 4 exInHdr)
    as (w' & H1 & H2 & H3 & H4); [simpl; lia | simpl; lia | simpl; lia | simpl; lia |].
  exists w'. split; [exact H1|]. split; [exact H2|].
  split; [rewrite H3; reflexivity | exact H4].
Defined.

Lemma sendHdr_panics_iff_witness :
  Z.of_nat (length (header (strm exAtEnd))) < so_off (s_sendoff (strm exAtEnd)) /\
  sendHdr exE 8 exAtEnd = Panic exAtEnd /\
  exists r w', sendHdr exE 2 exInHdr = Ok r w'.
Proof.
  assert (H : Z.of_nat (length (header (strm exAtEnd))) < so_off (s_sendoff (strm exAtEnd)))
    by (simpl; lia).
  split; [exact H|]. split.
  - exact (proj1 (sendHdr_panics_iff exE 8 exAtEnd ltac:(simpl; lia)) (or_intror H)).
  - apply (proj2 (sendHdr_panics_iff exE 2 exInHdr ltac:(simpl; lia))). simpl. lia.
Defined.

Lemma sendData_continues_witness :
  exists w1,
    reader_Read exE 1 8 (exData 10 None) = Ok ([x61; x62; x63], None) w1 /\
    sendData exE 8 (exData 10 None) =
      Ok ([x61; x62; x63], None) (upd_strm (set_so_off exE 3) w1).
Proof.
  eexists. split; [vm_compute; reflexivity|].
  apply (sendData_continues exE 8 1 [x61; x62; x63] (exData 10 None) _ eq_refl).
  - vm_compute. reflexivity.
  - vm_compute. reflexivity.
Defined.

Lemma sendData_completes_witness :
  exists w',
    sendData exE 8 (exData 3 (Some EOF)) = Ok ([x61; x62; x63], None) w' /\
    buf (cmplCh (strm w')) =
      [{| c_obj := exampleObj 3 (Some 1%nat) None None; c_err := None |}] /\
    stats_Size (stats (strm w')) = 3.
Proof.
  destruct (sendData_completes exE 8 1 [x61; x62; x63] (Some EOF) (exData 3 (Some EOF)) _
              eq_refl ltac:(vm_compute; reflexivity) (or_intror eq_refl)
              ltac:(vm_compute; intros HH; discriminate HH) eq_refl)
    as (w' & H1 & H2 & _ & H4).
  exists w'. split; [exact H1|]. split; [rewrite H2; reflexivity|].
  rewrite H4. reflexivity.
Defined.

Lemma sendData_unsized_first_chunk_witness :
  IsUnsized exE (so_obj (s_sendoff (strm (exData (-1) None)))) = true /\
  exists w',
    sendData exE 8 (exData (-1) None) = Ok ([x61; x62; x63], None) w' /\
    buf (cmplCh (strm w')) =
      [{| c_obj := exampleObj (-1) (Some 1%nat) None None; c_err := None |}] /\
    stats_Size (stats (strm w')) = 3.
Proof.
  split; [reflexivity|].
  destruct (sendData_unsized_first_chunk exE 8 1 [x61; x62; x63] (exData (-1) None) _
              eq_refl ltac:(vm_compute; reflexivity) eq_refl
              ltac:(vm_compute; intros HH; discriminate HH) eq_refl)
    as (w' & H1 & H2 & _ & H4 & _).
  exists w'. split; [exact H1|]. split; [rewrite H2; reflexivity|].
  rewrite H4. reflexivity.
Defined.

Lemma sendData_reader_error_witness :
  exists w',
    sendData exE 8 (exData 10 (Some (ErrExternal 4))) =
      Ok ([x61; x62; x63], Some (ErrExternal 4)) w' /\
    buf (cmplCh (strm w')) =
      [{| c_obj := exampleObj 10 (Some 1%nat) None None;
          c_err := Some (ErrExternal 4) |}] /\
    stats_Offset (stats (strm w')) = 3 /\
    stats_Size (stats (strm w')) = 0 /\ stats_Num (stats (strm w')) = 0.
Proof.
  destruct (sendData_reader_error exE 8 1 [x61; x62; x63] (ErrExternal 4)
              (exData 10 (Some (ErrExternal 4))) _
              eq_refl ltac:(vm_compute; reflexivity) ltac:(discriminate) eq_refl)
    as (w' & H1 & H2 & _ & H4 & H5 & H6).
  exists w'. split; [exact H1|]. split; [rewrite H2; reflexivity|].
  split; [rewrite H4; reflexivity|]. split; [rewrite H5 | rewrite H6]; reflexivity.
Defined.

Lemma Read_starts_object_witness :
  between_objects exE (strm exSend) /\ takes_work exE exSend /\
  exists w',
    Read exE 0 8 exSend = Ok ([x48; x44; x01], None) w' /\
    s_sendoff (strm w') =
      {| so_obj := exampleObj 3 (Some 1%nat) None None; so_off := 0;
         so_ins := inData exE |} /\
    buf (workCh (strm w')) = [] /\ stats_Offset (stats (strm w')) = 3.
Proof.
  assert (Hb : between_objects exE (strm exSend))
    by (unfold between_objects; simpl; lia).
  assert (Hw : takes_work exE exSend) by (left; reflexivity).
  split; [exact Hb|]. split; [exact Hw|].
  destruct (Read_starts_object exE 0 8 (exampleObj 3 (Some 1%nat) None None) [] exSend
              Hb eq_refl eq_refl Hw eq_refl ltac:(simpl; lia) ltac:(simpl; lia))
    as (w' & H1 & H2 & H3 & H4 & _).
  exists w'. split; [exact H1|]. split; [exact H2|].
  split; [rewrite H3; reflexivity | rewrite H4; reflexivity].
Defined.

Lemma Read_after_last_witness :
  IsLast exE (so_obj (s_sendoff (strm exLastLz))) = true /\
  Read exE 0 8 exLastLz =
    Ok ([], Some EOF) (upd_strm (set_time_inSend true) exLastLz) /\
  Read exE 0 4 (upd_strm (set_time_inSend true) exLastLz) =
    Ok ([], Some EOF) (upd_strm (set_time_inSend true) exLastLz).
Proof.
  split; [reflexivity|].
  exact (Read_after_last exE 0 8 0 4 exLastLz eq_refl eq_refl eq_refl).
Defined.

Lemma Read_fills_at_most_buffer_witness :
  (forall p n, (length (pdu_read exE p n).2 <= n)%nat) /\
  match Read exE 0 2 exSend with
  | Ok r _ => (length r.1 <= 2)%nat
  | _ => True
  end.
Proof.
  assert (H : forall p n, (length (pdu_read exE p n).2 <= n)%nat)
    by (intros p n; simpl; lia).
  split; [exact H|]. exact (Read_fills_at_most_buffer exE 0 2 exSend H).
Defined.

Lemma lz4Read_last_is_terminal_witness :
  IsLast exE (so_obj (s_sendoff (strm exLastLz))) = true /\
  exists out err w',
    lz4Read exE 0 8 exLastLz = Ok (out, err) w' /\ err <> None.
Proof.
  split; [reflexivity|].
  eexists _, _, _. split; [vm_compute; reflexivity|].
  refine (lz4Read_last_is_terminal exE 0 8 exLastLz _ _ _ eq_refl _).
  vm_compute. reflexivity.
Defined.

Lemma lz4Read_drains_first_witness :
  lz_sgl (lz4s (strm exSglLz)) <> [] /\
  exists w',
    lz4Read exE 0 8 exSglLz = Ok ([x07], None) w' /\
    lz_sgl (lz4s (strm w')) = [] /\
    stats_CompressedSize (stats (strm w')) = 1 /\
    log w' = [EvFlush; EvSglRead 1].
Proof.
  assert (H : lz_sgl (lz4s (strm exSglLz)) <> []) by discriminate.
  split; [exact H|].
  destruct (lz4Read_drains_first exE 0 8 [] exSglLz H eq_refl)
    as (w' & H1 & H2 & _ & H4 & _ & _ & _ & _ & H9).
  exists w'. split; [exact H1|]. split; [rewrite H2; reflexivity|].
  split; [rewrite H4; reflexivity | rewrite H9; reflexivity].
Defined.

Lemma abortPending_on_closed_queues_witness :
  closed (workCh (strm exAborted)) = true /\ closed (cmplCh (strm exAborted)) = true /\
  exists w',
    abortPending exE (Some (ErrExternal 2)) true exAborted = Ok tt w' /\
    buf (workCh (strm w')) = [] /\ buf (cmplCh (strm w')) = [] /\
    Processed exE
      [as_cmpl (Some (ErrExternal 2)) (exampleObj 7 (Some 3%nat) None None);
       exCmpl1; exCmpl2] exAborted w'.
Proof.
  split; [reflexivity|]. split; [reflexivity|].
  pose proof (abortPending_on_closed_queues exE (Some (ErrExternal 2)) exAborted
                eq_refl eq_refl) as H.
  destruct (abortPending exE (Some (ErrExternal 2)) true exAborted) as [[] w'| | |].
  - exists w'. destruct H as (H1 & H2 & H3).
    split; [reflexivity|]. split; [exact H1|]. split; [exact H2 | exact H3].
  - destruct H.
  - discriminate H.
  - destruct H.
Defined.

Lemma closeAndFree_closes_once_witness :
  exists w1,
    closeAndFree exE exShort = Ok [MaxHeader] w1 /\
    closed (workCh (strm w1)) = true /\ closed (cmplCh (strm w1)) = true /\
    closeAndFree exE w1 = Panic w1 /\
    errCmpl exE (Some (ErrExternal 1)) w1 = Panic w1.
Proof.
  destruct (closeAndFree_closes_once exE (Some (ErrExternal 1)) exShort eq_refl eq_refl)
    as (w1 & H1 & H2 & H3 & H4 & H5).
  exists w1. split; [exact H1|]. split; [rewrite H2; reflexivity|].
  split; [rewrite H3; reflexivity|]. split; [exact H4|]. apply H5. reflexivity.
Defined.

Lemma terminate_releases_cmplLoop_witness :
  terminated (strm exSCQ) = false /\ closed (cmplCh (strm exSCQ)) = false /\
  exists w1 w2,
    terminate exE exSCQ = Ok tt w1 /\ cmplLoop exE w1 = Ok tt w2 /\
    Processed exE [exCmpl1] w1 w2.
Proof.
  split; [reflexivity|]. split; [reflexivity|].
  destruct (terminate_releases_cmplLoop exE exSCQ eq_refl eq_refl) as (w1 & H1 & H2).
  exists w1. destruct (cmplLoop exE w1) as [[] w2| | |].
  - exists w2. split; [exact H1|]. split; [reflexivity | exact H2].
  - destruct H2.
  - discriminate H2.
  - destruct H2.
Defined.

Lemma idleTick_idempotent_witness :
  closed (workCh (strm exIdle)) = false /\
  (idleTick exE ;; idleTick exE) exIdle = idleTick exE exIdle.
Proof.
  split; [reflexivity|]. exact (idleTick_idempotent exE exIdle eq_refl).
Defined.

Lemma SetPrc_fires_once_witness :
  exists o' w0 w',
    SetPrc exE 2 (exampleObj 3 (Some 1%nat) None None) exIdle = Ok o' w0 /\
    Processed exE [as_cmpl None o'; as_cmpl (Some (ErrExternal 7)) o'] w0 w' /\
    exists p, prc o' = Some p /\ heap exIdle !! p = None /\ heap w' !! p = Some 0 /\
      exists evs, log w' = log w0 ++ evs /\
        sent_calls evs =
          [(StreamLevel, 9%nat, Hdr (exampleObj 3 (Some 1%nat) None None),
            Some 1%nat, None, Some (ErrExternal 7))].
Proof.
  eexists _, _, _. split; [vm_compute; reflexivity|].
  match goal with |- Processed _ ?P ?W0 ?W /\ _ =>
    assert (HP : Processed exE P W0 W)
  end.
  { eapply (Processed_app exE [_] [_]).
    - apply Processed_one. vm_compute. reflexivity.
    - apply Processed_one. vm_compute. reflexivity. }
  split; [exact HP|].
  destruct (SetPrc_fires_once exE 2 (exampleObj 3 (Some 1%nat) None None) _
              [None; Some (ErrExternal 7)] StreamLevel 9%nat exIdle _ _
              ltac:(split; [lia | reflexivity]) ltac:(vm_compute; reflexivity)
              eq_refl eq_refl HP)
    as (_ & p & Hp & Hf & _ & Hend & evs & Hl & Hs).
  exists p. split; [exact Hp|]. split; [exact Hf|]. split; [exact Hend|].
  exists evs. split; [exact Hl | exact Hs].
Defined.

Lemma cmplLoop_waits_for_marker_witness :
  closed (cmplCh (strm exPending)) = false /\
  exists w',
    cmplLoop exE exPending = Blocked w' /\
    Processed exE [exCmpl1; exCmpl2] exPending w' /\ buf (cmplCh (strm w')) = [].
Proof.
  split; [reflexivity|].
  assert (Hall : Forall (fun c => not_last exE c = true) (buf (cmplCh (strm exPending))))
    by (repeat (constructor; [vm_compute; reflexivity|]); constructor).
  pose proof (cmplLoop_waits_for_marker exE exPending Hall eq_refl) as H.
  destruct (cmplLoop exE exPending) as [[] w'| w' | |].
  - destruct H.
  - exists w'. split; [reflexivity | exact H].
  - discriminate H.
  - destruct H.
Defined.

Lemma abortPending_waits_on_open_SQ_witness :
  closed (workCh (strm exSend)) = false /\
  exists w',
    abortPending exE (Some (ErrExternal 2)) true exSend = Blocked w' /\
    Processed exE
      [as_cmpl (Some (ErrExternal 2)) (exampleObj 3 (Some 1%nat) None None)] exSend w' /\
    buf (workCh (strm w')) = [].
Proof.
  split; [reflexivity|].
  pose proof (abortPending_waits_on_open_SQ exE (Some (ErrExternal 2)) true exSend
                eq_refl) as H.
  destruct (abortPending exE (Some (ErrExternal 2)) true exSend) as [[] w'| w' | |].
  - destruct H.
  - destruct H as (H1 & H2 & _). exists w'.
    split; [reflexivity|]. split; [exact H1 | exact H2].
  - discriminate H.
  - destruct H.
Defined.

Lemma Read_completes_header_only_witness :
  IsHeaderOnly exE (so_obj (s_sendoff (strm (exData 0 None)))) = true /\
  exists w1,
    Read exE 0 8 (exData 0 None) = Blocked w1 /\
    buf (cmplCh (strm w1)) =
      [{| c_obj := exampleObj 0 (Some 1%nat) None None; c_err := None |}] /\
    stats_Num (stats (strm w1)) = 1.
Proof.
  split; [reflexivity|].
  destruct (Read_completes_header_only exE 0 8 (exData 0 None)
              eq_refl eq_refl eq_refl eq_refl eq_refl eq_refl)
    as (w1 & _ & Hq & _ & Hn & _ & Hb).
  exists w1. split; [apply Hb; reflexivity|].
  split; [rewrite Hq; reflexivity | rewrite Hn; reflexivity].
Defined.

Lemma Read_sends_object_witness :
  exists w1 w2,
    Read exE 0 8 exSend = Ok ([x48; x44; x01], None) w1 /\
    Read exE 0 8 w1 = Ok ([x61; x62; x63], None) w2 /\
    buf (cmplCh (strm w2)) =
      [{| c_obj := exampleObj 3 (Some 1%nat) None None; c_err := None |}] /\
    stats_Size (stats (strm w2)) = 3.
Proof.
  destruct (Read_sends_object exE 0 8 1 (exampleObj 3 (Some 1%nat) None None) []
              [x61; x62; x63] None [] exSend)
    as (w1 & w2 & H1 & H2 & H3 & _ & H5).
  - left. simpl. lia.
  - unfold between_objects. simpl. lia.
  - reflexivity.
  - reflexivity.
  - left. reflexivity.
  - reflexivity.
  - reflexivity.
  - reflexivity.
  - reflexivity.
  - vm_compute. reflexivity.
  - left. reflexivity.
  - reflexivity.
  - simpl. lia.
  - simpl. lia.
  - simpl. lia.
  - simpl. lia.
  - reflexivity.
  - exists w1, w2. split; [exact H1|]. split; [exact H2|].
    split; [rewrite H3; reflexivity | rewrite H5; reflexivity].
Defined.
